(** * Glyph path normalisation: a shallow embedding of
      scripts/generate-alphabet-paths.ts

    The script parses a restricted SVG path dialect (M, L, Z with relative
    lowercase forms), transforms the geometry of every glyph and writes the
    paths back as text.  This development embeds the parser, the serializer
    and the three normalisation passes, and states the properties of the
    specification over them.

    Number model.  A JavaScript number is modelled by [number]: NaN, the two
    infinities, and the finite values as exact rationals.  Arithmetic on
    finite values is exact (binary64 rounding is abstracted away), and the
    two zeros of IEEE 754 are identified.  Every finite value is kept in
    lowest terms ([Qred]) so that equal values are equal terms.

    Text model.  A JavaScript string is a list of characters; the path
    dialect is ASCII.  The functions taking or returning source strings are
    stated over [string] and scan [list ascii] inside. *)

From Stdlib Require Import QArith Qround Qabs ZArith NArith.
From Stdlib Require Import String Ascii List Bool Lia Lqa.
Import ListNotations.

Local Open Scope Q_scope.

(* ================================================================== *)
(** ** The JavaScript runtime the script relies on *)
(* ================================================================== *)

Module JS.

(** *** Numbers *)

Inductive number : Type :=
| NaN
| NegInf
| PosInf
| Fin (q : Q).

Definition zero : number := Fin 0.
Definition one : number := Fin 1.

Definition ofZ (z : Z) : number := Fin (inject_Z z).

Definition Qltb (a b : Q) : bool := negb (Qle_bool b a).

Definition isNaN (a : number) : bool :=
  match a with NaN => true | _ => false end.

Definition isFinite (a : number) : bool :=
  match a with Fin _ => true | _ => false end.

Definition neg (a : number) : number :=
  match a with
  | NaN => NaN
  | NegInf => PosInf
  | PosInf => NegInf
  | Fin q => Fin (Qred (- q))
  end.

Definition add (a b : number) : number :=
  match a, b with
  | NaN, _ | _, NaN => NaN
  | PosInf, NegInf | NegInf, PosInf => NaN
  | PosInf, _ | _, PosInf => PosInf
  | NegInf, _ | _, NegInf => NegInf
  | Fin p, Fin q => Fin (Qred (p + q))
  end.

Definition sub (a b : number) : number := add a (neg b).

(** Sign of a finite rational as a comparison with zero. *)
Definition Qsgn (q : Q) : comparison := Qcompare q 0.

Definition inf_of (c : comparison) : number :=
  match c with
  | Lt => NegInf
  | Gt => PosInf
  | Eq => NaN
  end.

Definition flip (c : comparison) : comparison := CompOpp c.

Definition mul (a b : number) : number :=
  match a, b with
  | NaN, _ | _, NaN => NaN
  | Fin p, Fin q => Fin (Qred (p * q))
  | PosInf, PosInf | NegInf, NegInf => PosInf
  | PosInf, NegInf | NegInf, PosInf => NegInf
  | PosInf, Fin q | Fin q, PosInf => inf_of (Qsgn q)
  | NegInf, Fin q | Fin q, NegInf => inf_of (flip (Qsgn q))
  end.

(** Division.  With a single zero, a non-zero finite value divided by zero
    takes the sign of the dividend. *)
Definition div (a b : number) : number :=
  match a, b with
  | NaN, _ | _, NaN => NaN
  | Fin p, Fin q =>
      if Qeq_bool q 0 then inf_of (Qsgn p) else Fin (Qred (p / q))
  | Fin _, PosInf | Fin _, NegInf => Fin 0
  | PosInf, Fin q => if Qltb q 0 then NegInf else PosInf
  | NegInf, Fin q => if Qltb q 0 then PosInf else NegInf
  | _, _ => NaN
  end.

(** [a < b], [a <= b], [a > b] and [a === b]; every comparison with NaN is
    false. *)
Definition lt (a b : number) : bool :=
  match a, b with
  | NaN, _ | _, NaN => false
  | _, NegInf => false
  | NegInf, _ => true
  | PosInf, _ => false
  | Fin _, PosInf => true
  | Fin p, Fin q => Qltb p q
  end.

Definition le (a b : number) : bool :=
  match a, b with
  | NaN, _ | _, NaN => false
  | NegInf, _ => true
  | _, PosInf => true
  | _, NegInf => false
  | PosInf, _ => false
  | Fin p, Fin q => Qle_bool p q
  end.

Definition gt (a b : number) : bool := lt b a.

Definition eqb (a b : number) : bool :=
  match a, b with
  | NegInf, NegInf | PosInf, PosInf => true
  | Fin p, Fin q => Qeq_bool p q
  | _, _ => false
  end.

Definition Math_min (a b : number) : number :=
  match a, b with
  | NaN, _ | _, NaN => NaN
  | _, _ => if le a b then a else b
  end.

Definition Math_max (a b : number) : number :=
  match a, b with
  | NaN, _ | _, NaN => NaN
  | _, _ => if le a b then b else a
  end.

Definition Math_abs (a : number) : number :=
  match a with
  | NaN => NaN
  | NegInf | PosInf => PosInf
  | Fin q => Fin (Qred (Qabs q))
  end.

(** *** Characters and decimal digits *)

Definition is_digit (c : ascii) : bool :=
  let n := nat_of_ascii c in (48 <=? n)%nat && (n <=? 57)%nat.

Definition digit_val (c : ascii) : N := N.of_nat (nat_of_ascii c - 48).

Definition digit_char (d : N) : ascii := ascii_of_nat (48 + N.to_nat d).

(** White space of the ASCII range: tab, line feed, vertical tab, form feed,
    carriage return and space. *)
Definition is_space (c : ascii) : bool :=
  let n := nat_of_ascii c in
  ((9 <=? n)%nat && (n <=? 13)%nat) || (n =? 32)%nat.

Definition ascii_eqb (a b : ascii) : bool := Ascii.eqb a b.

(** Value of a run of decimal digits, most significant first. *)
Definition digits_value (ds : list ascii) : N :=
  fold_left (fun acc c => (10 * acc + digit_val c)%N) ds 0%N.

(** Decimal digits of a natural number, most significant first; zero is the
    single digit 0. *)
Fixpoint digits_aux (fuel : nat) (n : N) (acc : list ascii) : list ascii :=
  match fuel with
  | O => acc
  | S f =>
      let acc' := digit_char (n mod 10) :: acc in
      if (n / 10 =? 0)%N then acc' else digits_aux f (n / 10) acc'
  end.

Definition N_digits (n : N) : list ascii :=
  digits_aux (S (N.to_nat (N.log2 n))) n [].

(** The longest run of digits at the head (greedy), and what follows. *)
Fixpoint span_digits (s : list ascii) : list ascii * list ascii :=
  match s with
  | c :: s' =>
      if is_digit c
      then let (ds, r) := span_digits s' in (c :: ds, r)
      else ([], s)
  | [] => ([], [])
  end.

Definition Q10 : Q := 10 # 1.

(** [pow10 e] is 10^e as a rational, for any integer exponent. *)
Definition pow10 (e : Z) : Q :=
  match e with
  | Z0 => 1
  | Zpos p => inject_Z (10 ^ Zpos p)
  | Zneg p => 1 # (10 ^ p)%positive
  end.

(** *** Decimal literals

    [numlit] is a parsed literal: an optional sign; a mantissa that is
    either digits (maybe none), a point and at least one digit, or at least
    one digit, an optional point and more digits; an optional exponent of
    e or E, an optional sign and at least one digit.  This is both the
    number pattern of [parsePathData] and the StrDecimalLiteral that
    [parseFloat] reads. *)

Record numlit : Type := mkLit {
  lit_neg : bool;
  lit_int : list ascii;
  lit_frac : list ascii;
  lit_exp : option (bool * list ascii)
}.

Definition lit_value (l : numlit) : Q :=
  let m := Z.of_N (digits_value (lit_int l ++ lit_frac l)) in
  let e := match lit_exp l with
           | Some (true, es) => (- Z.of_N (digits_value es))%Z
           | Some (false, es) => Z.of_N (digits_value es)
           | None => 0%Z
           end in
  let v := inject_Z m * pow10 (e - Z.of_nat (List.length (lit_frac l))) in
  Qred (if lit_neg l then - v else v).

Definition is_nil {A} (l : list A) : bool :=
  match l with [] => true | _ => false end.

(** The mantissa, the alternative with fraction digits first. *)
Definition scan_mantissa (s : list ascii)
  : option (list ascii * list ascii * list ascii) :=
  let (ds, s2) := span_digits s in
  let whole := if negb (is_nil ds) then Some (ds, [], s2) else None in
  match s2 with
  | c :: s3 =>
      if ascii_eqb c "." then
        let (fs, s4) := span_digits s3 in
        if negb (is_nil fs) then Some (ds, fs, s4)
        else if negb (is_nil ds) then Some (ds, [], s3)
        else None
      else whole
  | [] => whole
  end.

(** An optional sign: [true] for minus. *)
Definition scan_sign (s : list ascii) : bool * list ascii :=
  match s with
  | c :: t =>
      if ascii_eqb c "+" then (false, t)
      else if ascii_eqb c "-" then (true, t)
      else (false, s)
  | [] => (false, s)
  end.

(** The optional exponent: taken only when complete. *)
Definition scan_exponent (s : list ascii)
  : option (bool * list ascii) * list ascii :=
  match s with
  | c :: s1 =>
      if ascii_eqb c "e" || ascii_eqb c "E" then
        let (sg, s2) := scan_sign s1 in
        let (es, s3) := span_digits s2 in
        if is_nil es then (None, s) else (Some (sg, es), s3)
      else (None, s)
  | [] => (None, s)
  end.

(** One anchored match of the number pattern: the literal and the rest.
    When no mantissa follows a sign there is no match here at all. *)
Definition scan_number (s : list ascii) : option (numlit * list ascii) :=
  let (sg, s1) := scan_sign s in
  match scan_mantissa s1 with
  | Some (ds, fs, s2) =>
      let (ex, s3) := scan_exponent s2 in
      Some (mkLit sg ds fs ex, s3)
  | None => None
  end.

(** [String.prototype.match] with the global number pattern: the texts of
    the successive non-overlapping matches, leftmost first.  [skip] counts
    the characters of the previous match still to be passed over. *)
Fixpoint match_numbers_from (skip : nat) (s : list ascii)
  : list (list ascii) :=
  match s with
  | [] => []
  | _ :: s' =>
      match skip with
      | S k => match_numbers_from k s'
      | O =>
          match scan_number s with
          | Some (_, rest) =>
              let len := (List.length s - List.length rest)%nat in
              firstn len s :: match_numbers_from (len - 1) s'
          | None => match_numbers_from 0 s'
          end
      end
  end.

Definition match_numbers (s : list ascii) : list (list ascii) :=
  match_numbers_from 0 s.

Fixpoint drop_spaces (s : list ascii) : list ascii :=
  match s with
  | c :: s' => if is_space c then drop_spaces s' else s
  | [] => []
  end.

Definition Infinity_text : list ascii := list_ascii_of_string "Infinity".

Fixpoint starts_with (p s : list ascii) : bool :=
  match p, s with
  | [], _ => true
  | a :: p', b :: s' => ascii_eqb a b && starts_with p' s'
  | _ :: _, [] => false
  end.

(** [parseFloat]: leading white space is skipped, the longest prefix that is
    a decimal literal is read, and anything else gives NaN. *)
Definition parseFloat (s : list ascii) : number :=
  let t := drop_spaces s in
  match scan_number t with
  | Some (l, _) => Fin (lit_value l)
  | None =>
      match t with
      | "-"%char :: u => if starts_with Infinity_text u then NegInf else NaN
      | "+"%char :: u => if starts_with Infinity_text u then PosInf else NaN
      | _ => if starts_with Infinity_text t then PosInf else NaN
      end
  end.

(** [String.prototype.trim] and [split] on a one-character separator. *)
Definition trim (s : list ascii) : list ascii :=
  rev (drop_spaces (rev (drop_spaces s))).

Fixpoint split_on (sep : ascii) (s : list ascii) : list (list ascii) :=
  match s with
  | [] => [[]]
  | c :: s' =>
      if ascii_eqb c sep then [] :: split_on sep s'
      else match split_on sep s' with
           | p :: ps => (c :: p) :: ps
           | [] => [[c]]
           end
  end.

Fixpoint join (sep : list ascii) (parts : list (list ascii)) : list ascii :=
  match parts with
  | [] => []
  | [p] => p
  | p :: ps => p ++ sep ++ join sep ps
  end.

(** *** Number to text *)

(** Digits after the decimal point of [r], for [0 <= r < 1], until the
    expansion ends.  No binary64 value has more than 1074 of them; the bound
    only matters for rationals without a finite expansion. *)
Fixpoint frac_digits (fuel : nat) (r : Q) : list ascii :=
  match fuel with
  | O => []
  | S f =>
      if Qeq_bool r 0 then []
      else
        let d := Qfloor (Q10 * r) in
        digit_char (Z.to_N d) :: frac_digits f (Qred (Q10 * r - inject_Z d))
  end.

Definition frac_fuel : nat := 1100.

Fixpoint strip_leading_zeros (ds : list ascii) : nat * list ascii :=
  match ds with
  | c :: ds' =>
      if ascii_eqb c "0" then
        let (z, r) := strip_leading_zeros ds' in (S z, r)
      else (O, ds)
  | [] => (O, [])
  end.

Definition strip_trailing_zeros (ds : list ascii) : list ascii :=
  rev (snd (strip_leading_zeros (rev ds))).

Definition E21 : Q := inject_Z (10 ^ 21).
Definition Em6 : Q := 1 # (10 ^ 6)%positive.

(** Exponential notation [d[.ddd]e±x] from the significant digits and the
    decimal exponent of the first digit. *)
Definition exp_notation (sig : list ascii) (e : Z) : list ascii :=
  match sig with
  | [] => ["0"%char]
  | d :: rest =>
      (d :: (if is_nil rest then [] else "."%char :: rest))
      ++ ["e"%char; if (e <? 0)%Z then "-"%char else "+"%char]
      ++ N_digits (Z.to_N (Z.abs e))
  end.

(** [Number.prototype.toString] for a positive finite value: fixed notation
    from 10^-6 up to 10^21, exponential notation outside. *)
Definition pos_toString (a : Q) : list ascii :=
  let i := Qfloor a in
  let fds := frac_digits frac_fuel (Qred (a - inject_Z i)) in
  if Qle_bool E21 a then
    let ids := N_digits (Z.to_N i) in
    exp_notation (strip_trailing_zeros (ids ++ fds))
                 (Z.of_nat (List.length ids) - 1)
  else if Qle_bool Em6 a then
    N_digits (Z.to_N i) ++ (if is_nil fds then [] else "."%char :: fds)
  else
    let (z, sig) := strip_leading_zeros fds in
    exp_notation sig (- Z.of_nat (S z)).

Definition Number_toString (v : number) : list ascii :=
  match v with
  | NaN => list_ascii_of_string "NaN"
  | PosInf => Infinity_text
  | NegInf => "-"%char :: Infinity_text
  | Fin q =>
      if Qeq_bool q 0 then ["0"%char]
      else if Qltb q 0 then "-"%char :: pos_toString (Qabs q)
      else pos_toString q
  end.

(** The integer [n] for which [n / 10^6 - a] is closest to zero, the larger
    one of two. *)
Definition round_scaled (a : Q) : N :=
  Z.to_N (Qfloor (a * inject_Z (10 ^ 6) + (1 # 2))).

Fixpoint zeros (k : nat) : list ascii :=
  match k with
  | O => []
  | S k' => "0"%char :: zeros k'
  end.

(** [Number.prototype.toFixed(6)]. *)
Definition toFixed6 (v : number) : list ascii :=
  match v with
  | Fin q =>
      let a := Qabs q in
      if Qle_bool E21 a then Number_toString v
      else
        let m := N_digits (round_scaled a) in
        let k := List.length m in
        let m' := zeros (7 - k) ++ m in
        let cut := (List.length m' - 6)%nat in
        (if Qltb q 0 then ["-"%char] else [])
        ++ firstn cut m' ++ "."%char :: skipn cut m'
  | _ => Number_toString v
  end.

(** [Number(text)] on the texts [toFixed] returns: a decimal literal taking
    the whole text, a signed Infinity, or NaN. *)
Definition Number_ofString (s : list ascii) : number :=
  match scan_number s with
  | Some (l, []) => Fin (lit_value l)
  | Some (_, _ :: _) => NaN
  | None =>
      if list_eq_dec ascii_dec s Infinity_text then PosInf
      else if list_eq_dec ascii_dec s ("-"%char :: Infinity_text) then NegInf
      else NaN
  end.

End JS.

Import JS.

(* ================================================================== *)
(** ** Data model of the script *)
(* ================================================================== *)

Record Point : Type := mkPoint { px : number; py : number }.

Record Subpath : Type := mkSubpath { points : list Point; closed : bool }.

Definition text (s : string) : list ascii := list_ascii_of_string s.

(** ** formatNumber and serializeSubpaths *)

(** [formatNumber]: [Number(value.toFixed(6))], negative zero replaced by
    zero (the two zeros are one value here), then [toString]. *)
Definition formatNumber (value : number) : list ascii :=
  let rounded := Number_ofString (toFixed6 value) in
  let generated := rounded in
  Number_toString generated.

Definition move_part (p : Point) : list ascii :=
  "M"%char :: formatNumber (px p) ++ " "%char :: formatNumber (py p).

Definition line_part (p : Point) : list ascii :=
  "L"%char :: formatNumber (px p) ++ " "%char :: formatNumber (py p).

Definition subpath_parts (sp : Subpath) : list (list ascii) :=
  match points sp with
  | [] => []
  | first :: rest =>
      move_part first :: map line_part rest
      ++ (if closed sp then [["Z"%char]] else [])
  end.

Definition serialize_parts (subpaths : list Subpath) : list (list ascii) :=
  flat_map subpath_parts subpaths.

Definition serializeSubpaths (subpaths : list Subpath) : string :=
  string_of_list_ascii (join [" "%char] (serialize_parts subpaths)).

(** ** parsePathData *)

Record ParseState : Type := mkState {
  st_subpaths : list Subpath;
  st_current : option Subpath;
  st_currentPoint : option Point;
  st_subpathStart : option Point
}.

Definition initState : ParseState := mkState [] None None None.

Definition flushCurrent (st : ParseState) : ParseState :=
  let done :=
    match st_current st with
    | Some c => if is_nil (points c) then st_subpaths st
                else st_subpaths st ++ [c]
    | None => st_subpaths st
    end in
  mkState done None (st_currentPoint st) None.

Definition is_command (c : ascii) : bool :=
  ascii_eqb c "M" || ascii_eqb c "L" || ascii_eqb c "m" || ascii_eqb c "l"
  || ascii_eqb c "Z" || ascii_eqb c "z".

Definition toUpperCase (c : ascii) : ascii :=
  let n := nat_of_ascii c in
  if (97 <=? n)%nat && (n <=? 122)%nat then ascii_of_nat (n - 32) else c.

Definition toLowerCase (c : ascii) : ascii :=
  let n := nat_of_ascii c in
  if (65 <=? n)%nat && (n <=? 90)%nat then ascii_of_nat (n + 32) else c.

(** The body of the loop over coordinate pairs in [applyCommand]; the state
    carries [isFirstPair]. *)
Definition applyPair (command : ascii) (isRelative : bool)
    (acc : ParseState * bool) (xt yt : list ascii) : ParseState * bool :=
  let (st, isFirstPair) := acc in
  let x := parseFloat xt in
  let y := parseFloat yt in
  if isNaN x || isNaN y then acc
  else
    let (x, y) :=
      match isRelative, st_currentPoint st with
      | true, Some cp => (add x (px cp), add y (py cp))
      | _, _ => (x, y)
      end in
    let nextPoint := mkPoint x y in
    if ascii_eqb command "M" && isFirstPair then
      let st' := flushCurrent st in
      (mkState (st_subpaths st')
               (Some (mkSubpath [nextPoint] false))
               (Some nextPoint) (Some nextPoint), false)
    else if ascii_eqb command "M" || ascii_eqb command "L" then
      match st_current st with
      | None =>
          (mkState (st_subpaths st)
                   (Some (mkSubpath [nextPoint] false))
                   (Some nextPoint) (Some nextPoint), false)
      | Some c =>
          (mkState (st_subpaths st)
                   (Some (mkSubpath (points c ++ [nextPoint]) (closed c)))
                   (Some nextPoint) (st_subpathStart st), false)
      end
    else (st, false).

(** The [for (i = 0; i + 1 < numbers.length; i += 2)] loop. *)
Fixpoint applyPairs (command : ascii) (isRelative : bool)
    (numbers : list (list ascii)) (acc : ParseState * bool)
  : ParseState * bool :=
  match numbers with
  | xt :: yt :: rest =>
      applyPairs command isRelative rest
                 (applyPair command isRelative acc xt yt)
  | _ => acc
  end.

Definition applyCommand (st : ParseState) (cmd : ascii) (data : list ascii)
  : ParseState :=
  let command := toUpperCase cmd in
  if ascii_eqb command "Z" then
    let cur :=
      match st_current st with
      | Some c => Some (mkSubpath (points c) true)
      | None => None
      end in
    let cp :=
      match st_subpathStart st with
      | Some p => Some p
      | None => st_currentPoint st
      end in
    mkState (st_subpaths st) cur cp (st_subpathStart st)
  else
    let numbers := match_numbers data in
    if (List.length numbers <? 2)%nat then st
    else
      let isRelative := ascii_eqb cmd (toLowerCase cmd) in
      fst (applyPairs command isRelative numbers (st, true)).

(** The scan with [/[MLmlZz]/g]: every command letter with the text up to
    the next command letter (or the end).  Text before the first command is
    not looked at. *)
Fixpoint take_data (s : list ascii) : list ascii * list ascii :=
  match s with
  | c :: s' =>
      if is_command c then ([], s)
      else let (d, r) := take_data s' in (c :: d, r)
  | [] => ([], [])
  end.

Fixpoint split_commands (s : list ascii) : list (ascii * list ascii) :=
  match s with
  | [] => []
  | c :: s' =>
      if is_command c
      then (c, fst (take_data s')) :: split_commands s'
      else split_commands s'
  end.

Definition parse_chars (s : list ascii) : list Subpath :=
  let st :=
    fold_left (fun st cd => applyCommand st (fst cd) (snd cd))
              (split_commands s) initState in
  st_subpaths (flushCurrent st).

Definition parsePathData (pathData : string) : list Subpath :=
  parse_chars (text pathData).

(** ** Bounding boxes and widths *)

Record BBox : Type := mkBBox {
  minX : number; maxX : number; minY : number; maxY : number
}.

Definition emptyBBox : BBox := mkBBox PosInf NegInf PosInf NegInf.

(** One round of the inner loop of [getBoundingBox]: the point enters with
    its ordinate flipped, [y = 1 - point.y]. *)
Definition bbox_step (b : BBox) (point : Point) : BBox :=
  let y := sub one (py point) in
  mkBBox (Math_min (minX b) (px point)) (Math_max (maxX b) (px point))
         (Math_min (minY b) y) (Math_max (maxY b) y).

Definition all_points (subpaths : list Subpath) : list Point :=
  flat_map points subpaths.

Definition getBoundingBox (subpaths : list Subpath) : BBox :=
  let b := fold_left bbox_step (all_points subpaths) emptyBBox in
  if negb (isFinite (minX b)) then mkBBox zero zero zero zero else b.

Record LineSegment : Type := mkSeg {
  x1 : number; y1 : number; x2 : number; y2 : number
}.

(** [seg[i][k]]: reading past the end of an array gives [undefined], which
    arithmetic turns into NaN. *)
Definition at_index (k : nat) (a : list number) : number := nth k a NaN.

(** Segments between the consecutive entries of one [M] section. *)
Fixpoint section_segments (seg : list (list number)) : list LineSegment :=
  match seg with
  | a :: ((b :: _) as rest) =>
      mkSeg (at_index 0 a) (sub one (at_index 1 a))
            (at_index 0 b) (sub one (at_index 1 b))
      :: section_segments rest
  | _ => []
  end.

Definition getLineSegments (pathData : string) : list LineSegment :=
  let segs :=
    map (fun seg =>
           map (fun pr => map parseFloat (split_on " " (trim pr)))
               (split_on "L" seg))
        (tl (split_on "M" (text pathData))) in
  flat_map section_segments segs.

Definition hundredth (n : Z) : number := Fin (Qred (n # 100)).

Definition two : number := Fin 2.

Definition getGlyphWidthRatio (segments : list LineSegment)
    (strokeWidthRatio : number) : number :=
  if is_nil segments then zero
  else
    let radius := div strokeWidthRatio two in
    let step (acc : number * number) (segment : LineSegment) :=
      (Math_min (Math_min (fst acc) (sub (x1 segment) radius))
                (sub (x2 segment) radius),
       Math_max (Math_max (snd acc) (add (x1 segment) radius))
                (add (x2 segment) radius)) in
    let (lo, hi) := fold_left step segments (PosInf, NegInf) in
    sub hi lo.

Definition getMaxYFromSubpaths (subpaths : list Subpath) : number :=
  let m := fold_left (fun acc point => Math_max acc (py point))
                     (all_points subpaths) NegInf in
  if isFinite m then m else zero.

(** ** Shifts and the scale-and-shift transform *)

Definition map_points (f : Point -> Point) (subpaths : list Subpath)
  : list Subpath :=
  map (fun subpath => mkSubpath (map f (points subpath)) (closed subpath))
      subpaths.

Definition shiftSubpathsY (subpaths : list Subpath) (deltaY : number)
  : list Subpath :=
  map_points (fun point => mkPoint (px point) (add (py point) deltaY))
             subpaths.

Definition shiftSubpathsX (subpaths : list Subpath) (deltaX : number)
  : list Subpath :=
  map_points (fun point => mkPoint (add (px point) deltaX) (py point))
             subpaths.

Definition transformPoint (scaleX scaleY xShift yShift : number)
    (point : Point) : Point :=
  let yCartesian := sub one (py point) in
  let xScaled := add (mul (px point) scaleX) xShift in
  let yScaled := add (mul yCartesian scaleY) yShift in
  mkPoint xScaled (sub one yScaled).

Definition transformSubpaths (subpaths : list Subpath)
    (scaleX scaleY xShift yShift : number) : list Subpath :=
  map_points (transformPoint scaleX scaleY xShift yShift) subpaths.

(** ** adjustDotSubpath *)

Definition raw_step (b : BBox) (point : Point) : BBox :=
  mkBBox (Math_min (minX b) (px point)) (Math_max (maxX b) (px point))
         (Math_min (minY b) (py point)) (Math_max (maxY b) (py point)).

Record DotScan : Type := mkDot {
  dotIndex : Z;
  dotMinY : number;
  dotBbox : option BBox
}.

Definition initDot : DotScan := mkDot (-1) PosInf None.

(** The loop over [i] that looks for the dot. *)
Fixpoint scanDot (i : nat) (subpaths : list Subpath) (acc : DotScan)
  : DotScan :=
  match subpaths with
  | [] => acc
  | subpath :: rest =>
      let acc' :=
        if is_nil (points subpath) then acc
        else
          let b := fold_left raw_step (points subpath) emptyBBox in
          let width := sub (maxX b) (minX b) in
          let height := sub (maxY b) (minY b) in
          if eqb height zero && gt width zero && lt (minY b) (dotMinY acc)
          then mkDot (Z.of_nat i) (minY b) (Some b)
          else acc in
      scanDot (S i) rest acc'
  end.

Fixpoint map_index {A B} (f : A -> nat -> B) (i : nat) (l : list A)
  : list B :=
  match l with
  | [] => []
  | a :: l' => f a i :: map_index f (S i) l'
  end.

Definition DOT_TARGET : number := hundredth 8.

Definition is_dotted (char : string) : bool :=
  String.eqb char "i" || String.eqb char "j".

Definition adjustDotSubpath (subpaths : list Subpath) (char : string)
  : list Subpath :=
  if negb (is_dotted char) then subpaths
  else
    let scan := scanDot 0 subpaths initDot in
    match dotBbox scan with
    | None => subpaths
    | Some box =>
        if (dotIndex scan <? 0)%Z then subpaths
        else
          let width := sub (maxX box) (minX box) in
          if negb (gt width zero) then subpaths
          else
            let targetWidth := Math_min width DOT_TARGET in
            let scale := div targetWidth width in
            let centerX := div (add (minX box) (maxX box)) two in
            map_index
              (fun subpath index =>
                 if negb (Z.of_nat index =? dotIndex scan)%Z then subpath
                 else
                   mkSubpath
                     (map (fun point =>
                             mkPoint
                               (add centerX
                                    (mul (sub (px point) centerX) scale))
                               (py point))
                          (points subpath))
                     (closed subpath))
              0 subpaths
    end.

(** ** The reference typeface *)

Record ReferenceMetrics : Type := mkMetrics {
  width : number;
  height : number;
  advanceWidth : number;
  leftSideBearing : number;
  rightSideBearing : number;
  yMin : number;
  yMax : number
}.

(** What the script reads of a glyph of the reference font: its bounding
    box and its advance width ([None] when the font gives none). *)
Record RefGlyph : Type := mkRefGlyph {
  bx1 : number; by1 : number; bx2 : number; by2 : number;
  glyphAdvance : option number
}.

Record RefFont : Type := mkRefFont {
  unitsPerEm : number;
  charToGlyph : string -> RefGlyph
}.

Definition UNITS_PER_EM : number := Fin 1000.
Definition DESIGN_HEIGHT : number := UNITS_PER_EM.
Definition STROKE_WIDTH : number := zero.
Definition VERTICAL_SCALE : number := hundredth 93.
Definition HORIZONTAL_SCALE : number := one.
Definition useReferenceSpacing : bool := true.

(** [value || 0] on a number: zero and NaN are falsy. *)
Definition or_zero (v : option number) : number :=
  match v with
  | Some NaN | None => zero
  | Some w => w
  end.

Definition getReferenceGlyphMetrics (referenceFont : RefFont) (char : string)
  : option ReferenceMetrics :=
  let referenceScale := div UNITS_PER_EM (unitsPerEm referenceFont) in
  let glyph := charToGlyph referenceFont char in
  let width := mul (sub (bx2 glyph) (bx1 glyph)) referenceScale in
  let height := mul (sub (by2 glyph) (by1 glyph)) referenceScale in
  let advanceWidth := mul (or_zero (glyphAdvance glyph)) referenceScale in
  let leftSideBearing := mul (bx1 glyph) referenceScale in
  let rightSideBearing :=
    sub advanceWidth (mul (bx2 glyph) referenceScale) in
  let yMin := mul (by1 glyph) referenceScale in
  let yMax := mul (by2 glyph) referenceScale in
  if negb (gt width zero) || negb (gt height zero)
     || negb (gt advanceWidth zero)
  then None
  else Some (mkMetrics width height advanceWidth leftSideBearing
                       rightSideBearing yMin yMax).

(** ** Glyph tables *)

(** A glyph table in the order [Object.entries] lists it; keys are the
    characters, as one-character strings. *)
Definition Table : Type := list (string * string).

Fixpoint lookup (t : Table) (char : string) : option string :=
  match t with
  | [] => None
  | (k, v) :: t' => if String.eqb k char then Some v else lookup t' char
  end.

(** A table entry is used only when it is there and not the empty string. *)
Definition truthy (v : option string) : option string :=
  match v with
  | Some EmptyString | None => None
  | Some s => Some s
  end.

Fixpoint assign (t : Table) (char : string) (v : string) : Table :=
  match t with
  | [] => [(char, v)]
  | (k, w) :: t' =>
      if String.eqb k char then (k, v) :: t' else (k, w) :: assign t' char v
  end.

(** ** The normalisation pipeline *)

(** Horizontal shift of Pass 1 in scripts/generate-alphabet-paths.ts: the
    glyph is moved so that its smallest scaled abscissa is zero. *)
Definition xShift (xMinScaled xMaxScaled : number) : number :=
  neg xMinScaled.

Module Part000.

(** Horizontal shift of Pass 1 in the second generator script
    (src/unnamed/part_000), which has no Pass 3. *)
Definition xShift (xMinScaled xMaxScaled : number) : number :=
  let scaledWidth := sub xMaxScaled xMinScaled in
  let targetWidth := one in
  if le scaledWidth targetWidth
  then sub (div (sub targetWidth scaledWidth) two) xMinScaled
  else neg xMinScaled.

End Part000.

Definition REFERENCE_CHAR : string := "H".
Definition descenderChars : list string := ["g"; "j"; "p"; "q"; "y"]%string.
Definition EPSILON : number := Fin (1 # 1000000).
Definition strokeWidthRatio : number := hundredth 9.

Section Pipeline.

Variable referenceFont : RefFont.

(** The two scripts differ in Pass 1 only by the horizontal shift. *)
Variable shiftOf : number -> number -> number.

Variable svgAlphabet : Table.

Definition referenceCharSubpaths : list Subpath :=
  match truthy (lookup svgAlphabet REFERENCE_CHAR) with
  | Some referenceCharPath => parsePathData referenceCharPath
  | None => []
  end.

Definition referenceCharBbox : BBox := getBoundingBox referenceCharSubpaths.

Definition referenceCharWidth : number :=
  mul (sub (maxX referenceCharBbox) (minX referenceCharBbox)) UNITS_PER_EM.

Definition referenceCharHeight : number :=
  mul (sub (maxY referenceCharBbox) (minY referenceCharBbox)) DESIGN_HEIGHT.

Definition referenceCharMetrics : option ReferenceMetrics :=
  getReferenceGlyphMetrics referenceFont REFERENCE_CHAR.

Definition baseScaleX : number :=
  match referenceCharMetrics with
  | Some m =>
      if gt referenceCharWidth zero
      then mul (div (width m) referenceCharWidth) HORIZONTAL_SCALE
      else HORIZONTAL_SCALE
  | None => HORIZONTAL_SCALE
  end.

Definition baseScaleY : number :=
  match referenceCharMetrics with
  | Some m =>
      if gt referenceCharHeight zero
      then mul (div (height m) referenceCharHeight) VERTICAL_SCALE
      else VERTICAL_SCALE
  | None => VERTICAL_SCALE
  end.

(** Body of the first loop: one glyph of the table. *)
Definition pass1_glyph (char pathData : string) : string :=
  let subpaths := parsePathData pathData in
  if is_nil subpaths then pathData
  else
    let bbox := getBoundingBox subpaths in
    let strokePad := div STROKE_WIDTH two in
    let paddedMinX := sub (minX bbox) strokePad in
    let paddedMaxX := add (maxX bbox) strokePad in
    let paddedMaxY := add (maxY bbox) strokePad in
    let referenceMetrics := getReferenceGlyphMetrics referenceFont char in
    let scaleX := baseScaleX in
    let scaleY := baseScaleY in
    let xMinScaled := mul paddedMinX scaleX in
    let xMaxScaled := mul paddedMaxX scaleX in
    let yMaxScaled := mul paddedMaxY scaleY in
    let xShift := shiftOf xMinScaled xMaxScaled in
    let yShift :=
      match useReferenceSpacing, referenceMetrics with
      | true, Some m => sub (div (yMax m) DESIGN_HEIGHT) yMaxScaled
      | _, _ => zero
      end in
    let transformed := transformSubpaths subpaths scaleX scaleY xShift yShift in
    let adjusted := adjustDotSubpath transformed char in
    serializeSubpaths adjusted.

Definition pass1 : Table :=
  map (fun kv => (fst kv, pass1_glyph (fst kv) (snd kv))) svgAlphabet.

End Pipeline.

(** Pass 2: the underscore is moved down to the deepest descender. *)
Definition descenderTargetY (generated : Table) : number :=
  fold_left
    (fun target char =>
       match truthy (lookup generated char) with
       | None => target
       | Some pathData =>
           Math_max target (getMaxYFromSubpaths (parsePathData pathData))
       end)
    descenderChars zero.

Definition pass2 (generated : Table) : Table :=
  let target := descenderTargetY generated in
  match truthy (lookup generated "_") with
  | Some underscorePath =>
      if gt target zero then
        let underscoreSubpaths := parsePathData underscorePath in
        let underscoreMaxY := getMaxYFromSubpaths underscoreSubpaths in
        let deltaY := sub target underscoreMaxY in
        if gt (Math_abs deltaY) EPSILON
        then assign generated "_"
               (serializeSubpaths (shiftSubpathsY underscoreSubpaths deltaY))
        else generated
      else generated
  | None => generated
  end.

(** Pass 3: the widest padded glyph gives the common advance, and every
    glyph is centred in it. *)
Definition paddedWidth (pathData : string) : number :=
  getGlyphWidthRatio (getLineSegments pathData) strokeWidthRatio.

Definition glyphWidthRatio (generated : Table) : number :=
  fold_left (fun maxWidth kv => Math_max maxWidth (paddedWidth (snd kv)))
            generated zero.

Definition pass3_glyph (unified : number) (pathData : string) : string :=
  let width := paddedWidth pathData in
  let centerDeltaX := div (sub unified width) two in
  if le (Math_abs centerDeltaX) EPSILON then pathData
  else serializeSubpaths (shiftSubpathsX (parsePathData pathData) centerDeltaX).

Definition pass3 (generated : Table) : Table :=
  let unified := glyphWidthRatio generated in
  map (fun kv => (fst kv, pass3_glyph unified (snd kv))) generated.

(** The table the script writes back. *)
Definition generatedAlphabet (referenceFont : RefFont) (svgAlphabet : Table)
  : Table :=
  pass3 (pass2 (pass1 referenceFont xShift svgAlphabet)).


(** The second script stops after Pass 2. *)
Definition generatedAlphabet000 (referenceFont : RefFont)
    (svgAlphabet : Table) : Table :=
  pass2 (pass1 referenceFont Part000.xShift svgAlphabet).

(* ================================================================== *)
(** ** Parsing: the literal examples and relative commands *)
(* ================================================================== *)

Definition P (a b : Z) : Point := mkPoint (ofZ a) (ofZ b).

(** Running sums: the absolute points of a chain of relative pairs that
    starts at [cp]. *)
Fixpoint accumulate (cp : Point) (deltas : list (number * number))
  : list Point :=
  match deltas with
  | [] => []
  | (dx, dy) :: rest =>
      let next := mkPoint (add dx (px cp)) (add dy (py cp)) in
      next :: accumulate next rest
  end.

(** The coordinate pairs of a token list, as [applyPairs] walks it; a
    trailing odd token is dropped. *)
Fixpoint token_pairs (numbers : list (list ascii)) : list (number * number) :=
  match numbers with
  | xt :: yt :: rest => (parseFloat xt, parseFloat yt) :: token_pairs rest
  | _ => []
  end.

Definition pair_ok (d : number * number) : Prop :=
  isNaN (fst d) = false /\ isNaN (snd d) = false.

Lemma list_pair_ind {A} (Q : list A -> Prop) :
  Q [] -> (forall a, Q [a]) -> (forall a b l, Q l -> Q (a :: b :: l)) ->
  forall l, Q l.
Proof.
  intros H0 H1 H2.
  fix IH 1. intros [|a [|b l]]; [exact H0 | apply H1 | apply H2, IH].
Qed.

Lemma last_cons {A} (l : list A) (a d : A) : last (a :: l) d = last l a.
Proof.
  revert a d. induction l as [|b l IH]; intros a d; [reflexivity|].
  change (last (a :: b :: l) d) with (last (b :: l) d).
  rewrite IH. symmetry. apply IH.
Qed.

(** A relative [l] chain appends the running sums to the open subpath and
    leaves the current point on the last of them. *)
Lemma applyPairs_relative_L :
  forall numbers st first c cp,
    st_current st = Some c ->
    st_currentPoint st = Some cp ->
    Forall pair_ok (token_pairs numbers) ->
    let st' := fst (applyPairs "L" true numbers (st, first)) in
    st_subpaths st' = st_subpaths st
    /\ st_current st'
       = Some (mkSubpath (points c ++ accumulate cp (token_pairs numbers))
                         (closed c))
    /\ st_currentPoint st'
       = Some (last (accumulate cp (token_pairs numbers)) cp)
    /\ st_subpathStart st' = st_subpathStart st.
Proof.
  induction numbers as [|a|xt yt rest IH] using list_pair_ind;
    intros st first c cp Hc Hp Hok; cbn [token_pairs accumulate applyPairs fst].
  - rewrite app_nil_r. destruct c; auto.
  - rewrite app_nil_r. destruct c; auto.
  - cbn [token_pairs] in Hok. inversion Hok as [|d ds [Hx Hy] Hrest]; subst.
    cbn [fst snd] in Hx, Hy.
    set (next := mkPoint (add (parseFloat xt) (px cp))
                         (add (parseFloat yt) (py cp))).
    assert (Hstep : applyPair "L" true (st, first) xt yt
                    = (mkState (st_subpaths st)
                               (Some (mkSubpath (points c ++ [next]) (closed c)))
                               (Some next) (st_subpathStart st), false)).
    { unfold applyPair. rewrite Hx, Hy, Hp, Hc. reflexivity. }
    rewrite Hstep.
    specialize (IH (mkState (st_subpaths st)
                            (Some (mkSubpath (points c ++ [next]) (closed c)))
                            (Some next) (st_subpathStart st))
                   false (mkSubpath (points c ++ [next]) (closed c)) next
                   eq_refl eq_refl Hrest).
    cbn [st_subpaths st_current st_currentPoint st_subpathStart points closed]
      in IH.
    destruct IH as (H1 & H2 & H3 & H4).
    repeat split; auto.
    + rewrite H2. rewrite <- app_assoc. reflexivity.
    + rewrite H3. fold next. f_equal. symmetry. apply last_cons.
Qed.

(** After [Z] the current point is the anchor of the subpath, and the
    subpath is marked closed. *)
Lemma applyCommand_Z :
  forall st cmd data start,
    toUpperCase cmd = "Z"%char ->
    st_subpathStart st = Some start ->
    let st' := applyCommand st cmd data in
    st_currentPoint st' = Some start
    /\ st_current st'
       = option_map (fun c => mkSubpath (points c) true) (st_current st)
    /\ st_subpaths st' = st_subpaths st
    /\ st_subpathStart st' = Some start.
Proof.
  intros st cmd data start Hz Hs. unfold applyCommand.
  rewrite Hz. cbn. rewrite Hs. destruct (st_current st); auto.
Qed.

(** A relative [m] chain starts a new subpath at the first running sum and
    continues it with the following ones. *)
Lemma applyPairs_relative_M :
  forall xt yt rest st cp,
    st_currentPoint st = Some cp ->
    Forall pair_ok (token_pairs (xt :: yt :: rest)) ->
    let st' := fst (applyPairs "M" true (xt :: yt :: rest) (st, true)) in
    st_subpaths st' = st_subpaths (flushCurrent st)
    /\ st_current st'
       = Some (mkSubpath (accumulate cp (token_pairs (xt :: yt :: rest)))
                         false)
    /\ st_currentPoint st'
       = Some (last (accumulate cp (token_pairs (xt :: yt :: rest))) cp).
Proof.
  intros xt yt rest st cp Hp Hok.
  cbn [token_pairs] in Hok. inversion Hok as [|d ds [Hx Hy] Hrest]; subst.
  cbn [fst snd] in Hx, Hy.
  cbn [token_pairs accumulate applyPairs].
  set (next := mkPoint (add (parseFloat xt) (px cp))
                       (add (parseFloat yt) (py cp))).
  assert (Hstep : applyPair "M" true (st, true) xt yt
                  = (mkState (st_subpaths (flushCurrent st))
                             (Some (mkSubpath [next] false))
                             (Some next) (Some next), false)).
  { unfold applyPair. rewrite Hx, Hy, Hp. reflexivity. }
  rewrite Hstep.
  (* the rest of the chain behaves as a relative line chain: only the
     command letter differs, and [isFirstPair] is now false *)
  assert (Hrest' : forall numbers st0 c0 cp0,
             st_current st0 = Some c0 -> st_currentPoint st0 = Some cp0 ->
             Forall pair_ok (token_pairs numbers) ->
             applyPairs "M" true numbers (st0, false)
             = applyPairs "L" true numbers (st0, false)).
  { induction numbers as [|a|x0 y0 r IH] using list_pair_ind;
      intros st0 c0 cp0 Hc0 Hp0 Hk; try reflexivity.
    cbn [token_pairs] in Hk. inversion Hk as [|d ds [Hx0 Hy0] Hr]; subst.
    cbn [fst snd] in Hx0, Hy0. cbn [applyPairs].
    assert (E : applyPair "M" true (st0, false) x0 y0
                = applyPair "L" true (st0, false) x0 y0).
    { unfold applyPair. rewrite Hx0, Hy0, Hp0, Hc0. reflexivity. }
    rewrite E. unfold applyPair at 1 2. rewrite Hx0, Hy0, Hp0, Hc0.
    cbn [orb]. cbn -[add].
    eapply IH; [reflexivity | reflexivity | assumption]. }
  rewrite (Hrest' rest
             (mkState (st_subpaths (flushCurrent st))
                      (Some (mkSubpath [next] false))
                      (Some next) (Some next))
             (mkSubpath [next] false) next eq_refl eq_refl Hrest).
  destruct (applyPairs_relative_L rest
              (mkState (st_subpaths (flushCurrent st))
                       (Some (mkSubpath [next] false))
                       (Some next) (Some next))
              false (mkSubpath [next] false) next eq_refl eq_refl Hrest)
    as (H1 & H2 & H3 & _).
  cbn [st_subpaths points closed] in H1, H2.
  repeat split; auto.
  rewrite H3. fold next. f_equal. symmetry. apply last_cons.
Qed.

(** C7.  The literal example: [M0 0L1 0L1 1L0 1Z] parses to one closed
    subpath with the points (0,0), (1,0), (1,1), (0,1) in this order, and
    serializing that result gives [M0 0 L1 0 L1 1 L0 1 Z]. *)
Theorem parse_serialize_square :
  parsePathData "M0 0L1 0L1 1L0 1Z"
  = [mkSubpath [P 0 0; P 1 0; P 1 1; P 0 1] true]
  /\ serializeSubpaths (parsePathData "M0 0L1 0L1 1L0 1Z")
     = "M0 0 L1 0 L1 1 L0 1 Z"%string.
Proof. split; vm_compute; reflexivity. Qed.

Lemma token_pairs_short :
  forall numbers, (List.length numbers < 2)%nat -> token_pairs numbers = [].
Proof.
  intros [|a [|b l]] H; try reflexivity. cbn in H. lia.
Qed.

Lemma applyCommand_l :
  forall st data c cp,
    st_current st = Some c ->
    st_currentPoint st = Some cp ->
    Forall pair_ok (token_pairs (match_numbers data)) ->
    let st' := applyCommand st "l" data in
    st_subpaths st' = st_subpaths st
    /\ st_current st'
       = Some (mkSubpath
                 (points c ++ accumulate cp (token_pairs (match_numbers data)))
                 (closed c))
    /\ st_currentPoint st'
       = Some (last (accumulate cp (token_pairs (match_numbers data))) cp).
Proof.
  intros st data c cp Hc Hp Hok. unfold applyCommand.
  change (ascii_eqb (toUpperCase "l") "Z") with false.
  change (toUpperCase "l") with "L"%char.
  change (ascii_eqb "l" (toLowerCase "l")) with true.
  cbv iota. cbv zeta.
  destruct (Nat.ltb_spec (List.length (match_numbers data)) 2) as [Hlt|Hge].
  - rewrite (token_pairs_short _ Hlt). cbn [accumulate last].
    rewrite app_nil_r. destruct c; auto.
  - destruct (applyPairs_relative_L _ st true c cp Hc Hp Hok)
      as (H1 & H2 & H3 & _). auto.
Qed.

Lemma applyCommand_m :
  forall st data cp,
    st_currentPoint st = Some cp ->
    token_pairs (match_numbers data) <> [] ->
    Forall pair_ok (token_pairs (match_numbers data)) ->
    let st' := applyCommand st "m" data in
    st_subpaths st' = st_subpaths (flushCurrent st)
    /\ st_current st'
       = Some (mkSubpath (accumulate cp (token_pairs (match_numbers data)))
                         false)
    /\ st_currentPoint st'
       = Some (last (accumulate cp (token_pairs (match_numbers data))) cp).
Proof.
  intros st data cp Hp Hne Hok. unfold applyCommand.
  change (ascii_eqb (toUpperCase "m") "Z") with false.
  change (toUpperCase "m") with "M"%char.
  change (ascii_eqb "m" (toLowerCase "m")) with true.
  cbv iota. cbv zeta.
  destruct (match_numbers data) as [|xt [|yt rest]] eqn:E;
    try (exfalso; apply Hne; reflexivity).
  change (List.length (xt :: yt :: rest) <? 2)%nat with false. cbv iota.
  apply applyPairs_relative_M; assumption.
Qed.

(** C8.  Relative commands accumulate: the pairs of a relative [l] or [m]
    command are added, one after the other, onto the most recently resolved
    point, so the points of the chain are running sums; [M0 0l1 0l0 1]
    gives one open subpath with the points (0,0), (1,0), (1,1); and [Z]
    puts the current point back on the anchor of the subpath, so that a
    relative command after it continues from there. *)
Theorem relative_commands_accumulate :
  (forall st data c cp,
      st_current st = Some c ->
      st_currentPoint st = Some cp ->
      Forall pair_ok (token_pairs (match_numbers data)) ->
      let st' := applyCommand st "l" data in
      st_current st'
      = Some (mkSubpath
                (points c ++ accumulate cp (token_pairs (match_numbers data)))
                (closed c))
      /\ st_currentPoint st'
         = Some (last (accumulate cp (token_pairs (match_numbers data))) cp))
  /\ (forall st data cp,
        st_currentPoint st = Some cp ->
        token_pairs (match_numbers data) <> [] ->
        Forall pair_ok (token_pairs (match_numbers data)) ->
        let st' := applyCommand st "m" data in
        st_subpaths st' = st_subpaths (flushCurrent st)
        /\ st_current st'
           = Some (mkSubpath
                     (accumulate cp (token_pairs (match_numbers data))) false)
        /\ st_currentPoint st'
           = Some (last (accumulate cp (token_pairs (match_numbers data))) cp))
  /\ parsePathData "M0 0l1 0l0 1" = [mkSubpath [P 0 0; P 1 0; P 1 1] false]
  /\ (forall st cmd data start,
        toUpperCase cmd = "Z"%char ->
        st_subpathStart st = Some start ->
        let st' := applyCommand st cmd data in
        st_currentPoint st' = Some start
        /\ st_current st'
           = option_map (fun c => mkSubpath (points c) true) (st_current st))
  /\ parsePathData "M1 1L2 1Zl1 1"
     = [mkSubpath [P 1 1; P 2 1; P 2 2] true].
Proof.
  split; [|split; [|split; [|split]]].
  - intros st data c cp Hc Hp Hok.
    destruct (applyCommand_l st data c cp Hc Hp Hok) as (_ & H2 & H3); auto.
  - intros st data cp Hp Hne Hok. apply applyCommand_m; assumption.
  - vm_compute. reflexivity.
  - intros st cmd data start Hz Hs.
    destruct (applyCommand_Z st cmd data start Hz Hs) as (H1 & H2 & _); auto.
  - vm_compute. reflexivity.
Qed.

Definition st_after_M00 : ParseState :=
  mkState [] (Some (mkSubpath [P 0 0] false)) (Some (P 0 0)) (Some (P 0 0)).

Lemma relative_commands_accumulate_witness :
  st_current (applyCommand st_after_M00 "l" (text "1 0 0 1"))
  = Some (mkSubpath [P 0 0; P 1 0; P 1 1] false)
  /\ st_current (applyCommand st_after_M00 "m" (text "2 3 1 1"))
     = Some (mkSubpath [P 2 3; P 3 4] false)
  /\ st_currentPoint (applyCommand st_after_M00 "Z" (text " "))
     = Some (P 0 0).
Proof.
  destruct relative_commands_accumulate as (Hl & Hm & _ & Hz & _).
  split; [|split].
  - refine (proj1 (Hl st_after_M00 (text "1 0 0 1")
                      (mkSubpath [P 0 0] false) (P 0 0) eq_refl eq_refl _)).
    vm_compute. repeat constructor.
  - refine (proj1 (proj2 (Hm st_after_M00 (text "2 3 1 1") (P 0 0)
                             eq_refl _ _))).
    + vm_compute. discriminate.
    + vm_compute. repeat constructor.
  - exact (proj1 (Hz st_after_M00 "Z"%char (text " ") (P 0 0)
                     eq_refl eq_refl)).
Defined.

(** After the first pair of a relative [m] command, the remaining pairs go
    through the same branch as those of a relative [l]. *)
Lemma applyPairs_M_after_first :
  forall numbers st c cp,
    st_current st = Some c -> st_currentPoint st = Some cp ->
    Forall pair_ok (token_pairs numbers) ->
    applyPairs "M" true numbers (st, false)
    = applyPairs "L" true numbers (st, false).
Proof.
  induction numbers as [|a|x0 y0 r IH] using list_pair_ind;
    intros st c cp Hc Hp Hk; try reflexivity.
  cbn [token_pairs] in Hk. inversion Hk as [|d ds [Hx0 Hy0] Hr]; subst.
  cbn [fst snd] in Hx0, Hy0. cbn [applyPairs].
  assert (E : applyPair "M" true (st, false) x0 y0
              = applyPair "L" true (st, false) x0 y0).
  { unfold applyPair. rewrite Hx0, Hy0, Hp, Hc. reflexivity. }
  rewrite E. unfold applyPair at 1 2. rewrite Hx0, Hy0, Hp, Hc.
  cbn [orb]. cbn -[add].
  eapply IH; [reflexivity | reflexivity | assumption].
Qed.

(** With no current point yet, the first pair of a relative command is
    taken as it is, and the chain continues from it. *)
Lemma applyPairs_relative_first :
  forall command xt yt rest st,
    command = "L"%char \/ command = "M"%char ->
    st_current st = None ->
    st_currentPoint st = None ->
    Forall pair_ok (token_pairs (xt :: yt :: rest)) ->
    let first := mkPoint (parseFloat xt) (parseFloat yt) in
    let st' := fst (applyPairs command true (xt :: yt :: rest) (st, true)) in
    st_subpaths st' = st_subpaths st
    /\ st_current st'
       = Some (mkSubpath (first :: accumulate first (token_pairs rest)) false)
    /\ st_currentPoint st'
       = Some (last (accumulate first (token_pairs rest)) first).
Proof.
  intros command xt yt rest st Hcmd Hc Hp Hok first.
  cbn [token_pairs] in Hok. inversion Hok as [|d ds [Hx Hy] Hrest]; subst d ds.
  cbn [fst snd] in Hx, Hy. cbn [applyPairs].
  assert (Hstep : applyPair command true (st, true) xt yt
                  = (mkState (st_subpaths st)
                             (Some (mkSubpath [first] false))
                             (Some first) (Some first), false)).
  { unfold applyPair. rewrite Hx, Hy, Hp.
    destruct Hcmd as [-> | ->]; cbn -[parseFloat].
    - rewrite Hc. reflexivity.
    - unfold flushCurrent. rewrite Hc. reflexivity. }
  rewrite Hstep.
  assert (E : applyPairs command true rest
                (mkState (st_subpaths st) (Some (mkSubpath [first] false))
                         (Some first) (Some first), false)
              = applyPairs "L" true rest
                  (mkState (st_subpaths st) (Some (mkSubpath [first] false))
                           (Some first) (Some first), false)).
  { destruct Hcmd as [-> | ->]; [reflexivity|].
    eapply applyPairs_M_after_first; [reflexivity | reflexivity | assumption]. }
  rewrite E.
  destruct (applyPairs_relative_L rest
              (mkState (st_subpaths st) (Some (mkSubpath [first] false))
                       (Some first) (Some first))
              false (mkSubpath [first] false) first eq_refl eq_refl Hrest)
    as (H1 & H2 & H3 & _).
  cbn [st_subpaths points closed app] in H1, H2. auto.
Qed.

(** C10.  A path whose first drawing command is relative: with no current
    point resolved yet, the first pair of a relative [m] or [l] is taken as
    absolute coordinates, and the following pairs accumulate from it; for
    example [l1 2l3 4] gives the points (1,2) and (4,6). *)
Theorem leading_relative_is_absolute :
  (forall cmd data xt yt rest st,
      cmd = "l"%char \/ cmd = "m"%char ->
      st_current st = None ->
      st_currentPoint st = None ->
      match_numbers data = xt :: yt :: rest ->
      Forall pair_ok (token_pairs (xt :: yt :: rest)) ->
      let first := mkPoint (parseFloat xt) (parseFloat yt) in
      let st' := applyCommand st cmd data in
      st_subpaths st' = st_subpaths st
      /\ st_current st'
         = Some (mkSubpath (first :: accumulate first (token_pairs rest))
                           false)
      /\ st_currentPoint st'
         = Some (last (accumulate first (token_pairs rest)) first))
  /\ parsePathData "l1 2l3 4" = [mkSubpath [P 1 2; P 4 6] false]
  /\ parsePathData "m1 2 3 4" = [mkSubpath [P 1 2; P 4 6] false].
Proof.
  split; [|split; vm_compute; reflexivity].
  intros cmd data xt yt rest st Hcmd Hc Hp Hnum Hok first.
  unfold applyCommand. rewrite Hnum.
  change (List.length (xt :: yt :: rest) <? 2)%nat with false.
  destruct Hcmd as [-> | ->].
  - change (ascii_eqb (toUpperCase "l") "Z") with false.
    change (toUpperCase "l") with "L"%char.
    change (ascii_eqb "l" (toLowerCase "l")) with true.
    cbv iota. apply applyPairs_relative_first; auto.
  - change (ascii_eqb (toUpperCase "m") "Z") with false.
    change (toUpperCase "m") with "M"%char.
    change (ascii_eqb "m" (toLowerCase "m")) with true.
    cbv iota. apply applyPairs_relative_first; auto.
Qed.

Lemma leading_relative_is_absolute_witness :
  st_current (applyCommand initState "l" (text "1 2 3 4"))
  = Some (mkSubpath [P 1 2; P 4 6] false).
Proof.
  refine (proj1 (proj2 (proj1 leading_relative_is_absolute
                          "l"%char (text "1 2 3 4")
                          (text "1") (text "2") [text "3"; text "4"]
                          initState (or_introl eq_refl) eq_refl eq_refl
                          _ _))).
  - vm_compute. reflexivity.
  - vm_compute. repeat constructor.
Defined.

(* ================================================================== *)
(** ** Decimal digits *)
(* ================================================================== *)

Section Digits.

Local Open Scope N_scope.

Definition dv_step (acc : N) (c : ascii) : N := 10 * acc + digit_val c.

Lemma digits_value_fold :
  forall ds, digits_value ds = fold_left dv_step ds 0.
Proof. reflexivity. Qed.

Lemma digit_val_char : forall d, d < 10 -> digit_val (digit_char d) = d.
Proof.
  intros d H. unfold digit_val, digit_char.
  rewrite nat_ascii_embedding by lia. lia.
Qed.

Lemma is_digit_char : forall d, d < 10 -> is_digit (digit_char d) = true.
Proof.
  intros d H. unfold is_digit, digit_char.
  rewrite nat_ascii_embedding by lia.
  apply andb_true_intro; split; apply Nat.leb_le; lia.
Qed.

Lemma digit_val_lt : forall c, is_digit c = true -> digit_val c < 10.
Proof.
  intros c H. unfold is_digit in H. apply andb_prop in H as [H1 H2].
  apply Nat.leb_le in H1, H2. unfold digit_val. lia.
Qed.

Lemma fold_dv_app :
  forall a b acc,
    fold_left dv_step (a ++ b) acc = fold_left dv_step b (fold_left dv_step a acc).
Proof. intros. apply fold_left_app. Qed.

Lemma fold_dv_shift :
  forall ds acc,
    fold_left dv_step ds acc
    = acc * 10 ^ N.of_nat (List.length ds) + fold_left dv_step ds 0.
Proof.
  induction ds as [|c ds IH]; intros acc.
  - cbn. lia.
  - cbn [fold_left List.length]. rewrite IH. rewrite (IH (dv_step 0 c)).
    unfold dv_step. rewrite Nat2N.inj_succ, N.pow_succ_r'. lia.
Qed.

Lemma digits_value_app :
  forall a b,
    digits_value (a ++ b)
    = digits_value a * 10 ^ N.of_nat (List.length b) + digits_value b.
Proof.
  intros a b. rewrite !digits_value_fold, fold_dv_app. apply fold_dv_shift.
Qed.

Lemma digits_value_cons :
  forall c ds,
    digits_value (c :: ds)
    = digit_val c * 10 ^ N.of_nat (List.length ds) + digits_value ds.
Proof.
  intros c ds. change (c :: ds) with ([c] ++ ds). rewrite digits_value_app.
  cbn. lia.
Qed.

Lemma digits_aux_value :
  forall fuel n acc,
    n < 2 ^ N.of_nat fuel ->
    fold_left dv_step (digits_aux fuel n acc) 0 = fold_left dv_step acc n.
Proof.
  induction fuel as [|f IH]; intros n acc Hn.
  - cbn in Hn. assert (n = 0) by lia. subst. reflexivity.
  - cbn [digits_aux].
    assert (Hmod : n mod 10 < 10) by (apply N.mod_lt; lia).
    assert (Hdiv : n = 10 * (n / 10) + n mod 10) by (apply N.div_mod; lia).
    destruct (N.eqb_spec (n / 10) 0) as [E|E].
    + cbn [fold_left]. unfold dv_step at 2.
      rewrite digit_val_char by assumption.
      f_equal. lia.
    + rewrite IH.
      * cbn [fold_left]. unfold dv_step at 2.
        rewrite digit_val_char by assumption. f_equal. lia.
      * rewrite Nat2N.inj_succ, N.pow_succ_r' in Hn.
        apply N.Div0.div_lt_upper_bound. lia.
Qed.

Lemma N_lt_pow2_log2 : forall n, n < 2 ^ N.of_nat (S (N.to_nat (N.log2 n))).
Proof.
  intros n. rewrite Nat2N.inj_succ, N2Nat.id.
  destruct n as [|p]; [cbn; lia|].
  apply N.log2_spec. lia.
Qed.

Lemma N_digits_value : forall n, digits_value (N_digits n) = n.
Proof.
  intros n. unfold N_digits. rewrite digits_value_fold.
  rewrite digits_aux_value by apply N_lt_pow2_log2. reflexivity.
Qed.

Lemma digits_aux_digits :
  forall fuel n acc,
    Forall (fun c => is_digit c = true) acc ->
    Forall (fun c => is_digit c = true) (digits_aux fuel n acc).
Proof.
  induction fuel as [|f IH]; intros n acc Hacc; [exact Hacc|].
  cbn [digits_aux].
  assert (Hd : is_digit (digit_char (n mod 10)) = true).
  { apply is_digit_char. apply N.mod_lt. lia. }
  destruct (n / 10 =? 0); [|apply IH]; constructor; assumption.
Qed.

Lemma N_digits_digits :
  forall n, Forall (fun c => is_digit c = true) (N_digits n).
Proof. intros n. apply digits_aux_digits. constructor. Qed.

Lemma digits_aux_nonempty :
  forall fuel n acc, acc <> [] -> digits_aux fuel n acc <> [].
Proof.
  induction fuel as [|f IH]; intros n acc Hacc; [exact Hacc|].
  cbn [digits_aux]. destruct (n / 10 =? 0); [|apply IH]; discriminate.
Qed.

Lemma N_digits_nonempty : forall n, N_digits n <> [].
Proof.
  intros n. unfold N_digits. cbn [digits_aux].
  destruct (n / 10 =? 0); [|apply digits_aux_nonempty]; discriminate.
Qed.

Lemma zeros_digits : forall k, Forall (fun c => is_digit c = true) (zeros k).
Proof. induction k; cbn; constructor; auto. Qed.

Lemma zeros_value : forall k ds, digits_value (zeros k ++ ds) = digits_value ds.
Proof.
  induction k as [|k IH]; intros ds; [reflexivity|].
  cbn [zeros app]. rewrite digits_value_cons.
  change (digit_val "0") with 0. rewrite IH. lia.
Qed.

Lemma zeros_length : forall k, List.length (zeros k) = k.
Proof. induction k; cbn; congruence. Qed.

End Digits.

(** The run of digits at the head of a text is the whole of [ds] when the
    text continues with something that is not a digit. *)
Definition no_digit_head (s : list ascii) : Prop :=
  match s with
  | [] => True
  | c :: _ => is_digit c = false
  end.

Lemma span_digits_app :
  forall ds rest,
    Forall (fun c => is_digit c = true) ds ->
    no_digit_head rest ->
    span_digits (ds ++ rest) = (ds, rest).
Proof.
  induction ds as [|c ds IH]; intros rest Hds Hrest.
  - destruct rest as [|c r]; [reflexivity|]. cbn in *. rewrite Hrest.
    reflexivity.
  - inversion Hds; subst. cbn [app span_digits]. rewrite H1.
    rewrite IH by assumption. reflexivity.
Qed.
(* ================================================================== *)
(** ** Number to text and back *)
(* ================================================================== *)

Lemma Qltb_true : forall a b, Qltb a b = true <-> a < b.
Proof.
  intros a b. unfold Qltb. rewrite negb_true_iff.
  split; intros H.
  - apply Qnot_le_lt. intros Hle. apply Qle_bool_iff in Hle. congruence.
  - destruct (Qle_bool b a) eqn:E; [|reflexivity].
    apply Qle_bool_iff in E. exfalso. apply (Qlt_not_le _ _ H E).
Qed.

Lemma Qltb_false : forall a b, Qltb a b = false <-> b <= a.
Proof.
  intros a b. unfold Qltb. rewrite negb_false_iff. apply Qle_bool_iff.
Qed.

Lemma Qle_bool_false : forall a b, Qle_bool a b = false <-> b < a.
Proof.
  intros a b. split; intros H.
  - apply Qnot_le_lt. intros Hle. apply Qle_bool_iff in Hle. congruence.
  - destruct (Qle_bool a b) eqn:E; [|reflexivity].
    apply Qle_bool_iff in E. exfalso. apply (Qlt_not_le _ _ H E).
Qed.

(** Closed comparisons of rationals, settled by computation. *)
Ltac closed_Qle := apply Qle_bool_iff; vm_compute; reflexivity.
Ltac closed_Qlt := apply Qltb_true; vm_compute; reflexivity.

Lemma Qltb_comp : forall a a' b b', a == a' -> b == b' -> Qltb a b = Qltb a' b'.
Proof. intros a a' b b' Ha Hb. unfold Qltb. rewrite Ha, Hb. reflexivity. Qed.

Lemma frac_digits_ext :
  forall fuel r r', r == r' -> frac_digits fuel r = frac_digits fuel r'.
Proof.
  induction fuel as [|f IH]; intros r r' E; [reflexivity|].
  cbn [frac_digits]. rewrite E at 1.
  destruct (Qeq_bool r' 0); [reflexivity|].
  assert (Ef : Qfloor (Q10 * r) = Qfloor (Q10 * r')) by (rewrite E; reflexivity).
  rewrite Ef. f_equal. apply IH. rewrite E. reflexivity.
Qed.

Lemma pos_toString_ext : forall a b, a == b -> pos_toString a = pos_toString b.
Proof.
  intros a b E. unfold pos_toString.
  assert (Ef : Qfloor a = Qfloor b) by (rewrite E; reflexivity).
  rewrite Ef.
  rewrite (frac_digits_ext frac_fuel (Qred (a - inject_Z (Qfloor b)))
                           (Qred (b - inject_Z (Qfloor b))))
    by (rewrite E; reflexivity).
  rewrite E at 1. rewrite E at 1. reflexivity.
Qed.

Lemma Number_toString_ext :
  forall p q, p == q -> Number_toString (Fin p) = Number_toString (Fin q).
Proof.
  intros p q E. cbn [Number_toString].
  rewrite E at 1. rewrite (Qltb_comp p q 0 0 E (Qeq_refl 0)).
  rewrite (pos_toString_ext p q E).
  rewrite (pos_toString_ext (Qabs p) (Qabs q)) by (rewrite E; reflexivity).
  reflexivity.
Qed.

Definition zpow10 (k : nat) : Z := (10 ^ Z.of_nat k)%Z.

Lemma zpow10_pos : forall k, (0 < zpow10 k)%Z.
Proof. intros k. unfold zpow10. apply Z.pow_pos_nonneg; lia. Qed.

Lemma zpow10_S : forall k, zpow10 (S k) = (10 * zpow10 k)%Z.
Proof.
  intros k. unfold zpow10. rewrite Nat2Z.inj_succ, Z.pow_succ_r by lia.
  reflexivity.
Qed.

(** A decimal fraction [m / 10^k] as a rational. *)
Definition decfrac (m : Z) (k : nat) : Q := inject_Z m / inject_Z (zpow10 k).

Lemma inject_zpow10_nonzero : forall k, ~ inject_Z (zpow10 k) == 0.
Proof.
  intros k H. pose proof (zpow10_pos k).
  unfold Qeq in H. cbn in H. lia.
Qed.

Lemma decfrac_floor : forall m k, Qfloor (decfrac m k) = (m / zpow10 k)%Z.
Proof. intros m k. unfold decfrac. symmetry. apply Zdiv_Qdiv. Qed.

Lemma decfrac_S : forall m k, Q10 * decfrac m (S k) == decfrac m k.
Proof.
  intros m k. unfold decfrac. rewrite zpow10_S.
  rewrite inject_Z_mult. change (inject_Z 10) with Q10.
  pose proof (inject_zpow10_nonzero k).
  field. split; [assumption | discriminate].
Qed.

Lemma decfrac_sub_floor :
  forall m k,
    decfrac m k - inject_Z (m / zpow10 k) == decfrac (m mod zpow10 k) k.
Proof.
  intros m k. unfold decfrac.
  pose proof (zpow10_pos k) as Hp.
  pose proof (inject_zpow10_nonzero k) as Hn.
  rewrite (Z.div_mod m (zpow10 k)) at 1 by lia.
  rewrite inject_Z_plus, inject_Z_mult. field. assumption.
Qed.

Lemma decfrac_zero_iff : forall m k, decfrac m k == 0 <-> m = 0%Z.
Proof.
  intros m k. unfold decfrac. pose proof (inject_zpow10_nonzero k) as Hn.
  split; intros H.
  - assert (E : inject_Z m == 0).
    { rewrite <- (Qmult_div_r (inject_Z m) _ Hn).
      setoid_rewrite H. ring. }
    unfold Qeq in E. cbn in E. lia.
  - subst. unfold Qdiv. ring.
Qed.

(** The digits after the point of [m / 10^k]: at most [k] of them, and
    they spell [m] once padded on the right to [k] places. *)
Lemma frac_digits_spec :
  forall k fuel m r,
    (k <= fuel)%nat ->
    (0 <= m < zpow10 k)%Z ->
    r == decfrac m k ->
    let ds := frac_digits fuel r in
    Forall (fun c => is_digit c = true) ds
    /\ (List.length ds <= k)%nat
    /\ (Z.of_N (digits_value ds) * zpow10 (k - List.length ds) = m)%Z
    /\ (ds = [] <-> m = 0%Z).
Proof.
  induction k as [|k IH]; intros fuel m r Hfuel Hm Hr.
  - assert (m = 0%Z) by (unfold zpow10 in Hm; cbn in Hm; lia). subst m.
    assert (Hr0 : r == 0) by (rewrite Hr; apply decfrac_zero_iff; reflexivity).
    assert (E : frac_digits fuel r = []).
    { destruct fuel; [reflexivity|]. cbn [frac_digits].
      apply Qeq_bool_iff in Hr0. rewrite Hr0. reflexivity. }
    cbv zeta. rewrite E. cbn. repeat split; auto.
  - destruct fuel as [|f]; [lia|]. cbv zeta. cbn [frac_digits].
    destruct (Qeq_bool r 0) eqn:E0.
    + apply Qeq_bool_iff in E0. rewrite Hr in E0.
      apply decfrac_zero_iff in E0. subst m.
      split; [constructor|]. split; [cbn; lia|].
      split; [reflexivity|]. split; reflexivity.
    + assert (Hne : m <> 0%Z).
      { intros ->. assert (r == 0) as Hz by (rewrite Hr; apply decfrac_zero_iff; reflexivity).
        apply Qeq_bool_iff in Hz. congruence. }
      assert (E10 : Q10 * r == decfrac m k) by (rewrite Hr; apply decfrac_S).
      assert (Ed : Qfloor (Q10 * r) = (m / zpow10 k)%Z).
      { rewrite E10. apply decfrac_floor. }
      rewrite Ed.
      pose proof (zpow10_pos k) as Hp.
      rewrite zpow10_S in Hm.
      assert (Hd : (0 <= m / zpow10 k < 10)%Z).
      { split; [apply Z.div_pos; lia|].
        apply Z.div_lt_upper_bound; lia. }
      assert (Hm' : (0 <= m mod zpow10 k < zpow10 k)%Z)
        by (apply Z.mod_pos_bound; lia).
      specialize (IH f (m mod zpow10 k)%Z
                     (Qred (Q10 * r - inject_Z (m / zpow10 k)))
                     ltac:(lia) Hm').
      assert (Er : Qred (Q10 * r - inject_Z (m / zpow10 k))
                   == decfrac (m mod zpow10 k) k).
      { rewrite Qred_correct, E10. apply decfrac_sub_floor. }
      specialize (IH Er). cbv zeta in IH.
      set (ds := frac_digits f (Qred (Q10 * r - inject_Z (m / zpow10 k)))) in *.
      destruct IH as (Hdig & Hlen & Hval & _).
      repeat split.
      * constructor; [|assumption]. apply is_digit_char. lia.
      * cbn [List.length]. lia.
      * cbn [List.length]. rewrite digits_value_cons.
        rewrite digit_val_char by lia.
        replace (S k - S (List.length ds))%nat with (k - List.length ds)%nat
          by lia.
        rewrite N2Z.inj_add, N2Z.inj_mul, N2Z.inj_pow, Z2N.id by lia.
        rewrite nat_N_Z. change (Z.of_N 10) with 10%Z.
        rewrite Z.mul_add_distr_r, Hval.
        rewrite <- Z.mul_assoc.
        assert (Hpow : (10 ^ Z.of_nat (List.length ds)
                        * zpow10 (k - List.length ds) = zpow10 k)%Z).
        { unfold zpow10. rewrite <- Z.pow_add_r by lia. f_equal. lia. }
        rewrite Hpow.
        rewrite (Z.div_mod m (zpow10 k)) at 3 by lia. lia.
      * discriminate.
      * intros; contradiction.
Qed.

(** *** Scanning a plain decimal *)

Definition digits (ds : list ascii) : Prop :=
  Forall (fun c => is_digit c = true) ds.

(** What may follow a number so that the scan stops exactly there. *)
Definition token_end (rest : list ascii) : Prop :=
  match rest with
  | [] => True
  | c :: _ =>
      is_digit c = false /\ ascii_eqb c "." = false
      /\ ascii_eqb c "e" = false /\ ascii_eqb c "E" = false
  end.

Definition sign_text (neg : bool) : list ascii :=
  if neg then ["-"%char] else [].

Definition frac_text (fds : list ascii) : list ascii :=
  if is_nil fds then [] else "."%char :: fds.

(** The text of a decimal without exponent. *)
Definition decimal_text (neg : bool) (ids fds : list ascii) : list ascii :=
  sign_text neg ++ ids ++ frac_text fds.

Lemma digit_not_sign :
  forall c, is_digit c = true ->
            ascii_eqb c "+" = false /\ ascii_eqb c "-" = false
            /\ ascii_eqb c "." = false.
Proof.
  intros c H. unfold ascii_eqb.
  repeat split; apply Ascii.eqb_neq; intros ->; discriminate.
Qed.

Lemma scan_number_decimal :
  forall neg ids fds rest,
    ids <> [] -> digits ids -> digits fds -> token_end rest ->
    scan_number (decimal_text neg ids fds ++ rest)
    = Some (mkLit neg ids fds None, rest).
Proof.
  intros neg ids fds rest Hne Hids Hfds Hend.
  unfold decimal_text, scan_number.
  assert (Hsign : scan_sign ((sign_text neg ++ ids ++ frac_text fds) ++ rest)
                  = (neg, ids ++ frac_text fds ++ rest)).
  { destruct neg; cbn [sign_text app].
    - rewrite <- app_assoc. reflexivity.
    - rewrite <- app_assoc.
      destruct ids as [|c ids']; [contradiction|].
      inversion Hids; subst.
      destruct (digit_not_sign c H1) as (Hp & Hm & _).
      cbn [app scan_sign]. rewrite Hp, Hm. reflexivity. }
  rewrite Hsign.
  assert (Hrest_nd : no_digit_head rest).
  { destruct rest; cbn in *; tauto. }
  assert (Hex : scan_exponent rest = (None, rest)).
  { destruct rest as [|c r]; [reflexivity|].
    cbn in Hend. destruct Hend as (_ & _ & He & HE).
    cbn [scan_exponent]. rewrite He, HE. reflexivity. }
  unfold scan_mantissa.
  assert (Hnil : is_nil ids = false) by (destruct ids; [contradiction|reflexivity]).
  destruct fds as [|f fds'].
  - cbn [frac_text is_nil app].
    rewrite (span_digits_app ids rest Hids Hrest_nd). rewrite Hnil. cbn [negb].
    destruct rest as [|c r].
    + reflexivity.
    + cbn in Hend. destruct Hend as (_ & Hdot & _).
      rewrite Hdot. rewrite Hex. reflexivity.
  - cbn [frac_text is_nil app].
    rewrite (span_digits_app ids ("."%char :: f :: fds' ++ rest) Hids eq_refl).
    change (ascii_eqb "." ".") with true. cbv iota.
    change (f :: fds' ++ rest) with ((f :: fds') ++ rest).
    rewrite (span_digits_app (f :: fds') rest Hfds Hrest_nd).
    cbn [is_nil negb]. rewrite Hex. reflexivity.
Qed.

(** Rounding to six decimals, half away from zero, as [toFixed(6)] does
    it: [scaled6 q] is the rounded value counted in millionths. *)
Definition scaled6 (q : Q) : Z :=
  let n := Z.of_N (round_scaled (Qabs q)) in
  if Qltb q 0 then (- n)%Z else n.

Definition round6 (q : Q) : Q := Qred (decfrac (scaled6 q) 6).

(** The finite values for which [toFixed] keeps fixed notation and the
    rounded value stays below 10^21. *)
Definition small (q : Q) : Prop := Qabs q <= inject_Z (10 ^ 21 - 1).

Lemma round_scaled_nonneg :
  forall a, 0 <= a -> (0 <= Qfloor (a * inject_Z (10 ^ 6) + (1 # 2)))%Z.
Proof.
  intros a Ha.
  assert (H : inject_Z 0 <= a * inject_Z (10 ^ 6) + (1 # 2)).
  { change (inject_Z 0) with 0.
    assert (0 <= a * inject_Z (10 ^ 6)).
    { apply Qmult_le_0_compat; [assumption | closed_Qle]. }
    lra. }
  apply Qfloor_resp_le in H. rewrite Qfloor_Z in H. exact H.
Qed.

Lemma round_scaled_small :
  forall q, small q -> (Z.of_N (round_scaled (Qabs q)) < 10 ^ 27)%Z.
Proof.
  intros q Hs. unfold round_scaled.
  rewrite Z2N.id by (apply round_scaled_nonneg, Qabs_nonneg).
  assert (H : Qabs q * inject_Z (10 ^ 6) + (1 # 2) < inject_Z (10 ^ 27)).
  { unfold small in Hs.
    assert (Qabs q * inject_Z (10 ^ 6)
            <= inject_Z (10 ^ 21 - 1) * inject_Z (10 ^ 6)).
    { apply Qmult_le_compat_r; [assumption | closed_Qle]. }
    assert (E : inject_Z (10 ^ 21 - 1) * inject_Z (10 ^ 6) + (1 # 2)
                < inject_Z (10 ^ 27)).
    { closed_Qlt. }
    lra. }
  destruct (Z.lt_ge_cases (Qfloor (Qabs q * inject_Z (10 ^ 6) + (1 # 2)))
                          (10 ^ 27)) as [Hlt|Hge]; [exact Hlt|].
  exfalso.
  pose proof (Qfloor_le (Qabs q * inject_Z (10 ^ 6) + (1 # 2))) as Hfl.
  assert (inject_Z (10 ^ 27)
          <= inject_Z (Qfloor (Qabs q * inject_Z (10 ^ 6) + (1 # 2)))).
  { rewrite <- Zle_Qle. exact Hge. }
  lra.
Qed.

Lemma small_lt_E21 : forall q, small q -> Qle_bool E21 (Qabs q) = false.
Proof.
  intros q Hs. apply Qle_bool_false. unfold small in Hs.
  assert (inject_Z (10 ^ 21 - 1) < E21) by closed_Qlt.
  lra.
Qed.

Lemma pow10_m6 : forall z, inject_Z z * pow10 (-6) == decfrac z 6.
Proof. intros z. unfold decfrac, Qdiv. reflexivity. Qed.

Lemma decfrac_opp : forall z k, - decfrac z k == decfrac (- z) k.
Proof.
  intros z k. unfold decfrac. rewrite inject_Z_opp.
  pose proof (inject_zpow10_nonzero k). field. assumption.
Qed.

(** The value of a literal without exponent whose digits spell [n] with
    [k] of them after the point. *)
Lemma lit_value_decimal :
  forall neg ids fds,
    lit_value (mkLit neg ids fds None)
    = Qred (decfrac (if neg then - Z.of_N (digits_value (ids ++ fds))
                     else Z.of_N (digits_value (ids ++ fds)))
                    (List.length fds)).
Proof.
  intros neg ids fds. unfold lit_value.
  cbn [lit_neg lit_int lit_frac lit_exp].
  apply Qred_complete.
  set (m := Z.of_N (digits_value (ids ++ fds))).
  assert (E : inject_Z m * pow10 (0 - Z.of_nat (List.length fds))
              == decfrac m (List.length fds)).
  { unfold decfrac, zpow10.
    destruct (List.length fds) as [|k] eqn:El.
    - cbn. unfold Qdiv. field.
    - change (0 - Z.of_nat (S k))%Z with (- Z.of_nat (S k))%Z.
      rewrite <- El. clear El.
      assert (Hp : (0 < Z.of_nat (List.length fds))%Z \/ List.length fds = O)
        by lia.
      destruct Hp as [Hp|Hp].
      + destruct (Z.of_nat (List.length fds)) as [|p|p] eqn:Ep; try lia.
        cbn [Z.opp pow10]. unfold Qdiv.
        assert (Epow : inject_Z (10 ^ Z.pos p) == inject_Z (Zpos (10 ^ p))).
        { rewrite Pos2Z.inj_pow. reflexivity. }
        rewrite Epow. reflexivity.
      + rewrite Hp. cbn. unfold Qdiv. field. }
  destruct neg.
  - rewrite E. apply decfrac_opp.
  - exact E.
Qed.

Lemma digits_firstn_skipn :
  forall cut ds, digits ds -> digits (firstn cut ds) /\ digits (skipn cut ds).
Proof.
  intros cut ds H. unfold digits in *.
  rewrite <- (firstn_skipn cut ds) in H. apply Forall_app in H. exact H.
Qed.

Lemma toFixed6_rounds_lt :
  forall q, Qle_bool E21 (Qabs q) = false ->
            Number_ofString (toFixed6 (Fin q)) = Fin (round6 q).
Proof.
  intros q Hs. unfold toFixed6. rewrite Hs.
  set (n := round_scaled (Qabs q)).
  set (m := N_digits n).
  set (m' := zeros (7 - List.length m) ++ m).
  set (cut := (List.length m' - 6)%nat).
  assert (Hlen : (7 <= List.length m')%nat).
  { unfold m'. rewrite length_app, zeros_length. lia. }
  assert (Hdig : digits m').
  { unfold m', digits. apply Forall_app. split;
      [apply zeros_digits | apply N_digits_digits]. }
  destruct (digits_firstn_skipn cut m' Hdig) as [Hint Hfrac].
  assert (Hfl : List.length (skipn cut m') = 6%nat).
  { rewrite length_skipn. unfold cut. lia. }
  assert (Hine : firstn cut m' <> []).
  { intros E. apply (f_equal (@List.length ascii)) in E.
    rewrite length_firstn in E. change (List.length (@nil ascii)) with O in E.
    unfold cut in E. lia. }
  assert (Htext :
            (if Qltb q 0 then ["-"%char] else [])
            ++ firstn cut m' ++ "."%char :: skipn cut m'
            = decimal_text (Qltb q 0) (firstn cut m') (skipn cut m') ++ []).
  { rewrite app_nil_r. unfold decimal_text, sign_text, frac_text.
    destruct (skipn cut m'); [discriminate|]. reflexivity. }
  rewrite Htext. unfold Number_ofString.
  rewrite scan_number_decimal by (assumption || exact I).
  rewrite lit_value_decimal. rewrite firstn_skipn, Hfl.
  unfold m'. rewrite zeros_value. unfold m. rewrite N_digits_value.
  reflexivity.
Qed.

Lemma toFixed6_rounds :
  forall q, small q -> Number_ofString (toFixed6 (Fin q)) = Fin (round6 q).
Proof. intros q Hs. apply toFixed6_rounds_lt, small_lt_E21, Hs. Qed.

Lemma frac_fuel_ge6 : (6 <= frac_fuel)%nat.
Proof. unfold frac_fuel. lia. Qed.

Lemma decfrac_lt : forall n m k, (n < m * zpow10 k)%Z -> decfrac n k < inject_Z m.
Proof.
  intros n m k H. unfold decfrac.
  apply Qlt_shift_div_r.
  - change 0 with (inject_Z 0). rewrite <- Zlt_Qlt. apply zpow10_pos.
  - rewrite <- inject_Z_mult. rewrite <- Zlt_Qlt. exact H.
Qed.

Lemma decfrac_ge : forall n m k, (m * zpow10 k <= n)%Z -> inject_Z m <= decfrac n k.
Proof.
  intros n m k H. unfold decfrac.
  apply Qle_shift_div_l.
  - change 0 with (inject_Z 0). rewrite <- Zlt_Qlt. apply zpow10_pos.
  - rewrite <- inject_Z_mult. rewrite <- Zle_Qle. exact H.
Qed.

(** Fixed notation of a positive count of millionths below 10^21: the
    integer digits, then a point and at most six digits when the value is
    not an integer. *)
Lemma pos_toString_fixed :
  forall n a,
    (0 < n < 10 ^ 27)%Z ->
    a == decfrac n 6 ->
    exists fds,
      pos_toString a
      = N_digits (Z.to_N (n / zpow10 6)) ++ frac_text fds
      /\ digits fds
      /\ (List.length fds <= 6)%nat
      /\ (Z.of_N (digits_value fds) * zpow10 (6 - List.length fds)
          = n mod zpow10 6)%Z
      /\ (fds = [] <-> (n mod zpow10 6 = 0)%Z).
Proof.
  intros n a Hn Ha.
  rewrite (pos_toString_ext a (decfrac n 6) Ha).
  unfold pos_toString.
  rewrite decfrac_floor.
  assert (H21 : Qle_bool E21 (decfrac n 6) = false).
  { apply Qle_bool_false. unfold E21. apply decfrac_lt.
    assert (E : (10 ^ 21 * zpow10 6 = 10 ^ 27)%Z) by (vm_compute; reflexivity).
    rewrite E. lia. }
  rewrite H21.
  assert (H6 : Qle_bool Em6 (decfrac n 6) = true).
  { apply Qle_bool_iff.
    assert (E : Em6 == decfrac 1 6) by reflexivity.
    rewrite E. unfold decfrac. unfold Qdiv.
    apply Qmult_le_compat_r.
    - rewrite <- Zle_Qle. lia.
    - closed_Qle. }
  rewrite H6.
  pose proof (zpow10_pos 6) as Hp.
  assert (Hm : (0 <= n mod zpow10 6 < zpow10 6)%Z)
    by (apply Z.mod_pos_bound; lia).
  assert (Er : Qred (decfrac n 6 - inject_Z (n / zpow10 6))
               == decfrac (n mod zpow10 6) 6).
  { rewrite Qred_correct. apply decfrac_sub_floor. }
  pose proof (frac_digits_spec 6 frac_fuel (n mod zpow10 6)%Z _
                               frac_fuel_ge6 Hm Er) as Hspec.
  cbv zeta in Hspec.
  set (fds := frac_digits frac_fuel
                (Qred (decfrac n 6 - inject_Z (n / zpow10 6)))) in *.
  exists fds. destruct Hspec as (H1 & H2 & H3 & H4).
  unfold frac_text. repeat split; try assumption; apply H4.
Qed.

Lemma decfrac_scale :
  forall m k j, decfrac (m * zpow10 j) (k + j) == decfrac m k.
Proof.
  intros m k j. unfold decfrac.
  assert (E : zpow10 (k + j) = (zpow10 k * zpow10 j)%Z).
  { unfold zpow10. rewrite Nat2Z.inj_add, Z.pow_add_r by lia. reflexivity. }
  rewrite E, !inject_Z_mult.
  pose proof (inject_zpow10_nonzero k). pose proof (inject_zpow10_nonzero j).
  field. split; assumption.
Qed.

Lemma decimal_digits_value :
  forall n fds,
    (0 <= n)%Z ->
    (List.length fds <= 6)%nat ->
    (Z.of_N (digits_value fds) * zpow10 (6 - List.length fds)
     = n mod zpow10 6)%Z ->
    decfrac (Z.of_N (digits_value (N_digits (Z.to_N (n / zpow10 6)) ++ fds)))
            (List.length fds)
    == decfrac n 6.
Proof.
  intros n fds Hn Hlen Hval.
  pose proof (zpow10_pos 6) as Hp.
  rewrite digits_value_app, N_digits_value.
  rewrite N2Z.inj_add, N2Z.inj_mul, N2Z.inj_pow, nat_N_Z.
  rewrite Z2N.id by (apply Z.div_pos; lia).
  change (Z.of_N 10) with 10%Z. fold (zpow10 (List.length fds)).
  rewrite <- (decfrac_scale _ (List.length fds) (6 - List.length fds)).
  replace (List.length fds + (6 - List.length fds))%nat with 6%nat by lia.
  assert (E : ((n / zpow10 6 * zpow10 (List.length fds)
                + Z.of_N (digits_value fds))
               * zpow10 (6 - List.length fds) = n)%Z).
  { rewrite Z.mul_add_distr_r, Hval, <- Z.mul_assoc.
    assert (Hpow : (zpow10 (List.length fds) * zpow10 (6 - List.length fds)
                    = zpow10 6)%Z).
    { unfold zpow10. rewrite <- Z.pow_add_r by lia. f_equal. lia. }
    rewrite Hpow. rewrite (Z.div_mod n (zpow10 6)) at 3 by lia. lia. }
  rewrite E. reflexivity.
Qed.

Lemma scaled6_bound :
  forall q, small q -> (- 10 ^ 27 < scaled6 q < 10 ^ 27)%Z.
Proof.
  intros q Hs. pose proof (round_scaled_small q Hs) as H.
  pose proof (N2Z.is_nonneg (round_scaled (Qabs q))) as H0.
  unfold scaled6. destruct (Qltb q 0); lia.
Qed.

(** The text of [formatNumber] is a plain decimal: an optional minus sign,
    integer digits, and at most six digits after a point; read as a
    literal it is the value rounded to six decimals. *)
Lemma formatNumber_shape_lt :
  forall q,
    Qle_bool E21 (Qabs q) = false ->
    (- 10 ^ 27 < scaled6 q < 10 ^ 27)%Z ->
    exists neg ids fds,
      formatNumber (Fin q) = decimal_text neg ids fds
      /\ ids <> [] /\ digits ids /\ digits fds
      /\ (List.length fds <= 6)%nat
      /\ lit_value (mkLit neg ids fds None) = round6 q
      /\ (neg = true -> ~ round6 q == 0).
Proof.
  intros q Hs Hb. unfold formatNumber. rewrite (toFixed6_rounds_lt q Hs).
  assert (Hr : round6 q == decfrac (scaled6 q) 6) by apply Qred_correct.
  cbn [Number_toString].
  destruct (Z.lt_trichotomy (scaled6 q) 0) as [Hneg | [Hz | Hpos]].
  - (* negative *)
    assert (Hlt : round6 q < 0).
    { rewrite Hr. change 0 with (inject_Z 0). apply decfrac_lt. lia. }
    assert (E0 : Qeq_bool (round6 q) 0 = false).
    { destruct (Qeq_bool (round6 q) 0) eqn:E; [|reflexivity].
      apply Qeq_bool_iff in E. lra. }
    rewrite E0. rewrite (proj2 (Qltb_true _ _) Hlt).
    assert (Ha : Qabs (round6 q) == decfrac (- scaled6 q) 6).
    { rewrite Qabs_neg by lra. rewrite Hr. apply decfrac_opp. }
    destruct (pos_toString_fixed (- scaled6 q) _ ltac:(lia) Ha)
      as (fds & Htxt & Hd & Hl & Hv & _).
    exists true, (N_digits (Z.to_N (- scaled6 q / zpow10 6))), fds.
    split; [rewrite Htxt; reflexivity|].
    split; [apply N_digits_nonempty|].
    split; [apply N_digits_digits|].
    split; [assumption|]. split; [assumption|].
    split.
    + rewrite lit_value_decimal. apply Qred_complete.
      rewrite <- decfrac_opp.
      rewrite (decimal_digits_value (- scaled6 q) fds ltac:(lia) Hl Hv).
      rewrite decfrac_opp. rewrite Z.opp_involutive. reflexivity.
    + intros _ E. lra.
  - (* zero *)
    assert (Hq0 : round6 q == 0).
    { rewrite Hr, Hz. apply decfrac_zero_iff. reflexivity. }
    apply Qeq_bool_iff in Hq0 as E0. rewrite E0.
    exists false, ["0"%char], [].
    split; [reflexivity|]. split; [discriminate|].
    split; [repeat constructor|]. split; [constructor|].
    split; [cbn; lia|]. split; [|discriminate].
    rewrite lit_value_decimal. apply Qred_complete.
    rewrite Hz. reflexivity.
  - (* positive *)
    assert (Hgt : 0 < round6 q).
    { rewrite Hr. change 0 with (inject_Z 0).
      apply Qlt_le_trans with (decfrac 1 6).
      - reflexivity.
      - unfold decfrac, Qdiv. apply Qmult_le_compat_r.
        + rewrite <- Zle_Qle. lia.
        + closed_Qle. }
    assert (E0 : Qeq_bool (round6 q) 0 = false).
    { destruct (Qeq_bool (round6 q) 0) eqn:E; [|reflexivity].
      apply Qeq_bool_iff in E. lra. }
    rewrite E0.
    assert (El : Qltb (round6 q) 0 = false) by (apply Qltb_false; lra).
    rewrite El.
    destruct (pos_toString_fixed (scaled6 q) _ ltac:(lia) Hr)
      as (fds & Htxt & Hd & Hl & Hv & _).
    exists false, (N_digits (Z.to_N (scaled6 q / zpow10 6))), fds.
    split; [rewrite Htxt; reflexivity|].
    split; [apply N_digits_nonempty|].
    split; [apply N_digits_digits|].
    split; [assumption|]. split; [assumption|].
    split; [|discriminate].
    rewrite lit_value_decimal. apply Qred_complete.
    apply (decimal_digits_value (scaled6 q) fds ltac:(lia) Hl Hv).
Qed.

Lemma formatNumber_shape :
  forall q,
    small q ->
    exists neg ids fds,
      formatNumber (Fin q) = decimal_text neg ids fds
      /\ ids <> [] /\ digits ids /\ digits fds
      /\ (List.length fds <= 6)%nat
      /\ lit_value (mkLit neg ids fds None) = round6 q
      /\ (neg = true -> ~ round6 q == 0).
Proof.
  intros q Hs.
  apply formatNumber_shape_lt; [apply small_lt_E21 | apply scaled6_bound];
    exact Hs.
Qed.

Lemma round_scaled_ext :
  forall a b, a == b -> round_scaled a = round_scaled b.
Proof. intros a b E. unfold round_scaled. rewrite E. reflexivity. Qed.

Lemma toFixed6_ext :
  forall p q, p == q -> toFixed6 (Fin p) = toFixed6 (Fin q).
Proof.
  intros p q E. unfold toFixed6.
  assert (Ea : Qabs p == Qabs q) by (rewrite E; reflexivity).
  rewrite Ea at 1. rewrite (Number_toString_ext p q E).
  rewrite (round_scaled_ext _ _ Ea). rewrite (Qltb_comp p q 0 0 E (Qeq_refl 0)).
  reflexivity.
Qed.

(** Equal values give the same text, whatever fractions represent them. *)
Lemma formatNumber_ext :
  forall p q, p == q -> formatNumber (Fin p) = formatNumber (Fin q).
Proof.
  intros p q E. unfold formatNumber. rewrite (toFixed6_ext p q E). reflexivity.
Qed.

(** The characters of fixed notation. *)
Definition plain_char (c : ascii) : bool :=
  is_digit c || ascii_eqb c "-" || ascii_eqb c ".".

Lemma digits_plain :
  forall ds, digits ds -> Forall (fun c => plain_char c = true) ds.
Proof.
  intros ds H. unfold digits in H. eapply Forall_impl; [|exact H].
  cbv beta. intros c Hc. unfold plain_char. rewrite Hc. reflexivity.
Qed.

Lemma decimal_text_plain :
  forall neg ids fds,
    digits ids -> digits fds ->
    Forall (fun c => plain_char c = true) (decimal_text neg ids fds).
Proof.
  intros neg ids fds Hi Hf. unfold decimal_text.
  apply Forall_app. split.
  - destruct neg; cbn; repeat constructor.
  - apply Forall_app. split; [apply digits_plain; assumption|].
    unfold frac_text. destruct (is_nil fds); [constructor|].
    constructor; [reflexivity | apply digits_plain; assumption].
Qed.

(** Number of digits after the decimal point of a text (zero when there is
    no point). *)
Fixpoint fraction_length (s : list ascii) : nat :=
  match s with
  | [] => O
  | c :: s' => if ascii_eqb c "." then List.length s' else fraction_length s'
  end.

Lemma fraction_length_digits :
  forall ds rest, digits ds ->
                  fraction_length (ds ++ rest) = fraction_length rest.
Proof.
  induction ds as [|c ds IH]; intros rest H; [reflexivity|].
  inversion H; subst. cbn [app fraction_length].
  destruct (digit_not_sign c H2) as (_ & _ & Hd). rewrite Hd.
  apply IH. assumption.
Qed.

Lemma fraction_length_decimal :
  forall neg ids fds,
    digits ids ->
    fraction_length (decimal_text neg ids fds) = List.length fds.
Proof.
  intros neg ids fds Hi. unfold decimal_text.
  assert (E : fraction_length (ids ++ frac_text fds) = List.length fds).
  { rewrite fraction_length_digits by assumption.
    unfold frac_text. destruct fds; reflexivity. }
  destruct neg; cbn [sign_text app fraction_length]; [|exact E].
  change (ascii_eqb "-" ".") with false. cbv iota. exact E.
Qed.

(** C9, as the code has it.  For every finite input of magnitude at most
    10^21 - 1 the text of [formatNumber] is in fixed notation (digits, with
    at most a leading minus sign and one point: no exponent), has at most
    six digits after the point, is [0] whenever the value rounds to zero
    (a minus sign is only printed for a non-zero rounded value), and
    depends only on the value of the input. *)
Theorem formatNumber_fixed_notation :
  forall q,
    small q ->
    Forall (fun c => plain_char c = true) (formatNumber (Fin q))
    /\ (fraction_length (formatNumber (Fin q)) <= 6)%nat
    /\ (round6 q == 0 -> formatNumber (Fin q) = ["0"%char])
    /\ (forall c rest, formatNumber (Fin q) = c :: rest ->
                       c = "-"%char -> ~ round6 q == 0)
    /\ (forall q', q == q' -> formatNumber (Fin q') = formatNumber (Fin q)).
Proof.
  intros q Hs.
  destruct (formatNumber_shape q Hs)
    as (neg & ids & fds & Htxt & Hne & Hi & Hf & Hl & Hv & Hz).
  split; [rewrite Htxt; apply decimal_text_plain; assumption|].
  split; [rewrite Htxt, fraction_length_decimal by assumption; exact Hl|].
  split.
  - intros H0. unfold formatNumber. rewrite (toFixed6_rounds q Hs).
    cbn [Number_toString]. apply Qeq_bool_iff in H0. rewrite H0. reflexivity.
  - split.
    + intros c rest E Hc. apply Hz. rewrite Htxt in E.
      destruct neg; [reflexivity|]. exfalso.
      unfold decimal_text in E. cbn [sign_text app] in E.
      destruct ids as [|d ids']; [contradiction|].
      inversion Hi; subst. cbn [app] in E. inversion E; subst.
      discriminate.
    + intros q' E. symmetry. apply formatNumber_ext. exact E.
Qed.

Lemma formatNumber_fixed_notation_witness :
  formatNumber (Fin (-1 # 3)) = text "-0.333333"
  /\ (fraction_length (formatNumber (Fin (-1 # 3))) <= 6)%nat.
Proof.
  assert (Hs : small (-1 # 3)) by (unfold small; closed_Qle).
  split.
  - vm_compute. reflexivity.
  - exact (proj1 (proj2 (formatNumber_fixed_notation (-1 # 3) Hs))).
Defined.

(** C9 as stated fails for large finite inputs: from 10^21 on, [toFixed]
    hands over to [toString], which answers in exponential notation. *)
Lemma formatNumber_exponent_counterexample :
  formatNumber (ofZ (10 ^ 21)) = text "1e+21"
  /\ ~ Forall (fun c => plain_char c = true) (formatNumber (ofZ (10 ^ 21))).
Proof.
  split; [vm_compute; reflexivity|].
  intros H.
  assert (E : formatNumber (ofZ (10 ^ 21)) = text "1e+21")
    by (vm_compute; reflexivity).
  rewrite E in H. inversion H as [|c l H1 H2]; subst.
  inversion H2 as [|c' l' H3 H4]; subst. discriminate.
Qed.

(* ================================================================== *)
(** ** Exponential notation and the text of any finite number *)
(* ================================================================== *)

(** *** Trailing zeros *)

Lemma strip_leading_zeros_spec :
  forall ds, ds = zeros (fst (strip_leading_zeros ds)) ++ snd (strip_leading_zeros ds).
Proof.
  induction ds as [|c ds IH]; [reflexivity|].
  cbn [strip_leading_zeros]. destruct (ascii_eqb c "0") eqn:E.
  - destruct (strip_leading_zeros ds) as [z r]. cbn [fst snd zeros app] in *.
    apply Ascii.eqb_eq in E. subst c. f_equal. exact IH.
  - reflexivity.
Qed.

Lemma rev_zeros : forall k, rev (zeros k) = zeros k.
Proof.
  induction k as [|k IH]; [reflexivity|].
  cbn [zeros rev]. rewrite IH. clear IH.
  induction k as [|k IH]; [reflexivity|]. cbn [zeros app]. rewrite IH. reflexivity.
Qed.

Lemma strip_trailing_zeros_spec :
  forall ds, exists k, ds = strip_trailing_zeros ds ++ zeros k.
Proof.
  intros ds. unfold strip_trailing_zeros.
  pose proof (strip_leading_zeros_spec (rev ds)) as H.
  exists (fst (strip_leading_zeros (rev ds))).
  apply (f_equal (@rev ascii)) in H. rewrite rev_involutive in H.
  rewrite rev_app_distr, rev_zeros in H. exact H.
Qed.

Lemma digits_value_zeros :
  forall ds k,
    digits_value (ds ++ zeros k) = (digits_value ds * 10 ^ N.of_nat k)%N.
Proof.
  intros ds k. rewrite digits_value_app, zeros_length.
  rewrite <- (app_nil_r (zeros k)), zeros_value. cbn. lia.
Qed.

(** *** Powers of ten *)

Lemma pow10_nat : forall k : nat, pow10 (Z.of_nat k) == inject_Z (zpow10 k).
Proof.
  intros k. unfold zpow10. destruct (Z.of_nat k) as [|p|p] eqn:E; try lia.
  - reflexivity.
  - reflexivity.
Qed.

Lemma pow10_neg_nat :
  forall k : nat, pow10 (- Z.of_nat k) == / inject_Z (zpow10 k).
Proof.
  intros k. unfold zpow10. destruct (Z.of_nat k) as [|p|p] eqn:E; try lia.
  - reflexivity.
  - cbn [Z.opp pow10].
    assert (Epow : inject_Z (10 ^ Z.pos p) == inject_Z (Zpos (10 ^ p))).
    { rewrite Pos2Z.inj_pow. reflexivity. }
    rewrite Epow. reflexivity.
Qed.

Lemma zpow10_add : forall a b, zpow10 (a + b) = (zpow10 a * zpow10 b)%Z.
Proof.
  intros a b. unfold zpow10. rewrite Nat2Z.inj_add, Z.pow_add_r by lia.
  reflexivity.
Qed.

Lemma pow10_diff :
  forall (x : Z) (a b : nat),
    inject_Z x * pow10 (Z.of_nat a - Z.of_nat b) == decfrac (x * zpow10 a) b.
Proof.
  intros x a b. unfold decfrac. rewrite inject_Z_mult.
  pose proof (inject_zpow10_nonzero a) as Ha.
  pose proof (inject_zpow10_nonzero b) as Hb.
  destruct (Nat.le_gt_cases b a) as [Hle|Hgt].
  - replace (Z.of_nat a - Z.of_nat b)%Z with (Z.of_nat (a - b)) by lia.
    rewrite pow10_nat.
    replace a with ((a - b) + b)%nat at 2 by lia.
    rewrite zpow10_add, inject_Z_mult. field. exact Hb.
  - replace (Z.of_nat a - Z.of_nat b)%Z with (- Z.of_nat (b - a))%Z by lia.
    rewrite pow10_neg_nat.
    replace b with ((b - a) + a)%nat at 2 by lia.
    rewrite zpow10_add, inject_Z_mult.
    pose proof (inject_zpow10_nonzero (b - a)) as Hc.
    field. split; assumption.
Qed.

(** *** Scanning exponent notation *)

Definition exp_text (es : list ascii) : list ascii :=
  "e"%char :: "+"%char :: es.

Lemma scan_mantissa_decimal :
  forall ids fds tail,
    ids <> [] -> digits ids -> digits fds ->
    no_digit_head tail ->
    match tail with
    | c :: _ => ascii_eqb c "." = false
    | [] => True
    end ->
    scan_mantissa (ids ++ frac_text fds ++ tail) = Some (ids, fds, tail).
Proof.
  intros ids fds tail Hne Hids Hfds Hnd Hdot. unfold scan_mantissa.
  assert (Hnil : is_nil ids = false)
    by (destruct ids; [contradiction|reflexivity]).
  destruct fds as [|f fds'].
  - cbn [frac_text is_nil app].
    rewrite (span_digits_app ids tail Hids Hnd). rewrite Hnil. cbn [negb].
    destruct tail as [|c r]; [reflexivity|]. rewrite Hdot. reflexivity.
  - cbn [frac_text is_nil app].
    rewrite (span_digits_app ids ("."%char :: f :: fds' ++ tail) Hids eq_refl).
    change (ascii_eqb "." ".") with true. cbv iota.
    change (f :: fds' ++ tail) with ((f :: fds') ++ tail).
    rewrite (span_digits_app (f :: fds') tail Hfds Hnd).
    cbn [is_nil negb]. reflexivity.
Qed.

Lemma scan_sign_decimal :
  forall neg ids tail,
    ids <> [] -> digits ids ->
    scan_sign (sign_text neg ++ ids ++ tail) = (neg, ids ++ tail).
Proof.
  intros neg ids tail Hne Hids. destruct neg; cbn [sign_text app].
  - reflexivity.
  - destruct ids as [|c ids']; [contradiction|].
    inversion Hids; subst.
    destruct (digit_not_sign c H1) as (Hp & Hm & _).
    cbn [app scan_sign]. rewrite Hp, Hm. reflexivity.
Qed.

Lemma scan_number_exp :
  forall neg ids fds es rest,
    ids <> [] -> digits ids -> digits fds ->
    es <> [] -> digits es -> no_digit_head rest ->
    scan_number (decimal_text neg ids fds ++ exp_text es ++ rest)
    = Some (mkLit neg ids fds (Some (false, es)), rest).
Proof.
  intros neg ids fds es rest Hne Hids Hfds Hes Hdes Hrest.
  unfold decimal_text, scan_number.
  rewrite <- !app_assoc.
  rewrite (scan_sign_decimal neg ids _ Hne Hids).
  rewrite (scan_mantissa_decimal ids fds (exp_text es ++ rest) Hne Hids Hfds);
    [|reflexivity|reflexivity].
  unfold exp_text. cbn [app scan_exponent].
  change (ascii_eqb "e" "e") with true. cbn [orb scan_sign].
  change (ascii_eqb "+" "+") with true. cbv iota.
  rewrite (span_digits_app es rest Hdes Hrest).
  destruct es; [contradiction|]. reflexivity.
Qed.

(** *** [toString] from 10^21 on *)

Definition decimal (n : nat) (q : Q) : Prop := exists m : Z, q == decfrac m n.

Lemma digits_value_general :
  forall K n fds,
    (0 <= n)%Z ->
    (List.length fds <= K)%nat ->
    (Z.of_N (digits_value fds) * zpow10 (K - List.length fds)
     = n mod zpow10 K)%Z ->
    decfrac (Z.of_N (digits_value (N_digits (Z.to_N (n / zpow10 K)) ++ fds)))
            (List.length fds)
    == decfrac n K.
Proof.
  intros K n fds Hn Hlen Hval.
  pose proof (zpow10_pos K) as Hp.
  rewrite digits_value_app, N_digits_value.
  rewrite N2Z.inj_add, N2Z.inj_mul, N2Z.inj_pow, nat_N_Z.
  rewrite Z2N.id by (apply Z.div_pos; lia).
  change (Z.of_N 10) with 10%Z. fold (zpow10 (List.length fds)).
  rewrite <- (decfrac_scale _ (List.length fds) (K - List.length fds)).
  replace (List.length fds + (K - List.length fds))%nat with K by lia.
  assert (E : ((n / zpow10 K * zpow10 (List.length fds)
                + Z.of_N (digits_value fds))
               * zpow10 (K - List.length fds) = n)%Z).
  { rewrite Z.mul_add_distr_r, Hval, <- Z.mul_assoc.
    assert (Hpow : (zpow10 (List.length fds) * zpow10 (K - List.length fds)
                    = zpow10 K)%Z).
    { rewrite <- zpow10_add. f_equal. lia. }
    rewrite Hpow. rewrite (Z.div_mod n (zpow10 K)) at 3 by lia. lia. }
  rewrite E. reflexivity.
Qed.

Lemma pos_toString_big :
  forall K m a,
    (K <= frac_fuel)%nat ->
    (10 ^ 21 * zpow10 K <= m)%Z ->
    a == decfrac m K ->
    exists d rest es,
      pos_toString a = (d :: frac_text rest) ++ exp_text es
      /\ is_digit d = true /\ digits rest /\ es <> [] /\ digits es
      /\ inject_Z (Z.of_N (digits_value (d :: rest)))
         * pow10 (Z.of_N (digits_value es) - Z.of_nat (List.length rest))
         == a.
Proof.
  intros K m a HK Hm Ha.
  rewrite (pos_toString_ext a (decfrac m K) Ha).
  unfold pos_toString. rewrite decfrac_floor.
  pose proof (zpow10_pos K) as Hp.
  assert (Hm0 : (0 <= m)%Z) by nia.
  assert (H21 : Qle_bool E21 (decfrac m K) = true).
  { apply Qle_bool_iff. unfold E21. apply decfrac_ge. exact Hm. }
  rewrite H21.
  assert (Hi : (10 ^ 21 <= m / zpow10 K)%Z)
    by (apply Z.div_le_lower_bound; lia).
  assert (Hmod : (0 <= m mod zpow10 K < zpow10 K)%Z)
    by (apply Z.mod_pos_bound; lia).
  assert (Er : Qred (decfrac m K - inject_Z (m / zpow10 K))
               == decfrac (m mod zpow10 K) K).
  { rewrite Qred_correct. apply decfrac_sub_floor. }
  pose proof (frac_digits_spec K frac_fuel (m mod zpow10 K)%Z _ HK Hmod Er)
    as Hspec.
  cbv zeta in Hspec.
  set (fds := frac_digits frac_fuel
                (Qred (decfrac m K - inject_Z (m / zpow10 K)))) in *.
  destruct Hspec as (Hfd & Hfl & Hfv & _).
  set (ids := N_digits (Z.to_N (m / zpow10 K))) in *.
  assert (Hids : digits ids) by apply N_digits_digits.
  assert (Hall : digits (ids ++ fds)) by (apply Forall_app; split; assumption).
  destruct (strip_trailing_zeros_spec (ids ++ fds)) as (k & Hk).
  set (sig := strip_trailing_zeros (ids ++ fds)) in *.
  assert (Hval : decfrac (Z.of_N (digits_value (ids ++ fds))) (List.length fds)
                 == decfrac m K).
  { apply digits_value_general; assumption. }
  assert (Hpos : (0 < Z.of_N (digits_value (ids ++ fds)))%Z).
  { rewrite digits_value_app. unfold ids. rewrite N_digits_value.
    assert (0 < Z.to_N (m / zpow10 K))%N by lia.
    assert (0 < 10 ^ N.of_nat (List.length fds))%N
      by (apply N.neq_0_lt_0, N.pow_nonzero; lia).
    nia. }
  assert (Hsig : digits sig).
  { rewrite Hk in Hall. apply Forall_app in Hall. apply Hall. }
  destruct sig as [|d rest] eqn:Esig.
  { exfalso. cbn [app] in Hk. rewrite Hk in Hpos.
    rewrite <- (app_nil_r (zeros k)), zeros_value in Hpos. cbn in Hpos. lia. }
  inversion Hsig as [|? ? Hd Hrest]; subst.
  assert (Hlen : (List.length ids + List.length fds
                  = S (List.length rest) + k)%nat).
  { rewrite <- length_app, Hk, length_app, zeros_length. reflexivity. }
  assert (Hidn : (1 <= List.length ids)%nat).
  { pose proof (N_digits_nonempty (Z.to_N (m / zpow10 K))) as Hn.
    fold ids in Hn. destruct ids; [contradiction | cbn; lia]. }
  set (e := (Z.of_nat (List.length ids) - 1)%Z).
  assert (He : (0 <= e)%Z) by (unfold e; lia).
  assert (Hlt : (e <? 0)%Z = false) by (apply Z.ltb_ge; exact He).
  exists d, rest, (N_digits (Z.to_N (Z.abs e))).
  split.
  { unfold exp_notation, exp_text, frac_text. rewrite Hlt.
    destruct rest; reflexivity. }
  split; [exact Hd|]. split; [exact Hrest|].
  split; [apply N_digits_nonempty|]. split; [apply N_digits_digits|].
  rewrite N_digits_value, Z2N.id, Z.abs_eq by lia.
  replace (e - Z.of_nat (List.length rest))%Z
    with (Z.of_nat k - Z.of_nat (List.length fds))%Z by (unfold e; lia).
  rewrite pow10_diff.
  assert (Ev : (Z.of_N (digits_value (d :: rest)) * zpow10 k
                = Z.of_N (digits_value (ids ++ fds)))%Z).
  { rewrite Hk, digits_value_zeros. rewrite N2Z.inj_mul, N2Z.inj_pow, nat_N_Z.
    reflexivity. }
  rewrite Ev, Ha. exact Hval.
Qed.

Lemma decfrac_ge_inv :
  forall n x k, inject_Z x <= decfrac n k -> (x * zpow10 k <= n)%Z.
Proof.
  intros n x k H.
  destruct (Z.le_gt_cases (x * zpow10 k) n) as [Hle|Hgt]; [exact Hle|].
  exfalso. apply (Qlt_not_le _ _ (decfrac_lt n x k ltac:(lia)) H).
Qed.

Lemma Number_toString_big :
  forall K q,
    (K <= frac_fuel)%nat -> decimal K q -> E21 <= Qabs q ->
    exists neg d rest es,
      Number_toString (Fin q) = decimal_text neg [d] rest ++ exp_text es
      /\ is_digit d = true /\ digits rest /\ es <> [] /\ digits es
      /\ lit_value (mkLit neg [d] rest (Some (false, es))) = Qred q.
Proof.
  intros K q HK [m Hm] Hbig.
  assert (HE : 0 < E21) by closed_Qlt.
  pose proof (zpow10_pos K) as Hp.
  cbn [Number_toString].
  assert (E0 : Qeq_bool q 0 = false).
  { destruct (Qeq_bool q 0) eqn:E; [|reflexivity].
    apply Qeq_bool_iff in E. rewrite E in Hbig. cbn in Hbig.
    exfalso. apply (Qlt_not_le _ _ HE Hbig). }
  rewrite E0.
  destruct (Qlt_le_dec q 0) as [Hneg|Hnn].
  - rewrite (proj2 (Qltb_true q 0) Hneg).
    assert (Ha : Qabs q == decfrac (- m) K).
    { rewrite Qabs_neg by (apply Qlt_le_weak; exact Hneg).
      rewrite Hm. apply decfrac_opp. }
    assert (Hmb : (10 ^ 21 * zpow10 K <= - m)%Z).
    { rewrite Ha in Hbig. apply decfrac_ge_inv. exact Hbig. }
    destruct (pos_toString_big K (- m) (Qabs q) HK Hmb Ha)
      as (d & rest & es & Htxt & Hd & Hrest & Hes & Hdes & Hval).
    exists true, d, rest, es. rewrite Htxt.
    split; [reflexivity|]. repeat (split; [assumption|]).
    unfold lit_value. cbn [lit_neg lit_int lit_frac lit_exp app].
    apply Qred_complete. rewrite Hval.
    rewrite Qabs_neg by (apply Qlt_le_weak; exact Hneg). ring.
  - assert (El : Qltb q 0 = false) by (apply Qltb_false; exact Hnn).
    rewrite El.
    assert (Ha : q == decfrac m K) by exact Hm.
    assert (Hmb : (10 ^ 21 * zpow10 K <= m)%Z).
    { rewrite Qabs_pos in Hbig by exact Hnn.
      rewrite Ha in Hbig. apply decfrac_ge_inv. exact Hbig. }
    destruct (pos_toString_big K m q HK Hmb Ha)
      as (d & rest & es & Htxt & Hd & Hrest & Hes & Hdes & Hval).
    exists false, d, rest, es. rewrite Htxt.
    split; [reflexivity|]. repeat (split; [assumption|]).
    unfold lit_value. cbn [lit_neg lit_int lit_frac lit_exp app].
    apply Qred_complete. exact Hval.
Qed.

(** *** Where a number text starts and ends *)

Lemma is_digit_not_space : forall c, is_digit c = true -> is_space c = false.
Proof.
  intros c H. unfold is_digit in H. apply andb_prop in H as [H1 H2].
  apply Nat.leb_le in H1, H2. unfold is_space.
  apply orb_false_intro.
  - apply andb_false_intro2. apply Nat.leb_gt. lia.
  - apply Nat.eqb_neq. lia.
Qed.

Definition ends_digit (s : list ascii) : Prop :=
  exists pre c, s = pre ++ [c] /\ is_digit c = true.

Definition starts_plain (s : list ascii) : Prop :=
  match s with
  | c :: _ => is_space c = false
  | [] => False
  end.

Lemma digits_ends_digit :
  forall ds, ds <> [] -> digits ds -> ends_digit ds.
Proof.
  intros ds Hne Hd. destruct (exists_last Hne) as (pre & c & ->).
  exists pre, c. split; [reflexivity|].
  unfold digits in Hd. apply Forall_app in Hd as [_ Hc].
  inversion Hc; subst. assumption.
Qed.

Lemma ends_digit_app :
  forall a b, ends_digit b -> ends_digit (a ++ b).
Proof.
  intros a b (pre & c & -> & Hc). exists (a ++ pre), c.
  rewrite app_assoc. auto.
Qed.

Lemma decimal_text_ends_digit :
  forall neg ids fds,
    ids <> [] -> digits ids -> digits fds ->
    ends_digit (decimal_text neg ids fds).
Proof.
  intros neg ids fds Hne Hi Hf. unfold decimal_text.
  apply ends_digit_app. destruct fds as [|f fds].
  - cbn [frac_text is_nil]. rewrite app_nil_r.
    apply digits_ends_digit; assumption.
  - cbn [frac_text is_nil]. apply ends_digit_app.
    change ("."%char :: f :: fds) with (["."%char] ++ (f :: fds)).
    apply ends_digit_app. apply digits_ends_digit; [discriminate|assumption].
Qed.

Lemma decimal_text_starts_plain :
  forall neg ids fds,
    ids <> [] -> digits ids -> starts_plain (decimal_text neg ids fds).
Proof.
  intros neg ids fds Hne Hi. unfold decimal_text.
  destruct neg; cbn [sign_text app]; [reflexivity|].
  destruct ids as [|c ids]; [contradiction|]. inversion Hi; subst.
  cbn [app starts_plain]. apply is_digit_not_space. assumption.
Qed.

Lemma drop_spaces_starts_plain :
  forall s, starts_plain s -> drop_spaces s = s.
Proof.
  intros [|c s] H; [contradiction|]. cbn in *. rewrite H. reflexivity.
Qed.

Lemma starts_plain_app :
  forall a b, starts_plain a -> starts_plain (a ++ b).
Proof. intros [|c a] b H; [contradiction | exact H]. Qed.

(** *** Decimal fractions *)

Lemma decimal_ext : forall n p q, p == q -> decimal n p -> decimal n q.
Proof. intros n p q E [m Hm]. exists m. rewrite <- E. exact Hm. Qed.

Lemma decimal_Qred : forall n q, decimal n q -> decimal n (Qred q).
Proof.
  intros n q H. apply (decimal_ext n q); [|exact H].
  symmetry. apply Qred_correct.
Qed.

Lemma decimal_weaken :
  forall n n' q, (n <= n')%nat -> decimal n q -> decimal n' q.
Proof.
  intros n n' q Hn [m Hm]. exists (m * zpow10 (n' - n))%Z.
  rewrite Hm. replace n' with (n + (n' - n))%nat at 2 by lia.
  symmetry. apply decfrac_scale.
Qed.




Lemma decimal_inject_Z : forall n z, decimal n (inject_Z z).
Proof.
  intros n z. exists (z * zpow10 n)%Z.
  change n with (0 + n)%nat at 2. rewrite decfrac_scale.
  unfold decfrac. change (inject_Z (zpow10 0)) with 1. field.
Qed.



(** Numbers the serializer writes in a way the readers take back: any
    value below 10^21 in magnitude, and from there on the values with a
    decimal expansion of at most [frac_fuel] places, which every binary64
    number has. *)
Definition printable (q : Q) : Prop :=
  Qabs q < E21 \/ decimal frac_fuel q.

(** What reading back gives: below 10^21 the value rounded to six
    decimals, from 10^21 on the value itself. *)
Definition rnd (q : Q) : Q :=
  if Qle_bool E21 (Qabs q) then Qred q else round6 q.

Definition token_char (c : ascii) : bool :=
  plain_char c || ascii_eqb c "e" || ascii_eqb c "+".

Record number_token (s : list ascii) (v : Q) : Prop := mkNumberToken {
  tk_chars : Forall (fun c => token_char c = true) s;
  tk_ends : ends_digit s;
  tk_starts : starts_plain s;
  tk_scan : exists lit,
      lit_value lit = v
      /\ forall rest, token_end rest ->
                      scan_number (s ++ rest) = Some (lit, rest)
}.

Lemma plain_token_char :
  forall s, Forall (fun c => plain_char c = true) s ->
            Forall (fun c => token_char c = true) s.
Proof.
  intros s H. eapply Forall_impl; [|exact H]. cbv beta.
  intros c Hc. unfold token_char. rewrite Hc. reflexivity.
Qed.

Lemma decimal_token :
  forall neg ids fds,
    ids <> [] -> digits ids -> digits fds ->
    number_token (decimal_text neg ids fds)
                 (lit_value (mkLit neg ids fds None)).
Proof.
  intros neg ids fds Hne Hi Hf. constructor.
  - apply plain_token_char, decimal_text_plain; assumption.
  - apply decimal_text_ends_digit; assumption.
  - apply decimal_text_starts_plain; assumption.
  - eexists. split; [reflexivity|]. intros rest Hrest.
    apply scan_number_decimal; assumption.
Qed.

Lemma token_end_no_digit : forall rest, token_end rest -> no_digit_head rest.
Proof. intros [|c r] H; [exact I|]. cbn in *. tauto. Qed.

Lemma exp_token :
  forall neg ids fds es,
    ids <> [] -> digits ids -> digits fds -> es <> [] -> digits es ->
    number_token (decimal_text neg ids fds ++ exp_text es)
                 (lit_value (mkLit neg ids fds (Some (false, es)))).
Proof.
  intros neg ids fds es Hne Hi Hf Hes Hdes. constructor.
  - apply Forall_app. split.
    + apply plain_token_char, decimal_text_plain; assumption.
    + unfold exp_text. constructor; [reflexivity|].
      constructor; [reflexivity|].
      apply plain_token_char, digits_plain. exact Hdes.
  - apply ends_digit_app. unfold exp_text.
    change ("e"%char :: "+"%char :: es) with (["e"%char; "+"%char] ++ es).
    apply ends_digit_app, digits_ends_digit; assumption.
  - apply starts_plain_app, decimal_text_starts_plain; assumption.
  - eexists. split; [reflexivity|]. intros rest Hrest.
    rewrite <- app_assoc. apply scan_number_exp; try assumption.
    apply token_end_no_digit. exact Hrest.
Qed.

Lemma Qred_Qred : forall q, Qred (Qred q) = Qred q.
Proof. intros q. apply Qred_complete. apply Qred_correct. Qed.

Lemma round6_decimal : forall q, decimal 6 (round6 q).
Proof. intros q. exists (scaled6 q). unfold round6. apply Qred_correct. Qed.

Lemma round6_reduced : forall q, Qred (round6 q) = round6 q.
Proof. intros q. unfold round6. apply Qred_Qred. Qed.

(** The text of a number from 10^21 on, after [toFixed] or after
    [toString]. *)
Lemma Number_toString_big_token :
  forall K q,
    (K <= frac_fuel)%nat -> decimal K q -> E21 <= Qabs q ->
    number_token (Number_toString (Fin q)) (Qred q).
Proof.
  intros K q HK Hd Hbig.
  destruct (Number_toString_big K q HK Hd Hbig)
    as (neg & d & rest & es & Htxt & Hdd & Hrest & Hes & Hdes & Hval).
  rewrite Htxt, <- Hval. apply exp_token; try assumption.
  - discriminate.
  - constructor; [exact Hdd | constructor].
Qed.

Lemma Number_ofString_token :
  forall s v, number_token s v -> Number_ofString s = Fin v.
Proof.
  intros s v H. destruct (tk_scan s v H) as (lit & Hv & Hscan).
  unfold Number_ofString. specialize (Hscan [] I).
  rewrite app_nil_r in Hscan. rewrite Hscan, Hv. reflexivity.
Qed.

Lemma scaled6_big :
  forall q, (10 ^ 27 <= scaled6 q)%Z \/ (scaled6 q <= - 10 ^ 27)%Z ->
            E21 <= Qabs (round6 q).
Proof.
  intros q H.
  assert (Hr : round6 q == decfrac (scaled6 q) 6) by apply Qred_correct.
  assert (E : (10 ^ 21 * zpow10 6 = 10 ^ 27)%Z) by (vm_compute; reflexivity).
  rewrite Hr. unfold E21. destruct H as [H|H].
  - apply Qle_trans with (decfrac (scaled6 q) 6); [|apply Qle_Qabs].
    apply decfrac_ge. lia.
  - rewrite <- Qabs_opp, decfrac_opp.
    apply Qle_trans with (decfrac (- scaled6 q) 6); [|apply Qle_Qabs].
    apply decfrac_ge. lia.
Qed.

Lemma printable_decimal :
  forall n q, (n <= frac_fuel)%nat -> decimal n q -> printable q.
Proof.
  intros n q Hn H. right. apply (decimal_weaken n); assumption.
Qed.

Lemma small_printable : forall q, small q -> printable q.
Proof.
  intros q H. left. apply Qle_bool_false. apply small_lt_E21. exact H.
Qed.

Lemma integer_printable : forall z, printable (inject_Z z).
Proof. intros z. right. apply decimal_inject_Z. Qed.

Lemma formatNumber_token :
  forall q, printable q -> number_token (formatNumber (Fin q)) (rnd q).
Proof.
  intros q Hp. unfold rnd.
  destruct (Qle_bool E21 (Qabs q)) eqn:Hbig.
  - (* from 10^21 on *)
    apply Qle_bool_iff in Hbig as Hbig'.
    destruct Hp as [Hlt|Hd]; [exfalso; lra|].
    pose proof (Number_toString_big_token frac_fuel q (Nat.le_refl _) Hd Hbig')
      as Tk.
    unfold formatNumber.
    assert (E : toFixed6 (Fin q) = Number_toString (Fin q)).
    { unfold toFixed6. rewrite Hbig. reflexivity. }
    rewrite E, (Number_ofString_token _ _ Tk).
    rewrite (Number_toString_ext (Qred q) q (Qred_correct q)). exact Tk.
  - destruct (Z_lt_le_dec (scaled6 q) (10 ^ 27)) as [Hu|Hu];
      [destruct (Z_lt_le_dec (- 10 ^ 27) (scaled6 q)) as [Hl|Hl]|].
    + destruct (formatNumber_shape_lt q Hbig (conj Hl Hu))
        as (neg & ids & fds & Htxt & Hne & Hi & Hf & _ & Hv & _).
      rewrite Htxt, <- Hv. apply decimal_token; assumption.
    + unfold formatNumber. rewrite (toFixed6_rounds_lt q Hbig).
      rewrite <- (round6_reduced q) at 2.
      apply (Number_toString_big_token 6); [unfold frac_fuel; lia | |].
      * apply round6_decimal.
      * apply scaled6_big. right. exact Hl.
    + unfold formatNumber. rewrite (toFixed6_rounds_lt q Hbig).
      rewrite <- (round6_reduced q) at 2.
      apply (Number_toString_big_token 6); [unfold frac_fuel; lia | |].
      * apply round6_decimal.
      * apply scaled6_big. left. exact Hu.
Qed.

(* ================================================================== *)
(** ** Reading back what the serializer wrote *)
(* ================================================================== *)

Lemma match_numbers_from_skip :
  forall a r,
    match_numbers_from (List.length a) (a ++ r) = match_numbers_from 0 r.
Proof.
  induction a as [|c a IH]; intros r; [reflexivity|].
  cbn [List.length app match_numbers_from]. apply IH.
Qed.

Lemma match_numbers_token :
  forall tok lit rest,
    tok <> [] ->
    scan_number (tok ++ rest) = Some (lit, rest) ->
    match_numbers_from 0 (tok ++ rest)
    = tok :: match_numbers_from 0 rest.
Proof.
  intros tok lit rest Hne Hscan.
  destruct tok as [|c t]; [contradiction|].
  change ((c :: t) ++ rest) with (c :: (t ++ rest)) in *.
  cbn [match_numbers_from]. rewrite Hscan.
  assert (Hlen : (List.length (c :: t ++ rest) - List.length rest
                  = List.length (c :: t))%nat).
  { cbn [List.length]. rewrite length_app. lia. }
  rewrite Hlen. f_equal.
  - change (c :: t ++ rest) with ((c :: t) ++ rest).
    rewrite firstn_app, Nat.sub_diag, firstn_all. cbn [firstn].
    apply app_nil_r.
  - cbn [List.length]. rewrite Nat.sub_succ, Nat.sub_0_r.
    apply match_numbers_from_skip.
Qed.

Lemma match_numbers_space :
  forall r, match_numbers_from 0 (" "%char :: r) = match_numbers_from 0 r.
Proof. intros r. reflexivity. Qed.

Lemma decimal_text_nonempty :
  forall neg ids fds, ids <> [] -> decimal_text neg ids fds <> [].
Proof.
  intros neg ids fds Hne. unfold decimal_text.
  destruct neg; cbn; [discriminate|].
  destruct ids; [contradiction | discriminate].
Qed.


Lemma drop_spaces_decimal :
  forall neg ids fds,
    ids <> [] -> digits ids ->
    drop_spaces (decimal_text neg ids fds) = decimal_text neg ids fds.
Proof.
  intros neg ids fds Hne Hi. unfold decimal_text.
  destruct neg; cbn [sign_text app]; [reflexivity|].
  destruct ids as [|c ids']; [contradiction|].
  inversion Hi; subst. cbn [app drop_spaces].
  rewrite (is_digit_not_space c H1). reflexivity.
Qed.

Lemma parseFloat_decimal :
  forall neg ids fds,
    ids <> [] -> digits ids -> digits fds ->
    parseFloat (decimal_text neg ids fds)
    = Fin (lit_value (mkLit neg ids fds None)).
Proof.
  intros neg ids fds Hne Hi Hf. unfold parseFloat.
  rewrite drop_spaces_decimal by assumption.
  rewrite <- (app_nil_r (decimal_text neg ids fds)).
  rewrite scan_number_decimal by (assumption || exact I). reflexivity.
Qed.

(** Reading a number text gives its value, whatever follows it that is no
    part of a number. *)
Lemma parseFloat_token :
  forall s v rest,
    number_token s v -> token_end rest -> parseFloat (s ++ rest) = Fin v.
Proof.
  intros s v rest H Hrest. unfold parseFloat.
  rewrite drop_spaces_starts_plain
    by (apply starts_plain_app, (tk_starts s v H)).
  destruct (tk_scan s v H) as (lit & Hv & Hscan).
  rewrite (Hscan rest Hrest), Hv. reflexivity.
Qed.

(** Reading a formatted number gives the value rounded to six decimals
    below 10^21, and the value itself from there on. *)
Lemma parseFloat_formatNumber :
  forall q, printable q -> parseFloat (formatNumber (Fin q)) = Fin (rnd q).
Proof.
  intros q Hp. rewrite <- (app_nil_r (formatNumber (Fin q))).
  apply parseFloat_token; [apply formatNumber_token; exact Hp | exact I].
Qed.

Definition space_or_end (tail : list ascii) : Prop :=
  tail = [] \/ tail = [" "%char].

(** The number pattern finds exactly the two formatted coordinates in the
    data of a serialized command. *)
Lemma token_nonempty : forall s v, number_token s v -> s <> [].
Proof.
  intros s v H E. pose proof (tk_starts s v H) as Hs. rewrite E in Hs.
  exact Hs.
Qed.

Lemma match_numbers_pair :
  forall qx qy tail,
    printable qx -> printable qy -> space_or_end tail ->
    match_numbers
      (formatNumber (Fin qx) ++ " "%char :: formatNumber (Fin qy) ++ tail)
    = [formatNumber (Fin qx); formatNumber (Fin qy)].
Proof.
  intros qx qy tail Hx Hy Ht. unfold match_numbers.
  pose proof (formatNumber_token qx Hx) as Tx.
  pose proof (formatNumber_token qy Hy) as Ty.
  destruct (tk_scan _ _ Tx) as (lx & _ & Sx).
  destruct (tk_scan _ _ Ty) as (ly & _ & Sy).
  rewrite (match_numbers_token _ lx).
  - f_equal. rewrite match_numbers_space.
    rewrite (match_numbers_token _ ly).
    + f_equal. destruct Ht as [-> | ->]; reflexivity.
    + apply (token_nonempty _ _ Ty).
    + apply Sy. destruct Ht as [-> | ->]; cbn; auto.
  - apply (token_nonempty _ _ Tx).
  - apply Sx. cbn. auto.
Qed.

(** Coordinates the round trip is stated for: finite numbers, which the
    serializer writes in a way the parser takes back. *)
Definition ok_number (v : number) : Prop :=
  match v with
  | Fin q => printable q
  | _ => False
  end.

Definition ok_point (p : Point) : Prop := ok_number (px p) /\ ok_number (py p).

Definition ok_subpath (sp : Subpath) : Prop := Forall ok_point (points sp).

Definition round_number (v : number) : number :=
  match v with
  | Fin q => Fin (rnd q)
  | _ => v
  end.

Definition round_point (p : Point) : Point :=
  mkPoint (round_number (px p)) (round_number (py p)).

Definition round_subpath (sp : Subpath) : Subpath :=
  mkSubpath (map round_point (points sp)) (closed sp).

Definition point_text (p : Point) : list ascii :=
  formatNumber (px p) ++ " "%char :: formatNumber (py p).

Lemma applyCommand_M_point :
  forall st p tail,
    ok_point p -> space_or_end tail ->
    applyCommand st "M" (point_text p ++ tail)
    = mkState (st_subpaths (flushCurrent st))
              (Some (mkSubpath [round_point p] false))
              (Some (round_point p)) (Some (round_point p)).
Proof.
  intros st [[| | |qx] [| | |qy]] tail [Hx Hy] Ht; try contradiction.
  cbn in Hx, Hy. unfold point_text. cbn [px py].
  unfold applyCommand.
  change (ascii_eqb (toUpperCase "M") "Z") with false.
  change (toUpperCase "M") with "M"%char.
  change (ascii_eqb "M" (toLowerCase "M")) with false.
  cbv iota.
  rewrite <- app_assoc. cbn [app].
  rewrite (match_numbers_pair qx qy tail Hx Hy Ht).
  cbn [List.length Nat.ltb Nat.leb applyPairs].
  unfold applyPair.
  rewrite !parseFloat_formatNumber by assumption.
  reflexivity.
Qed.

Lemma applyCommand_L_point :
  forall st p tail c,
    ok_point p -> space_or_end tail ->
    st_current st = Some c ->
    applyCommand st "L" (point_text p ++ tail)
    = mkState (st_subpaths st)
              (Some (mkSubpath (points c ++ [round_point p]) (closed c)))
              (Some (round_point p)) (st_subpathStart st).
Proof.
  intros st [[| | |qx] [| | |qy]] tail c [Hx Hy] Ht Hc; try contradiction.
  cbn in Hx, Hy. unfold point_text. cbn [px py].
  unfold applyCommand.
  change (ascii_eqb (toUpperCase "L") "Z") with false.
  change (toUpperCase "L") with "L"%char.
  change (ascii_eqb "L" (toLowerCase "L")) with false.
  cbv iota.
  rewrite <- app_assoc. cbn [app].
  rewrite (match_numbers_pair qx qy tail Hx Hy Ht).
  cbn [List.length Nat.ltb Nat.leb applyPairs].
  unfold applyPair.
  rewrite !parseFloat_formatNumber by assumption.
  cbn [isNaN orb]. cbv iota.
  change (ascii_eqb "L" "M") with false. cbn [andb orb].
  change (ascii_eqb "L" "L") with true. cbv iota.
  rewrite Hc. reflexivity.
Qed.

Lemma applyCommand_Z_closed :
  forall st data c start,
    st_current st = Some c ->
    st_subpathStart st = Some start ->
    applyCommand st "Z" data
    = mkState (st_subpaths st) (Some (mkSubpath (points c) true))
              (Some start) (Some start).
Proof.
  intros st data c start Hc Hs. unfold applyCommand.
  change (ascii_eqb (toUpperCase "Z") "Z") with true. cbv iota.
  rewrite Hc, Hs. reflexivity.
Qed.

(** *** Cutting the text at the command letters *)

Definition clean (s : list ascii) : Prop :=
  Forall (fun c => is_command c = false) s.

Definition command_head (s : list ascii) : Prop :=
  match s with
  | [] => True
  | c :: _ => is_command c = true
  end.

Lemma take_data_clean :
  forall pre rest,
    clean pre -> command_head rest -> take_data (pre ++ rest) = (pre, rest).
Proof.
  induction pre as [|c pre IH]; intros rest Hpre Hrest.
  - destruct rest as [|c r]; [reflexivity|]. cbn in *. rewrite Hrest.
    reflexivity.
  - inversion Hpre; subst. cbn [app take_data]. rewrite H1.
    rewrite IH by assumption. reflexivity.
Qed.

Lemma split_commands_skip :
  forall pre rest, clean pre ->
                   split_commands (pre ++ rest) = split_commands rest.
Proof.
  induction pre as [|c pre IH]; intros rest Hpre; [reflexivity|].
  inversion Hpre; subst. cbn [app split_commands]. rewrite H1.
  apply IH. assumption.
Qed.

(** A part of the serializer output: a command letter, then text without
    command letters. *)
Definition part_wf (part : list ascii) : Prop :=
  exists c body, part = c :: body /\ is_command c = true /\ clean body.

(** The command and its data as the scan sees them: the data of every
    part but the last ends with the joining space. *)
Fixpoint cmds_of_parts (parts : list (list ascii))
  : list (ascii * list ascii) :=
  match parts with
  | [] => []
  | part :: rest =>
      (hd " "%char part, tl part ++ (if is_nil rest then [] else [" "%char]))
      :: cmds_of_parts rest
  end.

Lemma join_command_head :
  forall parts, Forall part_wf parts -> command_head (join [" "%char] parts).
Proof.
  intros [|part rest] H; [exact I|].
  inversion H as [|x l (c & body & -> & Hc & _) Hrest]; subst.
  destruct rest; cbn; exact Hc.
Qed.

Lemma split_commands_join :
  forall parts,
    Forall part_wf parts ->
    split_commands (join [" "%char] parts) = cmds_of_parts parts.
Proof.
  induction parts as [|part rest IH]; intros H; [reflexivity|].
  inversion H as [|x l (c & body & -> & Hc & Hbody) Hrest]; subst.
  destruct rest as [|part2 rest'].
  - cbn [join cmds_of_parts is_nil hd tl split_commands]. rewrite Hc.
    rewrite <- (app_nil_r body) at 1 2.
    rewrite take_data_clean by (assumption || exact I).
    rewrite split_commands_skip by assumption.
    rewrite app_nil_r. reflexivity.
  - change (join [" "%char] ((c :: body) :: part2 :: rest'))
      with (c :: body ++ [" "%char] ++ join [" "%char] (part2 :: rest')).
    cbn [split_commands cmds_of_parts is_nil hd tl]. rewrite Hc.
    assert (Hclean : clean (body ++ [" "%char])).
    { apply Forall_app. split; [assumption|]. repeat constructor. }
    rewrite app_assoc.
    rewrite take_data_clean;
      [|assumption | apply join_command_head; assumption].
    rewrite split_commands_skip by assumption.
    rewrite IH by assumption. reflexivity.
Qed.

Lemma token_not_command :
  forall c, token_char c = true -> is_command c = false.
Proof.
  intros c H. unfold is_command, ascii_eqb.
  repeat (apply orb_false_intro);
    apply Ascii.eqb_neq; intros ->; discriminate.
Qed.

Lemma formatNumber_clean :
  forall q, printable q -> clean (formatNumber (Fin q)).
Proof.
  intros q Hp. unfold clean.
  eapply Forall_impl; [|apply (tk_chars _ _ (formatNumber_token q Hp))].
  cbv beta. apply token_not_command.
Qed.

Lemma point_text_clean : forall p, ok_point p -> clean (point_text p).
Proof.
  intros [[| | |qx] [| | |qy]] [Hx Hy]; try contradiction.
  unfold point_text. cbn [px py]. apply Forall_app. split.
  - apply formatNumber_clean. exact Hx.
  - constructor; [reflexivity | apply formatNumber_clean; exact Hy].
Qed.

Lemma subpath_parts_wf :
  forall sp, ok_subpath sp -> Forall part_wf (subpath_parts sp).
Proof.
  intros [pts cl] H. unfold ok_subpath in H. cbn [points] in H.
  unfold subpath_parts. cbn [points closed].
  destruct pts as [|p0 ps]; [constructor|].
  inversion H; subst. constructor.
  - exists "M"%char, (point_text p0). repeat split.
    apply point_text_clean. assumption.
  - apply Forall_app. split.
    + apply Forall_map. eapply Forall_impl; [|eassumption].
      intros p Hp. exists "L"%char, (point_text p). repeat split.
      apply point_text_clean. assumption.
    + destruct cl; [|constructor].
      constructor; [|constructor].
      exists "Z"%char, []. repeat split. constructor.
Qed.

Lemma serialize_parts_wf :
  forall s, Forall ok_subpath s -> Forall part_wf (serialize_parts s).
Proof.
  induction s as [|sp s IH]; intros H; [constructor|].
  inversion H; subst. unfold serialize_parts. cbn [flat_map].
  apply Forall_app. split; [apply subpath_parts_wf; assumption|].
  apply IH. assumption.
Qed.

(** *** The parser run over the commands of the serializer *)

Definition run (cmds : list (ascii * list ascii)) (st : ParseState)
  : ParseState :=
  fold_left (fun st cd => applyCommand st (fst cd) (snd cd)) cmds st.

Definition cmd_rel (part : list ascii) (cmd : ascii * list ascii) : Prop :=
  exists tail, space_or_end tail /\ cmd = (hd " "%char part, tl part ++ tail).

Lemma cmds_of_parts_rel :
  forall parts, Forall2 cmd_rel parts (cmds_of_parts parts).
Proof.
  induction parts as [|part rest IH]; [constructor|].
  cbn [cmds_of_parts]. constructor; [|exact IH].
  exists (if is_nil rest then [] else [" "%char]). split; [|reflexivity].
  destruct rest; [left | right]; reflexivity.
Qed.

Lemma run_lines :
  forall ps cmds st c,
    Forall ok_point ps ->
    Forall2 cmd_rel (map line_part ps) cmds ->
    st_current st = Some c ->
    exists cp,
      run cmds st
      = mkState (st_subpaths st)
                (Some (mkSubpath (points c ++ map round_point ps) (closed c)))
                cp (st_subpathStart st).
Proof.
  induction ps as [|p ps IH]; intros cmds st c Hok Hrel Hc.
  - inversion Hrel; subst. exists (st_currentPoint st).
    unfold run. cbn [fold_left map]. rewrite app_nil_r.
    destruct st as [subs cur cp start]. cbn in *. subst cur.
    destruct c; reflexivity.
  - inversion Hok; subst. cbn [map] in Hrel.
    inversion Hrel as [|part cmd parts cmds' (tail & Ht & ->) Hrel']; subst.
    unfold run. cbn [fold_left fst snd].
    change (hd " "%char (line_part p)) with "L"%char.
    change (tl (line_part p)) with (point_text p).
    rewrite (applyCommand_L_point st p tail c) by assumption.
    destruct (IH cmds'
                 (mkState (st_subpaths st)
                          (Some (mkSubpath (points c ++ [round_point p])
                                           (closed c)))
                          (Some (round_point p)) (st_subpathStart st))
                 (mkSubpath (points c ++ [round_point p]) (closed c))
                 H2 Hrel' eq_refl) as (cp & E).
    exists cp. unfold run in E. rewrite E.
    cbn [st_subpaths st_subpathStart points closed map].
    rewrite <- app_assoc. reflexivity.
Qed.

Lemma run_subpath :
  forall sp cmds st,
    points sp <> [] ->
    ok_subpath sp ->
    Forall2 cmd_rel (subpath_parts sp) cmds ->
    exists cp start,
      run cmds st
      = mkState (st_subpaths (flushCurrent st)) (Some (round_subpath sp))
                cp start.
Proof.
  intros [pts cl] cmds st Hne Hok Hrel.
  unfold ok_subpath in Hok. cbn [points] in *.
  destruct pts as [|p0 ps]; [contradiction|].
  inversion Hok; subst.
  unfold subpath_parts in Hrel. cbn [points closed] in Hrel.
  inversion Hrel as [|part cmd parts cmds' (tail & Ht & ->) Hrel']; subst.
  apply Forall2_app_inv_l in Hrel' as (cl1 & cl2 & Hl & Hz & ->).
  unfold run. cbn [fold_left fst snd].
  change (hd " "%char (move_part p0)) with "M"%char.
  change (tl (move_part p0)) with (point_text p0).
  rewrite (applyCommand_M_point st p0 tail) by assumption.
  rewrite fold_left_app.
  destruct (run_lines ps cl1
                      (mkState (st_subpaths (flushCurrent st))
                               (Some (mkSubpath [round_point p0] false))
                               (Some (round_point p0)) (Some (round_point p0)))
                      (mkSubpath [round_point p0] false)
                      H2 Hl eq_refl) as (cp & E).
  unfold run in E. rewrite E.
  cbn [st_subpaths st_subpathStart points closed app].
  unfold round_subpath. cbn [points closed map].
  destruct cl.
  - inversion Hz as [|part cmd parts cmds'' (tail' & Ht' & ->) Hnil]; subst.
    inversion Hnil; subst. cbn [fold_left fst snd hd tl].
    erewrite applyCommand_Z_closed; [|reflexivity|reflexivity].
    cbn [st_subpaths points]. eauto.
  - inversion Hz; subst. cbn [fold_left]. eauto.
Qed.

Lemma flush_after_subpath :
  forall subs sp cp start,
    points sp <> [] ->
    st_subpaths (flushCurrent (mkState subs (Some (round_subpath sp)) cp start))
    = subs ++ [round_subpath sp].
Proof.
  intros subs [pts cl] cp start Hne. cbn [points] in Hne.
  unfold flushCurrent, round_subpath. cbn.
  destruct pts; [contradiction|]. reflexivity.
Qed.

Lemma run_subpaths :
  forall s cmds st,
    Forall (fun sp => points sp <> []) s ->
    Forall ok_subpath s ->
    Forall2 cmd_rel (serialize_parts s) cmds ->
    st_subpaths (flushCurrent (run cmds st))
    = st_subpaths (flushCurrent st) ++ map round_subpath s.
Proof.
  induction s as [|sp s IH]; intros cmds st Hne Hok Hrel.
  - inversion Hrel; subst. cbn. rewrite app_nil_r. reflexivity.
  - inversion Hne; subst. inversion Hok; subst.
    unfold serialize_parts in Hrel. cbn [flat_map] in Hrel.
    apply Forall2_app_inv_l in Hrel as (c1 & c2 & H1' & H2' & ->).
    unfold run. rewrite fold_left_app.
    destruct (run_subpath sp c1 st H1 H3 H1') as (cp & start & E).
    unfold run in E. rewrite E.
    fold (run c2 (mkState (st_subpaths (flushCurrent st))
                          (Some (round_subpath sp)) cp start)).
    rewrite (IH c2 _ H2 H4 H2').
    rewrite flush_after_subpath by assumption.
    cbn [map]. rewrite <- app_assoc. reflexivity.
Qed.

(** Parsing the serializer's text gives back the subpaths with every
    coordinate rounded to six decimals. *)
Lemma parse_serialize :
  forall s,
    Forall (fun sp => points sp <> []) s ->
    Forall ok_subpath s ->
    parsePathData (serializeSubpaths s) = map round_subpath s.
Proof.
  intros s Hne Hok. unfold parsePathData, serializeSubpaths, text.
  rewrite list_ascii_of_string_of_list_ascii. unfold parse_chars.
  rewrite split_commands_join by (apply serialize_parts_wf; assumption).
  apply (run_subpaths s _ initState Hne Hok (cmds_of_parts_rel _)).
Qed.

(** C1, as the code has it.  For subpaths that each have at least one point
    and whose coordinates are finite numbers, parsing the text of
    [serializeSubpaths] gives the same subpaths in the same order, with the
    same closed flags, and with every coordinate as it is read back: rounded
    to six decimals below 10^21 in magnitude, unchanged from 10^21 on.  A
    finite number is here any rational below 10^21 in magnitude, and from
    there on one with a decimal expansion of at most 1100 places, which
    covers every binary64 number. *)
Theorem parse_serialize_roundtrip :
  forall s,
    Forall (fun sp => points sp <> []) s ->
    Forall ok_subpath s ->
    parsePathData (serializeSubpaths s) = map round_subpath s
    /\ List.length (parsePathData (serializeSubpaths s)) = List.length s
    /\ map closed (parsePathData (serializeSubpaths s)) = map closed s.
Proof.
  intros s Hne Hok. rewrite (parse_serialize s Hne Hok).
  split; [reflexivity|]. split; [apply length_map|].
  rewrite map_map. reflexivity.
Qed.

Definition sample_subpaths : list Subpath :=
  [mkSubpath [mkPoint (Fin (1 # 3)) (Fin (-5 # 2)); P 2 0] true;
   mkSubpath [mkPoint (Fin (12345678 # 10000000)) (Fin 0)] false;
   mkSubpath [mkPoint (Fin (inject_Z (10 ^ 21)))
                      (Fin (inject_Z (- 2 ^ 100)))] false].

Lemma parse_serialize_roundtrip_witness :
  parsePathData (serializeSubpaths sample_subpaths)
  = [mkSubpath [mkPoint (Fin (333333 # 1000000)) (Fin (-5 # 2)); P 2 0] true;
     mkSubpath [mkPoint (Fin (154321 # 125000)) (Fin 0)] false;
     mkSubpath [mkPoint (Fin (inject_Z (10 ^ 21)))
                        (Fin (inject_Z (- 2 ^ 100)))] false].
Proof.
  assert (Hne : Forall (fun sp => points sp <> []) sample_subpaths)
    by (repeat constructor; discriminate).
  assert (Hok : Forall ok_subpath sample_subpaths).
  { unfold sample_subpaths, ok_subpath, ok_point.
    repeat (apply Forall_cons || apply Forall_nil || split);
      cbn [points px py ok_number P ofZ];
      first [ left; apply Qltb_true; vm_compute; reflexivity
            | apply integer_printable ]. }
  rewrite (proj1 (parse_serialize_roundtrip sample_subpaths Hne Hok)).
  vm_compute. reflexivity.
Defined.

(** C1 as stated fails when a coordinate is not a finite number: NaN is
    serialized as the text [NaN], which the number pattern does not match,
    so the subpath is lost. *)
Lemma parse_serialize_nan_counterexample :
  serializeSubpaths [mkSubpath [mkPoint NaN NaN] false] = "MNaN NaN"%string
  /\ parsePathData (serializeSubpaths [mkSubpath [mkPoint NaN NaN] false])
     = [].
Proof. split; vm_compute; reflexivity. Qed.

(* ================================================================== *)
(** ** Extents of finite coordinates *)
(* ================================================================== *)


Definition fin_point (p : Point) : Prop :=
  isFinite (px p) = true /\ isFinite (py p) = true.

Definition lower_bound (m : Q) (qs : list Q) : Prop := Forall (fun q => m <= q) qs.
Definition upper_bound (m : Q) (qs : list Q) : Prop := Forall (fun q => q <= m) qs.

Lemma Math_min_Fin :
  forall a b, Math_min (Fin a) (Fin b) = Fin (if Qle_bool a b then a else b).
Proof. intros a b. cbn. destruct (Qle_bool a b); reflexivity. Qed.

Lemma Math_max_Fin :
  forall a b, Math_max (Fin a) (Fin b) = Fin (if Qle_bool a b then b else a).
Proof. intros a b. cbn. destruct (Qle_bool a b); reflexivity. Qed.

Lemma fold_min_spec :
  forall qs acc,
    exists m,
      fold_left Math_min (map Fin qs) (Fin acc) = Fin m
      /\ (m = acc \/ In m qs) /\ m <= acc /\ lower_bound m qs.
Proof.
  induction qs as [|q qs IH]; intros acc.
  - exists acc. cbn. repeat split; auto using Qle_refl. constructor.
  - cbn [map fold_left]. rewrite Math_min_Fin.
    destruct (Qle_bool acc q) eqn:E.
    + apply Qle_bool_iff in E.
      destruct (IH acc) as (m & Hm & Hin & Hle & Hlb).
      exists m. repeat split; auto.
      * destruct Hin; [left | right; right]; assumption.
      * constructor; [|assumption]. eapply Qle_trans; eassumption.
    + apply Qle_bool_false in E.
      destruct (IH q) as (m & Hm & Hin & Hle & Hlb).
      exists m. repeat split; auto.
      * right. destruct Hin; [left; congruence | right; assumption].
      * apply Qle_trans with q; [assumption | apply Qlt_le_weak; assumption].
      * constructor; assumption.
Qed.

Lemma fold_max_spec :
  forall qs acc,
    exists m,
      fold_left Math_max (map Fin qs) (Fin acc) = Fin m
      /\ (m = acc \/ In m qs) /\ acc <= m /\ upper_bound m qs.
Proof.
  induction qs as [|q qs IH]; intros acc.
  - exists acc. cbn. repeat split; auto using Qle_refl. constructor.
  - cbn [map fold_left]. rewrite Math_max_Fin.
    destruct (Qle_bool acc q) eqn:E.
    + apply Qle_bool_iff in E.
      destruct (IH q) as (m & Hm & Hin & Hle & Hub).
      exists m. repeat split; auto.
      * right. destruct Hin; [left; congruence | right; assumption].
      * eapply Qle_trans; eassumption.
      * constructor; assumption.
    + apply Qle_bool_false in E.
      destruct (IH acc) as (m & Hm & Hin & Hle & Hub).
      exists m. repeat split; auto.
      * destruct Hin; [left | right; right]; assumption.
      * constructor; [|assumption].
        apply Qle_trans with acc; [apply Qlt_le_weak|]; assumption.
Qed.

(** From the infinite seeds a non-empty fold lands on an element. *)
Lemma fold_min_inf :
  forall q qs,
    exists m,
      fold_left Math_min (map Fin (q :: qs)) PosInf = Fin m
      /\ In m (q :: qs) /\ lower_bound m (q :: qs).
Proof.
  intros q qs. cbn [map fold_left].
  change (Math_min PosInf (Fin q)) with (Fin q).
  destruct (fold_min_spec qs q) as (m & Hm & Hin & Hle & Hlb).
  exists m. split; [assumption|]. split.
  - destruct Hin; [left; congruence | right; assumption].
  - constructor; assumption.
Qed.

Lemma fold_max_inf :
  forall q qs,
    exists m,
      fold_left Math_max (map Fin (q :: qs)) NegInf = Fin m
      /\ In m (q :: qs) /\ upper_bound m (q :: qs).
Proof.
  intros q qs. cbn [map fold_left].
  change (Math_max NegInf (Fin q)) with (Fin q).
  destruct (fold_max_spec qs q) as (m & Hm & Hin & Hle & Hub).
  exists m. split; [assumption|]. split.
  - destruct Hin; [left; congruence | right; assumption].
  - constructor; assumption.
Qed.

Lemma lower_bound_In :
  forall m qs q, lower_bound m qs -> In q qs -> m <= q.
Proof. intros m qs q H Hin. unfold lower_bound in H.
       rewrite Forall_forall in H. auto. Qed.

Lemma upper_bound_In :
  forall m qs q, upper_bound m qs -> In q qs -> q <= m.
Proof. intros m qs q H Hin. unfold upper_bound in H.
       rewrite Forall_forall in H. auto. Qed.



(** The coordinates of finite points as rationals. *)
Lemma fin_numbers :
  forall vs, Forall (fun v => isFinite v = true) vs ->
             exists qs, vs = map Fin qs.
Proof.
  induction vs as [|v vs IH]; intros H.
  - exists []. reflexivity.
  - inversion H; subst. destruct (IH H3) as (qs & ->).
    destruct v as [| | |q]; try discriminate.
    exists (q :: qs). reflexivity.
Qed.

Lemma fin_points_xs :
  forall pts, Forall fin_point pts -> exists xs, map px pts = map Fin xs.
Proof.
  intros pts H. apply fin_numbers. apply Forall_map.
  eapply Forall_impl; [|exact H]. intros p [Hx _]. exact Hx.
Qed.

Lemma fin_points_ys :
  forall pts, Forall fin_point pts -> exists ys, map py pts = map Fin ys.
Proof.
  intros pts H. apply fin_numbers. apply Forall_map.
  eapply Forall_impl; [|exact H]. intros p [_ Hy]. exact Hy.
Qed.

(** The four folds of a bounding box, one coordinate at a time. *)
Lemma raw_fold_fields :
  forall pts b,
    let r := fold_left raw_step pts b in
    minX r = fold_left Math_min (map px pts) (minX b)
    /\ maxX r = fold_left Math_max (map px pts) (maxX b)
    /\ minY r = fold_left Math_min (map py pts) (minY b)
    /\ maxY r = fold_left Math_max (map py pts) (maxY b).
Proof.
  induction pts as [|p pts IH]; intros b; cbn [fold_left map].
  - auto.
  - destruct (IH (raw_step b p)) as (H1 & H2 & H3 & H4).
    cbv zeta. rewrite H1, H2, H3, H4. cbn [raw_step minX maxX minY maxY].
    auto.
Qed.

(* ================================================================== *)
(** ** The dot of i and j *)
(* ================================================================== *)

Definition raw_bbox (sp : Subpath) : BBox :=
  fold_left raw_step (points sp) emptyBBox.

Definition widthOf (b : BBox) : number := sub (maxX b) (minX b).
Definition heightOf (b : BBox) : number := sub (maxY b) (minY b).

(** What the scan accepts as a dot: a subpath with points, of height zero
    and of positive width. *)
Definition dot_candidate (sp : Subpath) : Prop :=
  points sp <> []
  /\ eqb (heightOf (raw_bbox sp)) zero = true
  /\ gt (widthOf (raw_bbox sp)) zero = true.

Definition found (i : nat) (sp : Subpath) : DotScan :=
  mkDot (Z.of_nat i) (minY (raw_bbox sp)) (Some (raw_bbox sp)).

Lemma scanDot_cases :
  forall subpaths i acc,
    scanDot i subpaths acc = acc
    \/ exists j sp,
         nth_error subpaths j = Some sp /\ dot_candidate sp
         /\ scanDot i subpaths acc = found (i + j) sp.
Proof.
  induction subpaths as [|sp rest IH]; intros i acc; [left; reflexivity|].
  cbn [scanDot].
  destruct (is_nil (points sp)) eqn:En.
  - destruct (IH (S i) acc) as [E | (j & sp' & Hn & Hc & E)].
    + left. exact E.
    + right. exists (S j), sp'. rewrite E.
      replace (i + S j)%nat with (S i + j)%nat by lia. auto.
  - fold (raw_bbox sp).
    destruct (eqb (sub (maxY (raw_bbox sp)) (minY (raw_bbox sp))) zero
              && gt (sub (maxX (raw_bbox sp)) (minX (raw_bbox sp))) zero
              && lt (minY (raw_bbox sp)) (dotMinY acc)) eqn:Et.
    + apply andb_prop in Et as [Et _]. apply andb_prop in Et as [Eh Ew].
      assert (Hc : dot_candidate sp).
      { split; [intros E0; rewrite E0 in En; discriminate|]. split; assumption. }
      destruct (IH (S i) (mkDot (Z.of_nat i) (minY (raw_bbox sp))
                                (Some (raw_bbox sp))))
        as [E | (j & sp' & Hn & Hc' & E)].
      * right. exists O, sp. rewrite E. rewrite Nat.add_0_r. auto.
      * right. exists (S j), sp'. rewrite E.
        replace (i + S j)%nat with (S i + j)%nat by lia. auto.
    + destruct (IH (S i) acc) as [E | (j & sp' & Hn & Hc & E)].
      * left. exact E.
      * right. exists (S j), sp'. rewrite E.
        replace (i + S j)%nat with (S i + j)%nat by lia. auto.
Qed.

Lemma scanDot_found :
  forall subpaths box,
    dotBbox (scanDot 0 subpaths initDot) = Some box ->
    exists k dot,
      nth_error subpaths k = Some dot /\ dot_candidate dot
      /\ scanDot 0 subpaths initDot = found k dot /\ box = raw_bbox dot.
Proof.
  intros subpaths box H.
  destruct (scanDot_cases subpaths 0 initDot) as [E | (j & sp & Hn & Hc & E)].
  - rewrite E in H. discriminate.
  - exists j, sp. rewrite E in H. cbn in H. inversion H. auto.
Qed.

Lemma map_index_length :
  forall {A B} (f : A -> nat -> B) l i,
    List.length (map_index f i l) = List.length l.
Proof.
  intros A B f l. induction l as [|a l IH]; intros i; cbn; [|rewrite IH];
    reflexivity.
Qed.


(** The rescaling of the dot about [centerX]. *)
Definition rescalePoint (centerX scale : number) (point : Point) : Point :=
  mkPoint (add centerX (mul (sub (px point) centerX) scale)) (py point).

Definition rescaleDot (box : BBox) (subpath : Subpath) : Subpath :=
  let width := widthOf box in
  let targetWidth := Math_min width DOT_TARGET in
  let scale := div targetWidth width in
  let centerX := div (add (minX box) (maxX box)) two in
  mkSubpath (map (rescalePoint centerX scale) (points subpath))
            (closed subpath).

(** When a dot is found, the result is the input with the dot rescaled in
    place. *)
Lemma adjustDotSubpath_found :
  forall subpaths char k dot,
    is_dotted char = true ->
    dot_candidate dot ->
    scanDot 0 subpaths initDot = found k dot ->
    adjustDotSubpath subpaths char
    = map_index (fun subpath index =>
                   if negb (Z.of_nat index =? Z.of_nat k)%Z then subpath
                   else rescaleDot (raw_bbox dot) subpath)
                0 subpaths.
Proof.
  intros subpaths char k dot Hch (Hne & Hh & Hw) E.
  unfold adjustDotSubpath. rewrite Hch. cbn [negb]. rewrite E.
  cbn [found dotBbox dotIndex].
  assert (Hk : (Z.of_nat k <? 0)%Z = false) by (apply Z.ltb_ge; lia).
  rewrite Hk. fold (widthOf (raw_bbox dot)). rewrite Hw. cbn [negb].
  reflexivity.
Qed.




Definition DOT_Q : Q := 2 # 25.

Lemma DOT_TARGET_value : DOT_TARGET = Fin DOT_Q.
Proof. reflexivity. Qed.



















(* ================================================================== *)
(** ** Pass 1: the horizontal shift *)
(* ================================================================== *)


Lemma le_Fin : forall a b, le (Fin a) (Fin b) = Qle_bool a b.
Proof. reflexivity. Qed.




(* ================================================================== *)
(** ** Rounding to six decimals *)
(* ================================================================== *)

Definition million : Q := inject_Z (10 ^ 6).

Lemma million_pos : 0 < million.
Proof. closed_Qlt. Qed.

Lemma decfrac6_times : forall n, decfrac n 6 * million == inject_Z n.
Proof.
  intros n. unfold decfrac, million.
  change (inject_Z (zpow10 6)) with (inject_Z (10 ^ 6)).
  field. intros H. pose proof million_pos as Hp. unfold million in Hp.
  rewrite H in Hp. apply (Qlt_irrefl 0). exact Hp.
Qed.

Lemma decfrac6_value : forall n, decfrac n 6 == inject_Z n / million.
Proof. intros n. reflexivity. Qed.


Lemma round_scaled_mono :
  forall a b, 0 <= a -> a <= b ->
              (Z.of_N (round_scaled a) <= Z.of_N (round_scaled b))%Z.
Proof.
  intros a b Ha Hab. unfold round_scaled.
  rewrite !Z2N.id by (apply round_scaled_nonneg; lra).
  apply Qfloor_resp_le. fold million. pose proof million_pos.
  apply Qplus_le_l. apply Qmult_le_compat_r; lra.
Qed.

Lemma scaled6_nonneg :
  forall q, 0 <= q -> scaled6 q = Z.of_N (round_scaled q).
Proof.
  intros q Hq. unfold scaled6.
  rewrite (proj2 (Qltb_false q 0) Hq).
  rewrite (round_scaled_ext (Qabs q) q) by (apply Qabs_pos; exact Hq).
  reflexivity.
Qed.

Lemma scaled6_neg :
  forall q, q < 0 -> scaled6 q = (- Z.of_N (round_scaled (- q)))%Z.
Proof.
  intros q Hq. unfold scaled6.
  rewrite (proj2 (Qltb_true q 0) Hq).
  rewrite (round_scaled_ext (Qabs q) (- q)) by (apply Qabs_neg; lra).
  reflexivity.
Qed.

Lemma scaled6_mono :
  forall x y, x <= y -> (scaled6 x <= scaled6 y)%Z.
Proof.
  intros x y Hxy.
  destruct (Qlt_le_dec x 0) as [Hx|Hx]; destruct (Qlt_le_dec y 0) as [Hy|Hy].
  - rewrite (scaled6_neg x Hx), (scaled6_neg y Hy).
    apply Z.opp_le_mono. rewrite !Z.opp_involutive.
    apply round_scaled_mono; lra.
  - rewrite (scaled6_neg x Hx), (scaled6_nonneg y Hy).
    pose proof (N2Z.is_nonneg (round_scaled (- x))).
    pose proof (N2Z.is_nonneg (round_scaled y)). lia.
  - lra.
  - rewrite (scaled6_nonneg x Hx), (scaled6_nonneg y Hy).
    apply round_scaled_mono; assumption.
Qed.

Lemma round6_value : forall q, round6 q == inject_Z (scaled6 q) / million.
Proof. intros q. unfold round6. rewrite Qred_correct. reflexivity. Qed.

Lemma round6_mono : forall x y, x <= y -> round6 x <= round6 y.
Proof.
  intros x y Hxy. rewrite !round6_value. unfold Qdiv.
  apply Qmult_le_compat_r.
  - rewrite <- Zle_Qle. apply scaled6_mono. exact Hxy.
  - apply Qlt_le_weak. apply Qinv_lt_0_compat. exact million_pos.
Qed.


Lemma floor_unique :
  forall z x, inject_Z z <= x -> x < inject_Z (z + 1) -> Qfloor x = z.
Proof.
  intros z x H1 H2. apply Z.le_antisymm.
  - assert (H : (Qfloor x < z + 1)%Z).
    { rewrite Zlt_Qlt. eapply Qle_lt_trans; [apply Qfloor_le | exact H2]. }
    lia.
  - rewrite <- (Qfloor_Z z). apply Qfloor_resp_le. exact H1.
Qed.

Lemma scaled6_ext : forall p q, p == q -> scaled6 p = scaled6 q.
Proof.
  intros p q E. unfold scaled6.
  rewrite (Qltb_comp p q 0 0 E (Qeq_refl 0)).
  rewrite (round_scaled_ext (Qabs p) (Qabs q)) by (rewrite E; reflexivity).
  reflexivity.
Qed.

Lemma round_scaled_exact :
  forall n, (0 <= n)%Z -> Z.of_N (round_scaled (decfrac n 6)) = n.
Proof.
  intros n Hn. unfold round_scaled. fold million.
  assert (E : Qfloor (decfrac n 6 * million + (1 # 2)) = n).
  { apply floor_unique; rewrite decfrac6_times.
    - lra.
    - rewrite inject_Z_plus. change (inject_Z 1) with 1. lra. }
  rewrite E. apply Z2N.id. exact Hn.
Qed.

(** A count of millionths is its own rounding. *)
Lemma scaled6_decfrac : forall n, scaled6 (decfrac n 6) = n.
Proof.
  intros n. pose proof million_pos as Hp.
  destruct (Z.lt_ge_cases n 0) as [Hn|Hn].
  - assert (Hq : decfrac n 6 < 0).
    { change 0 with (inject_Z 0). apply decfrac_lt. lia. }
    rewrite (scaled6_neg _ Hq).
    rewrite (round_scaled_ext (- decfrac n 6) (decfrac (- n) 6))
      by apply decfrac_opp.
    rewrite round_scaled_exact by lia. lia.
  - assert (Hq : 0 <= decfrac n 6).
    { change 0 with (inject_Z 0). apply decfrac_ge. lia. }
    rewrite (scaled6_nonneg _ Hq). apply round_scaled_exact. exact Hn.
Qed.

Lemma round6_idem : forall q, round6 (round6 q) = round6 q.
Proof.
  intros q. unfold round6 at 1.
  rewrite (scaled6_ext (round6 q) (decfrac (scaled6 q) 6))
    by apply Qred_correct.
  rewrite scaled6_decfrac. reflexivity.
Qed.

Lemma round6_ext : forall p q, p == q -> round6 p = round6 q.
Proof. intros p q E. unfold round6. rewrite (scaled6_ext p q E). reflexivity. Qed.

Lemma round6_zero : round6 0 = 0.
Proof. vm_compute. reflexivity. Qed.

Lemma round6_integer : forall k : Z, round6 (inject_Z k) == inject_Z k.
Proof.
  intros k.
  assert (E : inject_Z k == decfrac (k * zpow10 6) 6).
  { change 6%nat with (0 + 6)%nat at 2. rewrite decfrac_scale.
    unfold decfrac. change (inject_Z (zpow10 0)) with 1. field. }
  rewrite (round6_ext _ _ E). unfold round6.
  rewrite scaled6_decfrac, Qred_correct. symmetry. exact E.
Qed.

(** Rounding does not leave an interval with integer bounds. *)
Lemma round6_bounded :
  forall (k : Z) q, Qabs q <= inject_Z k -> Qabs (round6 q) <= inject_Z k.
Proof.
  intros k q H. apply Qabs_Qle_condition in H as [H1 H2].
  apply Qabs_Qle_condition. split.
  - apply Qle_trans with (round6 (inject_Z (- k))).
    + rewrite round6_integer, inject_Z_opp. apply Qle_refl.
    + apply round6_mono. rewrite inject_Z_opp. exact H1.
  - apply Qle_trans with (round6 (inject_Z k)).
    + apply round6_mono. exact H2.
    + rewrite round6_integer. apply Qle_refl.
Qed.

Lemma small_round6 : forall q, small q -> small (round6 q).
Proof. intros q H. unfold small in *. apply round6_bounded. exact H. Qed.

(** *** Reading back in general *)

Lemma rnd_small :
  forall q, Qle_bool E21 (Qabs q) = false -> rnd q = round6 q.
Proof. intros q H. unfold rnd. rewrite H. reflexivity. Qed.

Lemma rnd_big : forall q, Qle_bool E21 (Qabs q) = true -> rnd q = Qred q.
Proof. intros q H. unfold rnd. rewrite H. reflexivity. Qed.

Lemma E21_bool_ext :
  forall p q, p == q -> Qle_bool E21 (Qabs p) = Qle_bool E21 (Qabs q).
Proof. intros p q E. rewrite E. reflexivity. Qed.

Lemma rnd_ext : forall p q, p == q -> rnd p = rnd q.
Proof.
  intros p q E. unfold rnd. rewrite (E21_bool_ext p q E).
  destruct (Qle_bool E21 (Qabs q)).
  - apply Qred_complete. exact E.
  - apply round6_ext. exact E.
Qed.

Lemma rnd_reduced : forall q, Qred (rnd q) = rnd q.
Proof.
  intros q. unfold rnd. destruct (Qle_bool E21 (Qabs q));
    [apply Qred_Qred | apply round6_reduced].
Qed.







Lemma rnd_idem : forall q, rnd (rnd q) = rnd q.
Proof.
  intros q. destruct (Qle_bool E21 (Qabs q)) eqn:E.
  - rewrite (rnd_big q E).
    rewrite (rnd_ext (Qred q) q (Qred_correct q)). apply rnd_big. exact E.
  - rewrite (rnd_small q E). unfold rnd.
    destruct (Qle_bool E21 (Qabs (round6 q)));
      [apply round6_reduced | apply round6_idem].
Qed.

Lemma round6_exact : forall q, decimal 6 q -> round6 q == q.
Proof.
  intros q [m Hm]. rewrite (round6_ext q _ Hm). unfold round6.
  rewrite scaled6_decfrac, Qred_correct. symmetry. exact Hm.
Qed.

(** A value of at most six decimals is read back as it is. *)
Lemma rnd_exact : forall q, decimal 6 q -> rnd q == q.
Proof.
  intros q H. unfold rnd. destruct (Qle_bool E21 (Qabs q)).
  - apply Qred_correct.
  - apply round6_exact. exact H.
Qed.


Lemma printable_rnd : forall q, printable q -> printable (rnd q).
Proof.
  intros q Hp. unfold rnd. destruct (Qle_bool E21 (Qabs q)) eqn:E.
  - destruct Hp as [Hlt | Hd].
    + apply Qle_bool_iff in E. exfalso. lra.
    + right. apply decimal_Qred. exact Hd.
  - apply (printable_decimal 6); [unfold frac_fuel; lia|].
    apply round6_decimal.
Qed.

(** [toFixed] and [Number] together give the value read back. *)
Lemma toFixed6_rnd :
  forall q, printable q -> Number_ofString (toFixed6 (Fin q)) = Fin (rnd q).
Proof.
  intros q Hp. unfold rnd. destruct (Qle_bool E21 (Qabs q)) eqn:E.
  - assert (Et : toFixed6 (Fin q) = Number_toString (Fin q)).
    { unfold toFixed6. rewrite E. reflexivity. }
    rewrite Et. apply Number_ofString_token.
    destruct Hp as [Hlt | Hd].
    + apply Qle_bool_iff in E. exfalso. lra.
    + apply (Number_toString_big_token frac_fuel);
        [apply Nat.le_refl | exact Hd | apply Qle_bool_iff; exact E].
  - apply toFixed6_rounds_lt. exact E.
Qed.

Lemma formatNumber_rounded :
  forall q, printable q ->
            formatNumber (Fin q) = Number_toString (Fin (rnd q)).
Proof.
  intros q Hp. unfold formatNumber. rewrite (toFixed6_rnd q Hp).
  reflexivity.
Qed.

(** Formatting only sees the value that is read back. *)
Lemma formatNumber_rnd :
  forall q, printable q -> formatNumber (Fin (rnd q)) = formatNumber (Fin q).
Proof.
  intros q Hp.
  rewrite (formatNumber_rounded (rnd q) (printable_rnd q Hp)).
  rewrite rnd_idem. symmetry. apply formatNumber_rounded. exact Hp.
Qed.

Lemma ok_round_point : forall p, ok_point p -> ok_point (round_point p).
Proof.
  intros [[| | |qx] [| | |qy]] [Hx Hy]; try contradiction.
  split; cbn [round_point round_number px py ok_number];
    apply printable_rnd; assumption.
Qed.

Lemma point_text_round :
  forall p, ok_point p -> point_text (round_point p) = point_text p.
Proof.
  intros [[| | |qx] [| | |qy]] [Hx Hy]; try contradiction.
  unfold point_text, round_point. cbn [px py round_number].
  cbn in Hx, Hy. rewrite !formatNumber_rnd by assumption. reflexivity.
Qed.

Lemma subpath_parts_round :
  forall sp, ok_subpath sp ->
             subpath_parts (round_subpath sp) = subpath_parts sp.
Proof.
  intros [pts cl] H. unfold ok_subpath in H. cbn [points] in H.
  unfold subpath_parts, round_subpath. cbn [points closed].
  destruct pts as [|p0 ps]; [reflexivity|].
  inversion H; subst. cbn [map]. unfold move_part.
  fold (point_text (round_point p0)). fold (point_text p0).
  rewrite (point_text_round p0) by assumption. f_equal. f_equal.
  rewrite map_map. apply map_ext_in. intros p Hp.
  unfold line_part. fold (point_text (round_point p)). fold (point_text p).
  rewrite point_text_round; [reflexivity|].
  rewrite Forall_forall in H3. auto.
Qed.

Lemma serialize_round :
  forall s, Forall ok_subpath s ->
            serializeSubpaths (map round_subpath s) = serializeSubpaths s.
Proof.
  intros s H. unfold serializeSubpaths, serialize_parts. f_equal. f_equal.
  induction s as [|sp s IH]; [reflexivity|].
  inversion H; subst. cbn [map flat_map].
  rewrite subpath_parts_round by assumption. rewrite IH by assumption.
  reflexivity.
Qed.

(* ================================================================== *)
(** ** Paths in serialized form *)
(* ================================================================== *)

(** Finite numbers with at most [n] decimal places.  No binary64 number
    has more than 1074 of them. *)
Definition decimal_number (n : nat) (v : number) : Prop :=
  match v with
  | Fin q => decimal n q
  | _ => False
  end.

Definition decimal_point (n : nat) (p : Point) : Prop :=
  decimal_number n (px p) /\ decimal_number n (py p).

Definition decimal_subpaths (n : nat) (s : list Subpath) : Prop :=
  Forall (fun sp => Forall (decimal_point n) (points sp)) s.

Definition with_points (s : list Subpath) : Prop :=
  Forall (fun sp => points sp <> []) s.

(** A path string in the form the serializer writes: serializing what it
    parses to gives it back.  The coordinates have at most [n] decimal
    places. *)
Definition canonical (n : nat) (pathData : string) : Prop :=
  serializeSubpaths (parsePathData pathData) = pathData
  /\ decimal_subpaths n (parsePathData pathData).


Lemma decimal_number_weaken :
  forall n n' v, (n <= n')%nat -> decimal_number n v -> decimal_number n' v.
Proof.
  intros n n' [| | |q] Hn H; try contradiction.
  exact (decimal_weaken n n' q Hn H).
Qed.


Lemma decimal_subpaths_weaken :
  forall n n' s, (n <= n')%nat -> decimal_subpaths n s ->
                 decimal_subpaths n' s.
Proof.
  intros n n' s Hn H. unfold decimal_subpaths in *.
  eapply Forall_impl; [|exact H]. intros sp Hsp.
  eapply Forall_impl; [|exact Hsp]. intros p [Hx Hy].
  split; eapply decimal_number_weaken; eassumption.
Qed.


Lemma with_points_map :
  forall f s, with_points s -> with_points (map_points f s).
Proof.
  intros f s H. unfold with_points, map_points in *. apply Forall_map.
  eapply Forall_impl; [|exact H]. intros sp Hsp. cbv beta in *. cbn [points].
  revert Hsp. destruct (points sp); intros Hsp; [contradiction | discriminate].
Qed.

Lemma with_points_round :
  forall s, with_points s -> with_points (map round_subpath s).
Proof. intros s H. exact (with_points_map round_point s H). Qed.

(** The parser never returns a subpath without points: a subpath enters
    the result through [flushCurrent] only. *)
Lemma flushCurrent_points :
  forall st, with_points (st_subpaths st) ->
             with_points (st_subpaths (flushCurrent st)).
Proof.
  intros st H. unfold flushCurrent. cbn [st_subpaths].
  destruct (st_current st) as [c|]; [|exact H].
  destruct (points c) eqn:E; cbn [is_nil]; [exact H|].
  apply Forall_app. split; [exact H|].
  constructor; [|constructor]. rewrite E. discriminate.
Qed.

Lemma applyPair_points :
  forall command isRelative acc xt yt,
    with_points (st_subpaths (fst acc)) ->
    with_points (st_subpaths (fst (applyPair command isRelative acc xt yt))).
Proof.
  intros command isRelative [st b] xt yt H. cbn [fst] in H.
  unfold applyPair.
  destruct (isNaN (parseFloat xt) || isNaN (parseFloat yt)); [exact H|].
  destruct (match isRelative, st_currentPoint st with
            | true, Some cp => _
            | _, _ => _
            end) as [x y].
  destruct (ascii_eqb command "M" && b).
  - cbn [fst st_subpaths]. apply flushCurrent_points. exact H.
  - destruct (ascii_eqb command "M" || ascii_eqb command "L"); [|exact H].
    destruct (st_current st); exact H.
Qed.

Lemma applyPairs_points :
  forall command isRelative numbers acc,
    with_points (st_subpaths (fst acc)) ->
    with_points
      (st_subpaths (fst (applyPairs command isRelative numbers acc))).
Proof.
  intros command isRelative numbers.
  remember (List.length numbers) as len eqn:Hlen.
  revert numbers Hlen.
  induction len as [len IH] using lt_wf_ind. intros numbers Hlen acc H.
  destruct numbers as [|xt [|yt rest]]; [exact H | exact H |].
  cbn [applyPairs]. apply (IH (List.length rest)).
  - subst len. cbn [List.length]. lia.
  - reflexivity.
  - apply applyPair_points. exact H.
Qed.

Lemma applyCommand_points :
  forall st cmd data,
    with_points (st_subpaths st) ->
    with_points (st_subpaths (applyCommand st cmd data)).
Proof.
  intros st cmd data H. unfold applyCommand.
  destruct (ascii_eqb (toUpperCase cmd) "Z"); [exact H|].
  destruct (List.length (match_numbers data) <? 2)%nat; [exact H|].
  apply applyPairs_points. exact H.
Qed.

Lemma parse_with_points : forall p, with_points (parsePathData p).
Proof.
  intros p. unfold parsePathData, parse_chars.
  apply flushCurrent_points.
  assert (H : with_points (st_subpaths initState)) by constructor.
  revert H. generalize initState. generalize (split_commands (text p)).
  induction l as [|cd l IH]; intros st H; [exact H|].
  cbn [fold_left]. apply IH. apply applyCommand_points. exact H.
Qed.



Lemma canonical_weaken :
  forall n n' p, (n <= n')%nat -> canonical n p -> canonical n' p.
Proof.
  intros n n' p Hn (Hs & Hb). split; [exact Hs|].
  eapply decimal_subpaths_weaken; eassumption.
Qed.

(** ** The deepest point *)


Lemma decimal_all_points :
  forall n s, decimal_subpaths n s -> Forall (decimal_point n) (all_points s).
Proof.
  intros n s H. unfold all_points. induction s as [|sp s IH]; [constructor|].
  inversion H; subst. cbn [flat_map]. apply Forall_app. auto.
Qed.


Lemma getMaxY_empty :
  forall s, all_points s = [] -> getMaxYFromSubpaths s = zero.
Proof. intros s H. unfold getMaxYFromSubpaths. rewrite H. reflexivity. Qed.

Lemma fold_max_px_py :
  forall pts acc,
    fold_left (fun a point => Math_max a (py point)) pts acc
    = fold_left Math_max (map py pts) acc.
Proof.
  induction pts as [|p pts IH]; intros acc; [reflexivity|].
  cbn [fold_left map]. apply IH.
Qed.

Lemma getMaxY_spec :
  forall s y ys,
    map py (all_points s) = map Fin (y :: ys) ->
    exists m,
      getMaxYFromSubpaths s = Fin m /\ In m (y :: ys)
      /\ upper_bound m (y :: ys).
Proof.
  intros s y ys H. unfold getMaxYFromSubpaths.
  rewrite fold_max_px_py, H.
  destruct (fold_max_inf y ys) as (m & Hm & Hi & Hu).
  exists m. rewrite Hm. cbn [isFinite]. auto.
Qed.

(* ================================================================== *)
(** ** Glyph tables and Pass 2 *)
(* ================================================================== *)

(** Tables whose paths parse to coordinates of at most [n] decimal
    places. *)
Definition table_decimal (n : nat) (t : Table) : Prop :=
  Forall (fun kv => decimal_subpaths n (parsePathData (snd kv))) t.

Lemma lookup_In :
  forall t c v, lookup t c = Some v -> In (c, v) t.
Proof.
  induction t as [|[k w] t IH]; intros c v H; [discriminate|].
  cbn [lookup] in H. destruct (String.eqb_spec k c) as [->|Hne].
  - inversion H; subst. left. reflexivity.
  - right. apply IH. exact H.
Qed.

Lemma table_decimal_lookup :
  forall n t c v,
    table_decimal n t -> lookup t c = Some v ->
    decimal_subpaths n (parsePathData v).
Proof.
  intros n t c v Ht H. apply lookup_In in H. unfold table_decimal in Ht.
  rewrite Forall_forall in Ht. exact (Ht (c, v) H).
Qed.

Lemma truthy_Some :
  forall v s, truthy v = Some s -> v = Some s.
Proof.
  intros [[|a v]|] s H; cbn in H; try discriminate. exact H.
Qed.


Lemma lookup_assign_other :
  forall t c v c', c' <> c -> lookup (assign t c v) c' = lookup t c'.
Proof.
  induction t as [|[k w] t IH]; intros c v c' Hne; cbn [assign lookup].
  - destruct (String.eqb_spec c c'); [congruence | reflexivity].
  - destruct (String.eqb_spec k c) as [->|Hkc]; cbn [lookup].
    + destruct (String.eqb_spec c c'); [congruence | reflexivity].
    + destruct (String.eqb k c'); [reflexivity | apply IH; exact Hne].
Qed.



Lemma table_decimal_weaken :
  forall n n' t, (n <= n')%nat -> table_decimal n t -> table_decimal n' t.
Proof.
  intros n n' t Hn H. unfold table_decimal in *.
  eapply Forall_impl; [|exact H]. intros kv Hkv.
  eapply decimal_subpaths_weaken; eassumption.
Qed.


Lemma underscore_not_descender : ~ In "_"%string descenderChars.
Proof.
  unfold descenderChars. intros H.
  repeat (destruct H as [H|H]; [discriminate|]). exact H.
Qed.

Lemma decimal_points_fin :
  forall n pts, Forall (decimal_point n) pts -> Forall fin_point pts.
Proof.
  intros n pts H. eapply Forall_impl; [|exact H].
  intros [[| | |qx] [| | |qy]] [Hx Hy]; try contradiction. split; reflexivity.
Qed.

Lemma decimal_ys :
  forall n pts ys,
    Forall (decimal_point n) pts -> map py pts = map Fin ys ->
    Forall (decimal n) ys.
Proof.
  intros n. induction pts as [|p pts IH]; intros ys H E.
  - destruct ys; [constructor | discriminate].
  - destruct ys as [|y ys]; [discriminate|]. inversion H; subst.
    cbn [map] in E. inversion E as [[Ey Erest]].
    constructor; [|apply IH; assumption].
    destruct H2 as [_ Hy]. rewrite Ey in Hy. exact Hy.
Qed.

Lemma decimal_zero : forall n, decimal n 0.
Proof. intros n. exact (decimal_inject_Z n 0). Qed.

(** The deepest point of subpaths is a finite number of the same kind. *)
Lemma getMaxY_decimal :
  forall n s,
    decimal_subpaths n s ->
    exists m, getMaxYFromSubpaths s = Fin m /\ decimal n m.
Proof.
  intros n s Hb.
  pose proof (decimal_all_points n s Hb) as Hall.
  destruct (fin_points_ys _ (decimal_points_fin n _ Hall)) as (ys & Hys).
  destruct ys as [|y ys].
  - exists 0. split; [|apply decimal_zero].
    apply getMaxY_empty. destruct (all_points s); [reflexivity|discriminate].
  - destruct (getMaxY_spec s y ys Hys) as (m & Hm & Hi & _).
    exists m. split; [exact Hm|].
    pose proof (decimal_ys n _ _ Hall Hys) as Hbys.
    rewrite Forall_forall in Hbys. apply Hbys. exact Hi.
Qed.

(** The target of Pass 2 is the deepest point of the descenders that are
    in the table, and zero when none of them reaches below zero. *)
Lemma target_spec :
  forall n t,
    table_decimal n t ->
    exists T,
      descenderTargetY t = Fin T /\ 0 <= T /\ decimal n T
      /\ (forall d p, In d descenderChars ->
                      truthy (lookup t d) = Some p ->
                      exists m, getMaxYFromSubpaths (parsePathData p) = Fin m
                                /\ m <= T)
      /\ (0 < T ->
          exists d p, In d descenderChars
                      /\ truthy (lookup t d) = Some p
                      /\ getMaxYFromSubpaths (parsePathData p) = Fin T).
Proof.
  intros n t Ht. unfold descenderTargetY.
  set (step := fun target char =>
                 match truthy (lookup t char) with
                 | None => target
                 | Some pathData =>
                     Math_max target
                       (getMaxYFromSubpaths (parsePathData pathData))
                 end).
  assert (H : forall l a,
             0 <= a -> decimal n a ->
             exists T,
               fold_left step l (Fin a) = Fin T /\ a <= T /\ decimal n T
               /\ (forall d p, In d l -> truthy (lookup t d) = Some p ->
                     exists m,
                       getMaxYFromSubpaths (parsePathData p) = Fin m
                       /\ m <= T)
               /\ (T = a \/
                   exists d p, In d l /\ truthy (lookup t d) = Some p
                     /\ getMaxYFromSubpaths (parsePathData p) = Fin T)).
  { induction l as [|d l IH]; intros a Ha0 Hda.
    - exists a. split; [reflexivity|]. split; [apply Qle_refl|].
      split; [exact Hda|]. split; [intros ? ? []|]. left. reflexivity.
    - cbn [fold_left]. unfold step at 2.
      destruct (truthy (lookup t d)) as [pd|] eqn:E.
      + pose proof (truthy_Some _ _ E) as E'.
        pose proof (table_decimal_lookup n t d pd Ht E') as Hb.
        destruct (getMaxY_decimal n _ Hb) as (m & Hm & Hdm).
        rewrite Hm, Math_max_Fin.
        destruct (Qle_bool a m) eqn:El.
        * apply Qle_bool_iff in El.
          destruct (IH m ltac:(lra) Hdm) as (T & HT & Hle & HdT & Hub & Hat).
          exists T. split; [exact HT|]. split; [lra|]. split; [exact HdT|].
          split.
          -- intros d' p' [<- | Hin] Hp'.
             ++ rewrite E in Hp'. inversion Hp'; subst p'.
                exists m. split; [exact Hm | exact Hle].
             ++ apply (Hub d' p' Hin Hp').
          -- right. destruct Hat as [-> | (d' & p' & Hin & Hp' & Hv)].
             ++ exists d, pd. split; [left; reflexivity|]. auto.
             ++ exists d', p'. split; [right; exact Hin|]. auto.
        * apply Qle_bool_false in El.
          destruct (IH a Ha0 Hda) as (T & HT & Hle & HdT & Hub & Hat).
          exists T. split; [exact HT|]. split; [exact Hle|].
          split; [exact HdT|]. split.
          -- intros d' p' [<- | Hin] Hp'.
             ++ rewrite E in Hp'. inversion Hp'; subst p'.
                exists m. split; [exact Hm | lra].
             ++ apply (Hub d' p' Hin Hp').
          -- destruct Hat as [-> | (d' & p' & Hin & Hp' & Hv)];
               [left; reflexivity|].
             right. exists d', p'. split; [right; exact Hin|]. auto.
      + destruct (IH a Ha0 Hda) as (T & HT & Hle & HdT & Hub & Hat).
        exists T. split; [exact HT|]. split; [exact Hle|].
        split; [exact HdT|]. split.
        * intros d' p' [<- | Hin] Hp'; [congruence|].
          apply (Hub d' p' Hin Hp').
        * destruct Hat as [-> | (d' & p' & Hin & Hp' & Hv)];
            [left; reflexivity|].
          right. exists d', p'. split; [right; exact Hin|]. auto. }
  destruct (H descenderChars 0 (Qle_refl 0) (decimal_zero n))
    as (T & HT & Hle & HdT & Hub & Hat).
  exists T. split; [exact HT|]. split; [exact Hle|]. split; [exact HdT|].
  split; [exact Hub|]. intros Hpos.
  destruct Hat as [-> | Hat]; [exfalso; lra | exact Hat].
Qed.




















Lemma pass2_noop_no_underscore :
  forall t, truthy (lookup t "_") = None -> pass2 t = t.
Proof. intros t H. unfold pass2. rewrite H. reflexivity. Qed.

Lemma pass2_noop_no_target :
  forall t, gt (descenderTargetY t) zero = false -> pass2 t = t.
Proof.
  intros t H. unfold pass2.
  destruct (truthy (lookup t "_")); [|reflexivity]. rewrite H. reflexivity.
Qed.










(* ================================================================== *)
(** ** The segments of a serialized path *)
(* ================================================================== *)

Definition free_of (sep : ascii) (s : list ascii) : Prop :=
  Forall (fun c => ascii_eqb c sep = false) s.

Lemma split_on_free :
  forall sep s, free_of sep s -> split_on sep s = [s].
Proof.
  intros sep. induction s as [|c s IH]; intros H; [reflexivity|].
  inversion H; subst. cbn [split_on]. rewrite H2, IH by assumption.
  reflexivity.
Qed.

Lemma split_on_app :
  forall sep a b,
    free_of sep a ->
    split_on sep (a ++ sep :: b) = a :: split_on sep b.
Proof.
  intros sep. induction a as [|c a IH]; intros b H.
  - cbn [app split_on]. unfold ascii_eqb. rewrite Ascii.eqb_refl. reflexivity.
  - inversion H; subst. cbn [app split_on]. rewrite H2, IH by assumption.
    reflexivity.
Qed.

Lemma free_of_app :
  forall sep a b, free_of sep a -> free_of sep b -> free_of sep (a ++ b).
Proof. intros sep a b Ha Hb. apply Forall_app. split; assumption. Qed.

Lemma plain_free_of :
  forall sep s,
    plain_char sep = false ->
    Forall (fun c => plain_char c = true) s -> free_of sep s.
Proof.
  intros sep s Hsep H. unfold free_of. eapply Forall_impl; [|exact H].
  cbv beta. intros c Hc. unfold ascii_eqb. apply Ascii.eqb_neq.
  intros ->. congruence.
Qed.


Lemma token_free_of :
  forall sep s,
    token_char sep = false ->
    Forall (fun c => token_char c = true) s -> free_of sep s.
Proof.
  intros sep s Hsep H. unfold free_of. eapply Forall_impl; [|exact H].
  cbv beta. intros c Hc. unfold ascii_eqb. apply Ascii.eqb_neq.
  intros ->. congruence.
Qed.



(** Trimming a text that starts and ends with a character of a number
    only removes the spaces [junk] ends with. *)
Lemma trim_body :
  forall body junk junk',
    starts_plain body -> ends_digit body ->
    drop_spaces (rev junk) = rev junk' ->
    (junk' = [] \/ starts_plain (rev junk')) ->
    trim (body ++ junk) = body ++ junk'.
Proof.
  intros body junk junk' Hs (pre & c & -> & Hc) Hj Hj'.
  unfold trim.
  rewrite (drop_spaces_starts_plain ((pre ++ [c]) ++ junk))
    by (apply starts_plain_app; exact Hs).
  rewrite rev_app_distr.
  assert (E : drop_spaces (rev junk ++ rev (pre ++ [c]))
              = rev junk' ++ rev (pre ++ [c])).
  { rewrite rev_app_distr. cbn [rev app].
    revert Hj. generalize (rev junk). intros l.
    induction l as [|x l IH]; intros Hj.
    - cbn [drop_spaces] in Hj. cbn [app drop_spaces].
      rewrite (is_digit_not_space c Hc).
      destruct (rev junk'); [reflexivity | discriminate].
    - cbn [app drop_spaces] in *. destruct (is_space x).
      + apply IH. exact Hj.
      + rewrite <- Hj. reflexivity. }
  rewrite E. rewrite rev_app_distr, !rev_involutive. reflexivity.
Qed.

(** One entry of [getLineSegments]: a piece between two [L], trimmed, cut
    at the spaces and read as numbers. *)
Definition entry (pr : list ascii) : list number :=
  map parseFloat (split_on " " (trim pr)).

(** What can follow the coordinates of a point inside its piece: the
    joining space and, for the last point of a closed subpath, the [Z]. *)
Inductive piece_end : list ascii -> list ascii -> Prop :=
| pe_none : piece_end [] []
| pe_space : piece_end [" "%char] []
| pe_z : piece_end ["Z"%char] ["Z"%char]
| pe_z_space : piece_end ["Z"%char; " "%char] ["Z"%char]
| pe_space_z : piece_end [" "%char; "Z"%char] [" "%char; "Z"%char]
| pe_space_z_space :
    piece_end [" "%char; "Z"%char; " "%char] [" "%char; "Z"%char].

Lemma piece_end_trim :
  forall junk junk', piece_end junk junk' -> drop_spaces (rev junk) = rev junk'.
Proof. intros junk junk' H. destruct H; reflexivity. Qed.

Lemma parseFloat_formatNumber_rest :
  forall q rest,
    printable q -> token_end rest ->
    parseFloat (formatNumber (Fin q) ++ rest) = Fin (rnd q).
Proof.
  intros q rest Hp Hend.
  apply parseFloat_token; [apply formatNumber_token; exact Hp | exact Hend].
Qed.

Lemma space_free_number :
  forall s v, number_token s v -> free_of " " s.
Proof.
  intros s v H. apply token_free_of; [reflexivity | apply (tk_chars s v H)].
Qed.

Lemma entry_point :
  forall qx qy junk junk',
    printable qx -> printable qy -> piece_end junk junk' ->
    let e := entry (formatNumber (Fin qx) ++ " "%char
                    :: formatNumber (Fin qy) ++ junk) in
    at_index 0 e = Fin (rnd qx) /\ at_index 1 e = Fin (rnd qy).
Proof.
  intros qx qy junk junk' Hx Hy Hj e. unfold e, entry.
  pose proof (formatNumber_token qx Hx) as Tx.
  pose proof (formatNumber_token qy Hy) as Ty.
  assert (Etrim : trim ((formatNumber (Fin qx) ++ " "%char
                         :: formatNumber (Fin qy)) ++ junk)
                  = (formatNumber (Fin qx) ++ " "%char
                     :: formatNumber (Fin qy)) ++ junk').
  { apply trim_body.
    - apply starts_plain_app. apply (tk_starts _ _ Tx).
    - change (" "%char :: formatNumber (Fin qy))
        with ([" "%char] ++ formatNumber (Fin qy)).
      apply ends_digit_app, ends_digit_app. apply (tk_ends _ _ Ty).
    - apply piece_end_trim. exact Hj.
    - destruct Hj; [left | left | right | right | right | right];
        reflexivity. }
  rewrite <- !app_assoc in Etrim. cbn [app] in Etrim. rewrite Etrim.
  rewrite split_on_app by (apply (space_free_number _ _ Tx)).
  cbn [map at_index nth].
  split; [apply parseFloat_formatNumber; exact Hx|].
  destruct Hj.
  - rewrite app_nil_r.
    rewrite split_on_free by (apply (space_free_number _ _ Ty)).
    cbn [map nth]. apply parseFloat_formatNumber; exact Hy.
  - rewrite app_nil_r.
    rewrite split_on_free by (apply (space_free_number _ _ Ty)).
    cbn [map nth]. apply parseFloat_formatNumber; exact Hy.
  - rewrite split_on_free
      by (apply free_of_app;
          [apply (space_free_number _ _ Ty) | repeat constructor]).
    cbn [map nth]. apply parseFloat_formatNumber_rest; [exact Hy|].
    cbn. auto.
  - rewrite split_on_free
      by (apply free_of_app;
          [apply (space_free_number _ _ Ty) | repeat constructor]).
    cbn [map nth]. apply parseFloat_formatNumber_rest; [exact Hy|].
    cbn. auto.
  - rewrite split_on_app by (apply (space_free_number _ _ Ty)).
    cbn [map nth]. apply parseFloat_formatNumber; exact Hy.
  - rewrite split_on_app by (apply (space_free_number _ _ Ty)).
    cbn [map nth]. apply parseFloat_formatNumber; exact Hy.
Qed.

Definition unit_text (cd : ascii * list ascii) : list ascii :=
  fst cd :: snd cd.

Lemma join_units :
  forall parts,
    Forall part_wf parts ->
    join [" "%char] parts = flat_map unit_text (cmds_of_parts parts).
Proof.
  induction parts as [|part rest IH]; intros H; [reflexivity|].
  inversion H as [|x l (c & body & -> & _ & _) Hrest]; subst.
  destruct rest as [|part2 rest'].
  - cbn. rewrite !app_nil_r. reflexivity.
  - change (join [" "%char] ((c :: body) :: part2 :: rest'))
      with ((c :: body) ++ [" "%char] ++ join [" "%char] (part2 :: rest')).
    rewrite IH by assumption.
    cbn [cmds_of_parts flat_map unit_text is_nil hd tl fst snd app].
    rewrite <- !app_assoc. reflexivity.
Qed.

(** Segments between consecutive points, as [getLineSegments] builds
    them from the entries of one section. *)
Fixpoint point_segments (pts : list Point) : list LineSegment :=
  match pts with
  | a :: ((b :: _) as rest) =>
      mkSeg (px a) (sub one (py a)) (px b) (sub one (py b))
      :: point_segments rest
  | _ => []
  end.

Definition sections (chars : list ascii) : list (list (list number)) :=
  map (fun seg => map entry (split_on "L" seg)) (tl (split_on "M" chars)).

Lemma getLineSegments_sections :
  forall l,
    getLineSegments (string_of_list_ascii l)
    = flat_map section_segments (sections l).
Proof.
  intros l. unfold getLineSegments, text.
  rewrite list_ascii_of_string_of_list_ascii. reflexivity.
Qed.

Lemma point_text_free :
  forall sep p,
    ok_point p -> token_char sep = false -> ascii_eqb " " sep = false ->
    free_of sep (point_text p).
Proof.
  intros sep [[| | |qx] [| | |qy]] [Hx Hy] Hsep Hsp; try contradiction.
  unfold point_text. cbn [px py]. cbn in Hx, Hy. apply free_of_app.
  - apply token_free_of; [exact Hsep|].
    apply (tk_chars _ _ (formatNumber_token qx Hx)).
  - constructor; [exact Hsp|]. apply token_free_of; [exact Hsep|].
    apply (tk_chars _ _ (formatNumber_token qy Hy)).
Qed.

Lemma tail_free :
  forall sep tail,
    space_or_end tail -> ascii_eqb " " sep = false -> free_of sep tail.
Proof.
  intros sep tail [-> | ->] H; repeat constructor. exact H.
Qed.

Lemma entry_of_point :
  forall p junk junk',
    ok_point p -> piece_end junk junk' ->
    at_index 0 (entry (point_text p ++ junk)) = px (round_point p)
    /\ at_index 1 (entry (point_text p ++ junk)) = py (round_point p).
Proof.
  intros [[| | |qx] [| | |qy]] junk junk' [Hx Hy] Hj; try contradiction.
  unfold point_text. cbn [px py round_point round_number].
  rewrite <- app_assoc. cbn [app].
  apply (entry_point qx qy junk junk' Hx Hy Hj).
Qed.

(** The text of the closing part of a section, as the scan relation
    allows it. *)
Definition closing_text (cz : list (ascii * list ascii)) (cl : bool) : Prop :=
  if cl
  then exists tail, space_or_end tail /\ flat_map unit_text cz = "Z"%char :: tail
  else flat_map unit_text cz = [].

Lemma piece_end_last :
  forall tail cz cl,
    space_or_end tail -> closing_text cz cl ->
    exists junk', piece_end (tail ++ flat_map unit_text cz) junk'.
Proof.
  intros tail cz cl Ht Hz. unfold closing_text in Hz. destruct cl.
  - destruct Hz as (tz & Htz & ->).
    destruct Ht as [-> | ->]; destruct Htz as [-> | ->]; eexists; constructor.
  - rewrite Hz. destruct Ht as [-> | ->]; eexists; constructor.
Qed.

Lemma closing_free_L :
  forall cz cl, closing_text cz cl -> free_of "L" (flat_map unit_text cz).
Proof.
  intros cz cl H. unfold closing_text in H. destruct cl.
  - destruct H as (tz & [-> | ->] & ->); repeat constructor.
  - rewrite H. constructor.
Qed.

Lemma section_segments_cons :
  forall a b rest,
    section_segments (a :: b :: rest)
    = mkSeg (at_index 0 a) (sub one (at_index 1 a))
            (at_index 0 b) (sub one (at_index 1 b))
      :: section_segments (b :: rest).
Proof. reflexivity. Qed.

Lemma point_segments_cons :
  forall a b rest,
    point_segments (a :: b :: rest)
    = mkSeg (px a) (sub one (py a)) (px b) (sub one (py b))
      :: point_segments (b :: rest).
Proof. reflexivity. Qed.

(** The entries of a section from a point on: the first entry reads the
    point, and the segments are those of the rounded points. *)
Lemma section_entries :
  forall ps p tail cl cz closed_flag,
    ok_point p -> Forall ok_point ps ->
    space_or_end tail ->
    Forall2 cmd_rel (map line_part ps) cl ->
    closing_text cz closed_flag ->
    exists e more,
      map entry
          (split_on "L"
             ((point_text p ++ tail)
              ++ flat_map unit_text cl ++ flat_map unit_text cz))
      = e :: more
      /\ at_index 0 e = px (round_point p)
      /\ at_index 1 e = py (round_point p)
      /\ section_segments (e :: more)
         = point_segments (map round_point (p :: ps)).
Proof.
  induction ps as [|p1 ps IH]; intros p tail cl cz cf Hp Hps Ht Hrel Hz.
  - inversion Hrel; subst. cbn [flat_map app].
    destruct (piece_end_last tail cz cf Ht Hz) as (junk' & Hj).
    rewrite split_on_free.
    + cbn [map]. rewrite <- app_assoc.
      destruct (entry_of_point p _ junk' Hp Hj) as [H0 H1].
      eexists. exists []. repeat split; eassumption.
    + apply free_of_app; [apply free_of_app|].
      * apply point_text_free; [exact Hp | reflexivity | reflexivity].
      * apply tail_free; [exact Ht | reflexivity].
      * eapply closing_free_L; exact Hz.
  - inversion Hps; subst. cbn [map] in Hrel.
    inversion Hrel as [|part cmd parts cl' (tail1 & Ht1 & ->) Hrel']; subst.
    change (hd " "%char (line_part p1)) with "L"%char.
    change (tl (line_part p1)) with (point_text p1).
    assert (Etext :
              (point_text p ++ tail)
              ++ flat_map unit_text (("L"%char, point_text p1 ++ tail1) :: cl')
              ++ flat_map unit_text cz
              = (point_text p ++ tail)
                ++ "L"%char
                :: ((point_text p1 ++ tail1)
                    ++ flat_map unit_text cl' ++ flat_map unit_text cz)).
    { cbn [flat_map unit_text fst snd app].
      repeat rewrite <- app_assoc. reflexivity. }
    rewrite Etext.
    rewrite split_on_app.
    + destruct (IH p1 tail1 cl' cz cf H1 H2 Ht1 Hrel' Hz)
        as (e1 & more & E & E0 & E1 & Eseg).
      cbn [map]. rewrite E.
      assert (Hj : exists junk', piece_end tail junk')
        by (destruct Ht as [-> | ->]; eexists; constructor).
      destruct Hj as (junk' & Hj).
      destruct (entry_of_point p tail junk' Hp Hj) as [H0 H1'].
      eexists. exists (e1 :: more). split; [reflexivity|].
      split; [exact H0|]. split; [exact H1'|].
      rewrite section_segments_cons.
      change (map round_point (p :: p1 :: ps))
        with (round_point p :: round_point p1 :: map round_point ps).
      rewrite point_segments_cons, H0, H1', E0, E1. f_equal. exact Eseg.
    + apply free_of_app.
      * apply point_text_free; [exact Hp | reflexivity | reflexivity].
      * apply tail_free; [exact Ht | reflexivity].
Qed.

Lemma split_on_prefix :
  forall sep a b h t,
    free_of sep a -> split_on sep b = h :: t ->
    split_on sep (a ++ b) = (a ++ h) :: t.
Proof.
  intros sep. induction a as [|c a IH]; intros b h t Ha Hb; [exact Hb|].
  inversion Ha; subst. cbn [app split_on]. rewrite H1.
  rewrite (IH b h t H2 Hb). reflexivity.
Qed.

Lemma lines_free_M :
  forall ps cl,
    Forall ok_point ps ->
    Forall2 cmd_rel (map line_part ps) cl ->
    free_of "M" (flat_map unit_text cl).
Proof.
  induction ps as [|p ps IH]; intros cl Hok Hrel.
  - inversion Hrel; subst. constructor.
  - inversion Hok; subst. cbn [map] in Hrel.
    inversion Hrel as [|part cmd parts cl' (tail & Ht & ->) Hrel']; subst.
    cbn [flat_map unit_text fst snd].
    change (hd " "%char (line_part p)) with "L"%char.
    change (tl (line_part p)) with (point_text p).
    apply free_of_app; [|apply IH; assumption].
    constructor; [reflexivity|]. apply free_of_app.
    + apply point_text_free; [assumption | reflexivity | reflexivity].
    + apply tail_free; [exact Ht | reflexivity].
Qed.

Lemma closing_rel :
  forall (cl : bool) cz,
    Forall2 cmd_rel (if cl then [["Z"%char]] else []) cz ->
    closing_text cz cl /\ free_of "M" (flat_map unit_text cz).
Proof.
  intros [|] cz H.
  - inversion H as [|part cmd parts cz' (tail & Ht & ->) Hnil]; subst.
    inversion Hnil; subst. unfold closing_text.
    cbn [flat_map unit_text fst snd hd tl app].
    rewrite app_nil_r. split.
    + exists tail. split; [exact Ht | reflexivity].
    + constructor; [reflexivity|]. apply tail_free; [exact Ht|reflexivity].
  - inversion H; subst. split; [reflexivity | constructor].
Qed.

(** The section of one subpath: its text after the [M], free of further
    [M], and the segments its entries give. *)
Lemma subpath_section :
  forall sp c1,
    points sp <> [] -> ok_subpath sp ->
    Forall2 cmd_rel (subpath_parts sp) c1 ->
    exists sec,
      flat_map unit_text c1 = "M"%char :: sec
      /\ free_of "M" sec
      /\ section_segments (map entry (split_on "L" sec))
         = point_segments (map round_point (points sp)).
Proof.
  intros [pts cl] c1 Hne Hok Hrel.
  unfold ok_subpath in Hok. cbn [points] in *.
  destruct pts as [|p0 ps]; [contradiction|].
  inversion Hok; subst.
  unfold subpath_parts in Hrel. cbn [points closed] in Hrel.
  inversion Hrel as [|part cmd parts rest (tail & Ht & ->) Hrel']; subst.
  apply Forall2_app_inv_l in Hrel' as (cl1 & cz & Hl & Hz & ->).
  destruct (closing_rel cl cz Hz) as [Hct HzM].
  exists ((point_text p0 ++ tail)
          ++ flat_map unit_text cl1 ++ flat_map unit_text cz).
  split; [|split].
  - cbn [flat_map unit_text fst snd].
    change (hd " "%char (move_part p0)) with "M"%char.
    change (tl (move_part p0)) with (point_text p0).
    rewrite flat_map_app. reflexivity.
  - apply free_of_app; [apply free_of_app|apply free_of_app].
    + apply point_text_free; [assumption | reflexivity | reflexivity].
    + apply tail_free; [exact Ht | reflexivity].
    + eapply lines_free_M; eassumption.
    + exact HzM.
  - destruct (section_entries ps p0 tail cl1 cz cl H1 H2 Ht Hl Hct)
      as (e & more & E & _ & _ & Eseg).
    rewrite E. exact Eseg.
Qed.

Definition rounded_segments (s : list Subpath) : list LineSegment :=
  flat_map (fun sp => point_segments (map round_point (points sp))) s.

Lemma sections_serialize :
  forall s cmds,
    with_points s -> Forall ok_subpath s ->
    Forall2 cmd_rel (serialize_parts s) cmds ->
    exists secs,
      split_on "M" (flat_map unit_text cmds) = [] :: secs
      /\ flat_map section_segments
           (map (fun seg => map entry (split_on "L" seg)) secs)
         = rounded_segments s.
Proof.
  induction s as [|sp s IH]; intros cmds Hp Hok Hrel.
  - inversion Hrel; subst. exists []. split; reflexivity.
  - inversion Hp; subst. inversion Hok; subst.
    unfold serialize_parts in Hrel. cbn [flat_map] in Hrel.
    apply Forall2_app_inv_l in Hrel as (c1 & c2 & Hr1 & Hr2 & ->).
    destruct (subpath_section sp c1 H1 H3 Hr1) as (sec & Et & Hfree & Eseg).
    destruct (IH c2 H2 H4 Hr2) as (secs & Es & Esegs).
    exists (sec :: secs). split.
    + rewrite flat_map_app, Et. cbn [app split_on].
      change (ascii_eqb "M" "M") with true. cbv iota. f_equal.
      rewrite (split_on_prefix "M" sec _ [] secs Hfree Es).
      rewrite app_nil_r. reflexivity.
    + cbn [map flat_map]. rewrite Eseg, Esegs. reflexivity.
Qed.

(** The segments read from a serialized path are the segments between
    the consecutive rounded points of each subpath. *)
Lemma getLineSegments_serialize :
  forall s,
    with_points s -> Forall ok_subpath s ->
    getLineSegments (serializeSubpaths s) = rounded_segments s.
Proof.
  intros s Hp Hok. unfold serializeSubpaths.
  rewrite getLineSegments_sections. unfold sections.
  rewrite join_units by (apply serialize_parts_wf; exact Hok).
  destruct (sections_serialize s _ Hp Hok (cmds_of_parts_rel _))
    as (secs & Es & Eseg).
  rewrite Es. cbn [tl]. exact Eseg.
Qed.

(* ================================================================== *)
(** ** Padded widths *)
(* ================================================================== *)

(** The abscissas of the end points of the segments, in reading order. *)
Definition seg_xs (segs : list LineSegment) : list number :=
  flat_map (fun s => [x1 s; x2 s]) segs.





















(** A glyph of a table as Passes 1 and 2 leave it: a path in serialized
    form, or a text the parser finds no subpath in; what is measured in
    such a text are finite numbers. *)
Definition glyph_ok (n : nat) (p : string) : Prop :=
  canonical n p
  \/ (parsePathData p = []
      /\ Forall (decimal_number n) (seg_xs (getLineSegments p))).

Definition table_ok (n : nat) (t : Table) : Prop :=
  Forall (fun kv => glyph_ok n (snd kv)) t.

Lemma glyph_ok_weaken :
  forall n n' p, (n <= n')%nat -> glyph_ok n p -> glyph_ok n' p.
Proof.
  intros n n' p Hn [Hc | [He Hx]].
  - left. eapply canonical_weaken; eassumption.
  - right. split; [exact He|]. eapply Forall_impl; [|exact Hx].
    intros v Hv. eapply decimal_number_weaken; eassumption.
Qed.



Lemma table_ok_weaken :
  forall n n' t, (n <= n')%nat -> table_ok n t -> table_ok n' t.
Proof.
  intros n n' t Hn H. unfold table_ok in *.
  eapply Forall_impl; [|exact H]. intros kv. apply glyph_ok_weaken. exact Hn.
Qed.






(* ================================================================== *)
(** ** Pass 3 *)
(* ================================================================== *)













(* ================================================================== *)
(** ** Deciding the serialized form *)
(* ================================================================== *)

Definition decimalb (n : nat) (q : Q) : bool :=
  ((Qnum q * zpow10 n) mod (QDen q) =? 0)%Z.

Definition decimal_numberb (n : nat) (v : number) : bool :=
  match v with
  | Fin q => decimalb n q
  | _ => false
  end.

Definition decimal_subpathsb (n : nat) (s : list Subpath) : bool :=
  forallb (fun sp =>
             forallb (fun p => decimal_numberb n (px p)
                               && decimal_numberb n (py p))
                     (points sp)) s.




Definition table_decimalb (n : nat) (t : Table) : bool :=
  forallb (fun kv => decimal_subpathsb n (parsePathData (snd kv))) t.

Lemma decimalb_sound : forall n q, decimalb n q = true -> decimal n q.
Proof.
  intros n [a d] H. unfold decimalb in H. cbn [Qnum Qden] in H.
  apply Z.eqb_eq in H.
  exists (a * zpow10 n / Z.pos d)%Z. unfold decfrac.
  pose proof (zpow10_pos n) as Hp.
  pose proof (Z.div_mod (a * zpow10 n) (Z.pos d) ltac:(lia)) as Hdm.
  rewrite H, Z.add_0_r in Hdm.
  set (m := (a * zpow10 n / Z.pos d)%Z) in *.
  apply (Qmult_inj_r _ _ (inject_Z (zpow10 n)));
    [apply inject_zpow10_nonzero|].
  assert (E : inject_Z m / inject_Z (zpow10 n) * inject_Z (zpow10 n)
              == inject_Z m).
  { field. apply inject_zpow10_nonzero. }
  rewrite E. unfold Qeq, Qmult, inject_Z. cbn [Qnum Qden].
  rewrite Pos.mul_1_r, Z.mul_1_r. rewrite Hdm. ring.
Qed.

Lemma decimal_numberb_sound :
  forall n v, decimal_numberb n v = true -> decimal_number n v.
Proof.
  intros n [| | |q] H; try discriminate. apply decimalb_sound. exact H.
Qed.

Lemma decimal_subpathsb_sound :
  forall n s, decimal_subpathsb n s = true -> decimal_subpaths n s.
Proof.
  intros n s Hb. unfold decimal_subpaths. apply Forall_forall. intros sp Hin.
  unfold decimal_subpathsb in Hb.
  rewrite forallb_forall in Hb. specialize (Hb sp Hin).
  apply Forall_forall. intros pt Hpt.
  rewrite forallb_forall in Hb. specialize (Hb pt Hpt).
  apply andb_prop in Hb as [Hx Hy].
  split; apply decimal_numberb_sound; assumption.
Qed.




Lemma table_decimalb_sound :
  forall n t, table_decimalb n t = true -> table_decimal n t.
Proof.
  intros n t H. unfold table_decimal. apply Forall_forall.
  intros kv Hin. unfold table_decimalb in H.
  rewrite forallb_forall in H. apply decimal_subpathsb_sound.
  exact (H kv Hin).
Qed.

(* ================================================================== *)
(** ** The monospace invariant of Pass 3 *)
(* ================================================================== *)




(** No binary64 number has more than 1074 decimal places. *)
Definition PLACES : nat := 1074.





Definition sample_font : RefFont :=
  mkRefFont (Fin 2048)
            (fun _ => mkRefGlyph (Fin 169) (Fin 0) (Fin 1063) (Fin 1493)
                                 (Some (Fin 1233))).


(* ================================================================== *)
(** ** Descender alignment through Passes 2 and 3 *)
(* ================================================================== *)









Lemma pass2_lookup_other :
  forall t c, c <> "_"%string -> lookup (pass2 t) c = lookup t c.
Proof.
  intros t c Hc. unfold pass2.
  destruct (truthy (lookup t "_")); [|reflexivity].
  destruct (gt (descenderTargetY t) zero); [|reflexivity].
  destruct (gt _ EPSILON); [|reflexivity].
  apply lookup_assign_other. exact Hc.
Qed.






Lemma descender_not_underscore :
  forall d, In d descenderChars -> d <> "_"%string.
Proof. intros d Hd ->. exact (underscore_not_descender Hd). Qed.











Definition sample_alphabet : Table :=
  [("H", "M0 0 L0 1 M0 0.5 L0.6 0.5 M0.6 0 L0.6 1");
   ("i", "M0.2 0.1 L0.4 0.1 M0.3 0.3 L0.3 1");
   ("g", "M0 0.3 L0.5 0.3 L0.5 1.2 L0 1.2");
   ("_", "M0 1 L0.7 1")]%string.


(* ================================================================== *)
(** ** Further properties of the parser and the serializer *)
(* ================================================================== *)

(** X1.  [parsePathData] never returns a subpath without points: a
    subpath is pushed only once a coordinate pair has been read, whatever
    the text. *)
Theorem parsePathData_subpaths_have_points :
  forall pathData,
    Forall (fun sp => points sp <> []) (parsePathData pathData).
Proof. intros pathData. exact (parse_with_points pathData). Qed.



(** Subpaths without points leave no trace in the serialized text. *)
Definition has_points (sp : Subpath) : bool := negb (is_nil (points sp)).

Lemma serialize_parts_filter :
  forall s, serialize_parts (filter has_points s) = serialize_parts s.
Proof.
  induction s as [|sp s IH]; [reflexivity|].
  unfold serialize_parts in *. cbn [filter flat_map].
  unfold has_points at 1. destruct (points sp) as [|p ps] eqn:E.
  - cbn [is_nil negb]. rewrite IH. unfold subpath_parts. rewrite E.
    reflexivity.
  - cbn [is_nil negb flat_map]. rewrite IH. reflexivity.
Qed.

Lemma serialize_filter :
  forall s, serializeSubpaths (filter has_points s) = serializeSubpaths s.
Proof.
  intros s. unfold serializeSubpaths. rewrite serialize_parts_filter.
  reflexivity.
Qed.

Lemma filter_with_points : forall s, with_points (filter has_points s).
Proof.
  induction s as [|sp s IH]; [constructor|].
  cbn [filter]. unfold has_points at 1.
  destruct (points sp) as [|p ps] eqn:E; cbn [is_nil negb]; [exact IH|].
  constructor; [rewrite E; discriminate | exact IH].
Qed.

Lemma filter_ok :
  forall s, Forall ok_subpath s -> Forall ok_subpath (filter has_points s).
Proof.
  intros s H. rewrite Forall_forall in *. intros sp Hin.
  apply filter_In in Hin. apply H. exact (proj1 Hin).
Qed.

(** What the parser reads in the text of any subpaths with finite
    coordinates: the subpaths that have points, rounded. *)
Lemma parse_serialize_filter :
  forall s,
    Forall ok_subpath s ->
    parsePathData (serializeSubpaths s)
    = map round_subpath (filter has_points s).
Proof.
  intros s Hok. rewrite <- serialize_filter.
  apply parse_serialize; [apply filter_with_points | apply filter_ok, Hok].
Qed.

(** X3.  The serialized text is a fixed point of parsing and serializing
    again: for subpaths with finite coordinates, with or without points,
    [serializeSubpaths (parsePathData text) = text] for
    [text = serializeSubpaths s]. *)
Theorem serialize_parse_serialize :
  forall s,
    Forall ok_subpath s ->
    serializeSubpaths (parsePathData (serializeSubpaths s))
    = serializeSubpaths s.
Proof.
  intros s Hok. rewrite (parse_serialize_filter s Hok).
  rewrite serialize_round by (apply filter_ok; exact Hok).
  apply serialize_filter.
Qed.

Definition sample_mixed : list Subpath :=
  [mkSubpath [] true;
   mkSubpath [mkPoint (Fin (1 # 3)) (Fin (-5 # 2)); P 2 0] true;
   mkSubpath [] false;
   mkSubpath [mkPoint (Fin (12345678 # 10000000)) (Fin 0)] false].

Lemma sample_mixed_ok : Forall ok_subpath sample_mixed.
Proof.
  unfold sample_mixed, ok_subpath, ok_point.
  repeat (apply Forall_cons || apply Forall_nil || split);
    cbn [points px py ok_number P ofZ];
    left; apply Qltb_true; vm_compute; reflexivity.
Qed.

Lemma serialize_parse_serialize_witness :
  serializeSubpaths (parsePathData (serializeSubpaths sample_mixed))
  = "M0.333333 -2.5 L2 0 Z M1.234568 0"%string.
Proof.
  rewrite (serialize_parse_serialize sample_mixed sample_mixed_ok).
  vm_compute. reflexivity.
Defined.

Lemma rounded_segments_filter :
  forall s, rounded_segments (filter has_points s) = rounded_segments s.
Proof.
  induction s as [|sp s IH]; [reflexivity|].
  unfold rounded_segments in *. cbn [filter flat_map].
  unfold has_points at 1. destruct (points sp) as [|p ps] eqn:E.
  - cbn [is_nil negb map point_segments app]. exact IH.
  - cbn [is_nil negb flat_map]. rewrite IH, E. reflexivity.
Qed.

(** X4.  On a serialized text the string splitting of [getLineSegments]
    agrees with the parser: its segments join the consecutive points of
    each subpath, read back rounded and with the ordinate flipped; a
    subpath of one point and the closing [Z] give no segment. *)
Theorem getLineSegments_of_serialized :
  forall s,
    Forall ok_subpath s ->
    getLineSegments (serializeSubpaths s)
    = flat_map (fun sp => point_segments (map round_point (points sp))) s.
Proof.
  intros s Hok. rewrite <- serialize_filter.
  rewrite getLineSegments_serialize
    by (apply filter_with_points || apply filter_ok; exact Hok).
  apply rounded_segments_filter.
Qed.

Lemma getLineSegments_of_serialized_witness :
  getLineSegments (serializeSubpaths sample_mixed)
  = [mkSeg (Fin (333333 # 1000000)) (Fin (7 # 2)) (Fin 2) (Fin 1)].
Proof.
  rewrite (getLineSegments_of_serialized sample_mixed sample_mixed_ok).
  vm_compute. reflexivity.
Defined.

(* ================================================================== *)
(** ** Further properties of the measurements and of the passes *)
(* ================================================================== *)



(** X6.  [descenderTargetY] is a finite number, never negative; no
    descender glyph of the table reaches deeper; and when it is positive,
    it is the depth of one of them. *)
Theorem descenderTargetY_deepest :
  forall t,
    table_decimal PLACES t ->
    exists T,
      descenderTargetY t = Fin T /\ 0 <= T
      /\ (forall d p, In d descenderChars ->
                      truthy (lookup t d) = Some p ->
                      exists m, getMaxYFromSubpaths (parsePathData p) = Fin m
                                /\ m <= T)
      /\ (0 < T ->
          exists d p, In d descenderChars
                      /\ truthy (lookup t d) = Some p
                      /\ getMaxYFromSubpaths (parsePathData p) = Fin T).
Proof.
  intros t Ht.
  destruct (target_spec PLACES t Ht) as (T & HT & H0 & _ & Hub & Hat).
  exists T. auto.
Qed.

Definition sample_deep : Table :=
  [("g", "M0 0.3 L0.5 1.2"); ("y", "M0 0 L0.5 1.25"); ("p", "");
   ("x", "M0 0 L9 9")]%string.

Lemma descenderTargetY_deepest_witness :
  descenderTargetY sample_deep = Fin (5 # 4)
  /\ exists T,
       descenderTargetY sample_deep = Fin T /\ 0 <= T
       /\ (forall d p, In d descenderChars ->
                       truthy (lookup sample_deep d) = Some p ->
                       exists m,
                         getMaxYFromSubpaths (parsePathData p) = Fin m
                         /\ m <= T)
       /\ (0 < T ->
           exists d p, In d descenderChars
                       /\ truthy (lookup sample_deep d) = Some p
                       /\ getMaxYFromSubpaths (parsePathData p) = Fin T).
Proof.
  split; [vm_compute; reflexivity|].
  apply (descenderTargetY_deepest sample_deep).
  apply table_decimalb_sound. vm_compute. reflexivity.
Defined.

(** Assigning to a key that is there keeps the keys and their order. *)
Lemma assign_keys :
  forall t c v w, lookup t c = Some w -> map fst (assign t c v) = map fst t.
Proof.
  induction t as [|[k u] t IH]; intros c v w H; [discriminate|].
  cbn [assign lookup] in *. destruct (String.eqb k c).
  - reflexivity.
  - cbn [map fst]. f_equal. apply (IH c v w H).
Qed.

Lemma pass2_keys : forall t, map fst (pass2 t) = map fst t.
Proof.
  intros t. unfold pass2.
  destruct (truthy (lookup t "_")) as [u|] eqn:Hu; [|reflexivity].
  destruct (gt (descenderTargetY t) zero); [|reflexivity].
  destruct (gt _ EPSILON); [|reflexivity].
  apply (assign_keys t "_" _ u). apply truthy_Some. exact Hu.
Qed.

(** X7.  Pass 2 touches the underscore only: the table keeps its keys in
    their order, and the path of every other character; without an
    underscore, or with the target at 0, the table is returned as it
    is. *)
Theorem pass2_only_underscore :
  forall t,
    map fst (pass2 t) = map fst t
    /\ (forall c, c <> "_"%string -> lookup (pass2 t) c = lookup t c)
    /\ (truthy (lookup t "_") = None -> pass2 t = t)
    /\ (gt (descenderTargetY t) zero = false -> pass2 t = t).
Proof.
  intros t. split; [apply pass2_keys|].
  split; [intros c Hc; apply pass2_lookup_other; exact Hc|].
  split; [apply pass2_noop_no_underscore | apply pass2_noop_no_target].
Qed.

(** X8.  The pipeline writes back the characters it read, in the same
    order: each of the three passes keeps the keys of the table.  The same
    holds of the second script. *)
Theorem generatedAlphabet_keys :
  forall referenceFont svgAlphabet,
    map fst (generatedAlphabet referenceFont svgAlphabet)
    = map fst svgAlphabet
    /\ map fst (generatedAlphabet000 referenceFont svgAlphabet)
       = map fst svgAlphabet.
Proof.
  intros referenceFont svgAlphabet.
  unfold generatedAlphabet, generatedAlphabet000, pass3, pass1.
  rewrite !map_map. cbn [fst]. rewrite !pass2_keys, !map_map. cbn [fst].
  split; reflexivity.
Qed.



(* ================================================================== *)
(** ** The bounding box and the transform of Pass 1 *)
(* ================================================================== *)

(** The ordinate as [getBoundingBox] takes it: [1 - y]. *)
Definition flip (y : Q) : Q := Qred (1 + Qred (- y)).

Lemma sub_one_Fin : forall y, sub one (Fin y) = Fin (flip y).
Proof. reflexivity. Qed.

Lemma flip_value : forall y, flip y == 1 - y.
Proof. intros y. unfold flip. rewrite !Qred_correct. ring. Qed.

Lemma bbox_fold_fields :
  forall pts b,
    let r := fold_left bbox_step pts b in
    minX r = fold_left Math_min (map px pts) (minX b)
    /\ maxX r = fold_left Math_max (map px pts) (maxX b)
    /\ minY r
       = fold_left Math_min (map (fun p => sub one (py p)) pts) (minY b)
    /\ maxY r
       = fold_left Math_max (map (fun p => sub one (py p)) pts) (maxY b).
Proof.
  induction pts as [|p pts IH]; intros b; cbn [fold_left map].
  - auto.
  - destruct (IH (bbox_step b p)) as (H1 & H2 & H3 & H4).
    cbv zeta in *. rewrite H1, H2, H3, H4.
    cbn [bbox_step minX maxX minY maxY]. auto.
Qed.

Lemma flipped_ys :
  forall (pts : list Point) ys,
    map py pts = map Fin ys ->
    map (fun p => sub one (py p)) pts = map Fin (map flip ys).
Proof.
  induction pts as [|p pts IH]; intros [|y ys] H; try discriminate.
  - reflexivity.
  - cbn [map] in *. inversion H as [[Hy Hr]]. rewrite Hy, (IH ys Hr).
    reflexivity.
Qed.




(** The box of points with finite coordinates. *)
Lemma getBoundingBox_fin :
  forall subpaths xs ys,
    map px (all_points subpaths) = map Fin xs ->
    map py (all_points subpaths) = map Fin ys ->
    xs <> [] ->
    exists x0 x1 y0 y1,
      getBoundingBox subpaths
      = mkBBox (Fin x0) (Fin x1) (Fin (flip y1)) (Fin (flip y0))
      /\ In x0 xs /\ lower_bound x0 xs /\ In x1 xs /\ upper_bound x1 xs
      /\ In y0 ys /\ lower_bound y0 ys /\ In y1 ys /\ upper_bound y1 ys.
Proof.
  intros subpaths xs ys Hx Hy Hne.
  assert (Hyne : ys <> []).
  { intros ->. destruct xs; [contradiction|].
    destruct (all_points subpaths); discriminate. }
  unfold getBoundingBox.
  destruct (bbox_fold_fields (all_points subpaths) emptyBBox)
    as (H1 & H2 & H3 & H4).
  cbv zeta in H1, H2, H3, H4.
  rewrite Hx in H1, H2. rewrite (flipped_ys _ ys Hy) in H3, H4.
  cbn [emptyBBox minX maxX minY maxY] in H1, H2, H3, H4.
  destruct xs as [|x xs]; [contradiction|].
  destruct ys as [|y ys]; [contradiction|].
  destruct (fold_min_inf x xs) as (x0 & E1 & Hi1 & Hl1).
  destruct (fold_max_inf x xs) as (x1 & E2 & Hi2 & Hl2).
  destruct (fold_min_inf (flip y) (map flip ys)) as (fy0 & E3 & Hi3 & Hl3).
  destruct (fold_max_inf (flip y) (map flip ys)) as (fy1 & E4 & Hi4 & Hl4).
  change (flip y :: map flip ys) with (map flip (y :: ys)) in *.
  rewrite E1 in H1. rewrite E2 in H2. rewrite E3 in H3. rewrite E4 in H4.
  cbv zeta. rewrite H1. cbn [isFinite negb].
  apply in_map_iff in Hi3. destruct Hi3 as (y1 & Ey1 & Hy1).
  apply in_map_iff in Hi4. destruct Hi4 as (y0 & Ey0 & Hy0).
  exists x0, x1, y0, y1.
  split.
  { destruct (fold_left bbox_step (all_points subpaths) emptyBBox)
      as [a b c d].
    cbn [minX maxX minY maxY] in *. subst. reflexivity. }
  repeat split; try assumption.
  - (* y0 is least: its flip is greatest *)
    unfold lower_bound. apply Forall_forall. intros v Hv.
    assert (Hle : flip v <= fy1).
    { apply (upper_bound_In fy1 (map flip (y :: ys))); [exact Hl4|].
      apply in_map. exact Hv. }
    rewrite <- Ey0 in Hle. rewrite !flip_value in Hle. lra.
  - unfold upper_bound. apply Forall_forall. intros v Hv.
    assert (Hle : fy0 <= flip v).
    { apply (lower_bound_In fy0 (map flip (y :: ys))); [exact Hl3|].
      apply in_map. exact Hv. }
    rewrite <- Ey1 in Hle. rewrite !flip_value in Hle. lra.
Qed.

Lemma getBoundingBox_nil :
  forall subpaths,
    all_points subpaths = [] ->
    getBoundingBox subpaths = mkBBox zero zero zero zero.
Proof. intros subpaths H. unfold getBoundingBox. rewrite H. reflexivity. Qed.

(** X10.  [getBoundingBox]: without points the box is all zeros; for
    points with finite coordinates its sides are the least and the
    greatest abscissa, and [1 - y] for the greatest and the least ordinate
    (the ordinate axis is flipped). *)
Theorem getBoundingBox_extremes :
  forall subpaths,
    (all_points subpaths = [] ->
     getBoundingBox subpaths = mkBBox zero zero zero zero)
    /\ (forall xs ys,
          map px (all_points subpaths) = map Fin xs ->
          map py (all_points subpaths) = map Fin ys ->
          xs <> [] ->
          exists x0 x1 y0 y1,
            getBoundingBox subpaths
            = mkBBox (Fin x0) (Fin x1) (sub one (Fin y1)) (sub one (Fin y0))
            /\ In x0 xs /\ lower_bound x0 xs
            /\ In x1 xs /\ upper_bound x1 xs
            /\ In y0 ys /\ lower_bound y0 ys
            /\ In y1 ys /\ upper_bound y1 ys).
Proof.
  intros subpaths. split; [apply getBoundingBox_nil|].
  intros xs ys Hx Hy Hne.
  exact (getBoundingBox_fin subpaths xs ys Hx Hy Hne).
Qed.

Definition sample_outline : list Subpath :=
  [mkSubpath [mkPoint (Fin (1 # 2)) (Fin (1 # 4)); P 2 1] false;
   mkSubpath [mkPoint (Fin (-1 # 3)) (Fin 3)] true].

Lemma getBoundingBox_extremes_witness :
  getBoundingBox [mkSubpath [] true] = mkBBox zero zero zero zero
  /\ exists x0 x1 y0 y1,
       getBoundingBox sample_outline
       = mkBBox (Fin x0) (Fin x1) (sub one (Fin y1)) (sub one (Fin y0))
       /\ In x0 [1 # 2; 2 # 1; -1 # 3]
       /\ lower_bound x0 [1 # 2; 2 # 1; -1 # 3]
       /\ In x1 [1 # 2; 2 # 1; -1 # 3]
       /\ upper_bound x1 [1 # 2; 2 # 1; -1 # 3]
       /\ In y0 [1 # 4; 1 # 1; 3 # 1] /\ lower_bound y0 [1 # 4; 1 # 1; 3 # 1]
       /\ In y1 [1 # 4; 1 # 1; 3 # 1] /\ upper_bound y1 [1 # 4; 1 # 1; 3 # 1].
Proof.
  split.
  - exact (proj1 (getBoundingBox_extremes [mkSubpath [] true]) eq_refl).
  - apply (proj2 (getBoundingBox_extremes sample_outline));
      [reflexivity | reflexivity | discriminate].
Defined.

Lemma pad_zero : div STROKE_WIDTH two = Fin 0.
Proof. vm_compute. reflexivity. Qed.









(* ================================================================== *)
(** ** What Passes 2 and 3 do to a glyph *)
(* ================================================================== *)





(* ================================================================== *)
(** ** The base scales *)
(* ================================================================== *)


Lemma gt_zero_Fin : forall q, gt (Fin q) zero = true <-> 0 < q.
Proof. intros q. change (gt (Fin q) zero) with (Qltb 0 q). apply Qltb_true. Qed.

Lemma Qeq_bool_pos : forall q, 0 < q -> Qeq_bool q 0 = false.
Proof.
  intros q H. destruct (Qeq_bool q 0) eqn:E; [|reflexivity].
  apply Qeq_bool_iff in E. exfalso. lra.
Qed.



(* ================================================================== *)
(** ** Pass 1 writes paths in serialized form *)
(* ================================================================== *)

(** A finite number of magnitude at most [b]. *)
Definition within (b : Q) (v : number) : Prop :=
  exists q, v = Fin q /\ Qabs q <= b.

Lemma within_Fin : forall b q, Qabs q <= b -> within b (Fin q).
Proof. intros b q H. exists q. auto. Qed.

Lemma within_weaken :
  forall b b' v, b <= b' -> within b v -> within b' v.
Proof.
  intros b b' v Hb (q & -> & H). exists q. split; [reflexivity | lra].
Qed.

Lemma within_nonneg : forall b v, within b v -> 0 <= b.
Proof.
  intros b v (q & _ & H). pose proof (Qabs_nonneg q). lra.
Qed.

Lemma within_add :
  forall a b u v, within a u -> within b v -> within (a + b) (add u v).
Proof.
  intros a b u v (p & -> & Hp) (q & -> & Hq).
  exists (Qred (p + q)). split; [reflexivity|].
  rewrite (Qred_correct (p + q)).
  pose proof (Qabs_triangle p q). lra.
Qed.

Lemma within_neg : forall a u, within a u -> within a (neg u).
Proof.
  intros a u (p & -> & Hp). exists (Qred (- p)). split; [reflexivity|].
  rewrite (Qred_correct (- p)), Qabs_opp. exact Hp.
Qed.

Lemma within_sub :
  forall a b u v, within a u -> within b v -> within (a + b) (sub u v).
Proof.
  intros a b u v Hu Hv. unfold sub. apply within_add; [exact Hu|].
  apply within_neg. exact Hv.
Qed.

Lemma within_mul :
  forall a b u v, within a u -> within b v -> within (a * b) (mul u v).
Proof.
  intros a b u v (p & -> & Hp) (q & -> & Hq).
  exists (Qred (p * q)). split; [reflexivity|].
  rewrite (Qred_correct (p * q)), Qabs_Qmult.
  apply Qmult_le_compat_nonneg; split;
    [apply Qabs_nonneg | exact Hp | apply Qabs_nonneg | exact Hq].
Qed.

Lemma within_half : forall a u, within a u -> within a (div u two).
Proof.
  intros a u (p & -> & Hp). exists (Qred (p / 2)). split; [reflexivity|].
  rewrite (Qred_correct (p / 2)).
  assert (E : p / 2 == p * (1 # 2)) by field. rewrite E, Qabs_Qmult.
  change (Qabs (1 # 2)) with (1 # 2).
  pose proof (Qabs_nonneg p). lra.
Qed.

Lemma within_min :
  forall a u v, within a u -> within a v -> within a (Math_min u v).
Proof.
  intros a u v (p & -> & Hp) (q & -> & Hq). rewrite Math_min_Fin.
  destruct (Qle_bool p q); apply within_Fin; assumption.
Qed.

Lemma within_max :
  forall a u v, within a u -> within a v -> within a (Math_max u v).
Proof.
  intros a u v (p & -> & Hp) (q & -> & Hq). rewrite Math_max_Fin.
  destruct (Qle_bool p q); apply within_Fin; assumption.
Qed.

Lemma fold_min_within :
  forall a vs acc,
    Forall (within a) vs -> within a acc ->
    within a (fold_left Math_min vs acc).
Proof.
  intros a. induction vs as [|v vs IH]; intros acc H Ha; [exact Ha|].
  inversion H; subst. cbn [fold_left]. apply IH; [assumption|].
  apply within_min; assumption.
Qed.

Lemma fold_max_within :
  forall a vs acc,
    Forall (within a) vs -> within a acc ->
    within a (fold_left Math_max vs acc).
Proof.
  intros a. induction vs as [|v vs IH]; intros acc H Ha; [exact Ha|].
  inversion H; subst. cbn [fold_left]. apply IH; [assumption|].
  apply within_max; assumption.
Qed.

Lemma fold_min_within_inf :
  forall a vs,
    vs <> [] -> Forall (within a) vs ->
    within a (fold_left Math_min vs PosInf).
Proof.
  intros a [|v vs] Hne H; [contradiction|]. inversion H; subst.
  cbn [fold_left]. apply fold_min_within; [assumption|].
  destruct H2 as (q & -> & Hq). apply within_Fin. exact Hq.
Qed.

Lemma fold_max_within_inf :
  forall a vs,
    vs <> [] -> Forall (within a) vs ->
    within a (fold_left Math_max vs NegInf).
Proof.
  intros a [|v vs] Hne H; [contradiction|]. inversion H; subst.
  cbn [fold_left]. apply fold_max_within; [assumption|].
  destruct H2 as (q & -> & Hq). apply within_Fin. exact Hq.
Qed.

(** Points with abscissas within [bx] and ordinates within [by]. *)
Definition point_within (bx by_ : Q) (p : Point) : Prop :=
  within bx (px p) /\ within by_ (py p).

Definition subpaths_within (bx by_ : Q) (s : list Subpath) : Prop :=
  Forall (fun sp => Forall (point_within bx by_) (points sp)) s.

Lemma all_points_within :
  forall bx by_ s,
    subpaths_within bx by_ s -> Forall (point_within bx by_) (all_points s).
Proof.
  intros bx by_ s H. unfold all_points.
  induction s as [|sp s IH]; [constructor|].
  inversion H; subst. cbn [flat_map]. apply Forall_app. auto.
Qed.

Lemma subpaths_within_weaken :
  forall bx by_ bx' by' s,
    bx <= bx' -> by_ <= by' ->
    subpaths_within bx by_ s -> subpaths_within bx' by' s.
Proof.
  intros bx by_ bx' by' s Hx Hy H. unfold subpaths_within in *.
  eapply Forall_impl; [|exact H]. intros sp Hsp.
  eapply Forall_impl; [|exact Hsp]. intros p [H1 H2].
  split; eapply within_weaken; eassumption.
Qed.

Lemma one_within : within 1 one.
Proof. apply within_Fin. apply Qle_refl. Qed.

(** The sides of the box of points within bounds. *)
Lemma getBoundingBox_within :
  forall bx by_ s,
    all_points s <> [] ->
    subpaths_within bx by_ s ->
    within bx (minX (getBoundingBox s))
    /\ within bx (maxX (getBoundingBox s))
    /\ within (1 + by_) (maxY (getBoundingBox s)).
Proof.
  intros bx by_ s Hne Hs. apply all_points_within in Hs.
  unfold getBoundingBox.
  destruct (bbox_fold_fields (all_points s) emptyBBox) as (H1 & H2 & _ & H4).
  cbv zeta in H1, H2, H4. cbn [emptyBBox minX maxX maxY] in H1, H2, H4.
  assert (Hxs : Forall (within bx) (map px (all_points s))).
  { apply Forall_map. eapply Forall_impl; [|exact Hs]. intros p [H _].
    exact H. }
  assert (Hys : Forall (within (1 + by_))
                       (map (fun p => sub one (py p)) (all_points s))).
  { apply Forall_map. eapply Forall_impl; [|exact Hs]. intros p [_ H].
    apply within_sub; [exact one_within | exact H]. }
  assert (Hne' : forall (f : Point -> number), map f (all_points s) <> [])
    by (intros f; destruct (all_points s); [contradiction | discriminate]).
  pose proof (fold_min_within_inf bx _ (Hne' px) Hxs) as W1.
  pose proof (fold_max_within_inf bx _ (Hne' px) Hxs) as W2.
  pose proof (fold_max_within_inf (1 + by_) _ (Hne' _) Hys) as W4.
  rewrite <- H1 in W1. rewrite <- H2 in W2. rewrite <- H4 in W4.
  destruct W1 as (q & E & Hq). cbv zeta. rewrite E. cbn [isFinite negb].
  split; [rewrite E; exists q; auto|]. split; assumption.
Qed.

(** The sides of the box of the dot, which is not flipped. *)
Lemma raw_bbox_within :
  forall bx by_ sp,
    points sp <> [] ->
    Forall (point_within bx by_) (points sp) ->
    within bx (minX (raw_bbox sp)) /\ within bx (maxX (raw_bbox sp)).
Proof.
  intros bx by_ sp Hne Hs. unfold raw_bbox.
  destruct (raw_fold_fields (points sp) emptyBBox) as (H1 & H2 & _).
  cbv zeta in H1, H2. cbn [emptyBBox minX maxX] in H1, H2.
  assert (Hxs : Forall (within bx) (map px (points sp))).
  { apply Forall_map. eapply Forall_impl; [|exact Hs]. intros p [H _].
    exact H. }
  assert (Hne' : map px (points sp) <> [])
    by (destruct (points sp); [contradiction | discriminate]).
  rewrite H1, H2. split.
  - apply fold_min_within_inf; assumption.
  - apply fold_max_within_inf; assumption.
Qed.

Lemma transform_within :
  forall bx by_ bsx bsy bxs bys sx sy xsh ysh s,
    within bsx sx -> within bsy sy -> within bxs xsh -> within bys ysh ->
    subpaths_within bx by_ s ->
    subpaths_within (bx * bsx + bxs) (1 + ((1 + by_) * bsy + bys))
                    (transformSubpaths s sx sy xsh ysh).
Proof.
  intros bx by_ bsx bsy bxs bys sx sy xsh ysh s Hsx Hsy Hxs Hys H.
  unfold transformSubpaths, map_points, subpaths_within in *.
  apply Forall_map. eapply Forall_impl; [|exact H]. intros sp Hsp.
  cbn [points]. apply Forall_map. eapply Forall_impl; [|exact Hsp].
  intros p [Hx Hy]. unfold transformPoint, point_within. cbn [px py].
  split.
  - apply within_add; [apply within_mul|]; assumption.
  - apply within_sub; [exact one_within|].
    apply within_add; [|assumption].
    apply within_mul; [|assumption].
    apply within_sub; [exact one_within | assumption].
Qed.

(** The scale of the dot is a number between 0 and 1. *)
Lemma dot_scale_within :
  forall w,
    0 < w -> within 1 (div (Math_min (Fin w) DOT_TARGET) (Fin w)).
Proof.
  intros w Hw. rewrite DOT_TARGET_value, Math_min_Fin.
  set (t := if Qle_bool w DOT_Q then w else DOT_Q).
  assert (Ht : 0 < t /\ t <= w).
  { unfold t. destruct (Qle_bool w DOT_Q) eqn:E.
    - split; [exact Hw | apply Qle_refl].
    - apply Qle_bool_false in E. split; [reflexivity | lra]. }
  unfold div. rewrite (Qeq_bool_pos w Hw). apply within_Fin.
  rewrite (Qred_correct (t / w)).
  assert (H0 : 0 <= t / w).
  { apply Qle_shift_div_l; [exact Hw | lra]. }
  rewrite (Qabs_pos _ H0). apply Qle_shift_div_r; [exact Hw | lra].
Qed.

Lemma rescaleDot_within :
  forall bx by_ dot sp,
    dot_candidate dot ->
    Forall (point_within bx by_) (points dot) ->
    Forall (point_within bx by_) (points sp) ->
    Forall (point_within (5 * bx) by_)
           (points (rescaleDot (raw_bbox dot) sp)).
Proof.
  intros bx by_ dot sp (Hne & _ & Hw) Hdot Hsp.
  destruct (raw_bbox_within bx by_ dot Hne Hdot) as [Wmin Wmax].
  unfold rescaleDot. cbn [points]. apply Forall_map.
  assert (Wc : within (bx + bx)
                      (div (add (minX (raw_bbox dot)) (maxX (raw_bbox dot)))
                           two))
    by (apply within_half, within_add; assumption).
  assert (Ws : within 1 (div (Math_min (widthOf (raw_bbox dot)) DOT_TARGET)
                             (widthOf (raw_bbox dot)))).
  { unfold widthOf in *.
    destruct (within_sub _ _ _ _ Wmax Wmin) as (w & Ew & _).
    rewrite Ew in *. apply dot_scale_within. apply gt_zero_Fin. exact Hw. }
  eapply Forall_impl; [|exact Hsp]. intros p [Hx Hy].
  unfold rescalePoint, point_within. cbn [px py]. split; [|exact Hy].
  apply (within_weaken (bx + bx + (bx + (bx + bx)) * 1)); [lra|].
  apply within_add; [exact Wc|]. apply within_mul; [|exact Ws].
  apply within_sub; assumption.
Qed.

Lemma map_index_Forall :
  forall {A B} (Q : B -> Prop) (f : A -> nat -> B) l i,
    (forall a k, In a l -> Q (f a k)) -> Forall Q (map_index f i l).
Proof.
  intros A B Q f l. induction l as [|a l IH]; intros i H; cbn [map_index].
  - constructor.
  - constructor; [apply H; left; reflexivity|].
    apply IH. intros b k Hb. apply H. right. exact Hb.
Qed.

Lemma adjustDotSubpath_cases :
  forall s char,
    adjustDotSubpath s char = s
    \/ exists k dot,
         In dot s /\ dot_candidate dot
         /\ adjustDotSubpath s char
            = map_index (fun subpath index =>
                           if negb (Z.of_nat index =? Z.of_nat k)%Z
                           then subpath
                           else rescaleDot (raw_bbox dot) subpath)
                        0 s.
Proof.
  intros s char. destruct (is_dotted char) eqn:Hch.
  - destruct (dotBbox (scanDot 0 s initDot)) as [box|] eqn:Hb.
    + destruct (scanDot_found s box Hb) as (k & dot & Hn & Hc & E & _).
      right. exists k, dot. split; [eapply nth_error_In; exact Hn|].
      split; [exact Hc|]. apply adjustDotSubpath_found; assumption.
    + left. unfold adjustDotSubpath. rewrite Hch, Hb. reflexivity.
  - left. unfold adjustDotSubpath. rewrite Hch. reflexivity.
Qed.

Lemma adjustDotSubpath_within :
  forall bx by_ s char,
    0 <= bx ->
    subpaths_within bx by_ s ->
    subpaths_within (5 * bx) by_ (adjustDotSubpath s char).
Proof.
  intros bx by_ s char H0 H.
  assert (Hweak : subpaths_within (5 * bx) by_ s)
    by (apply (subpaths_within_weaken bx by_); [lra | apply Qle_refl | exact H]).
  destruct (adjustDotSubpath_cases s char) as [E | (k & dot & Hin & Hc & E)];
    rewrite E; [exact Hweak|].
  unfold subpaths_within in *. apply map_index_Forall.
  intros sp i Hsp. rewrite Forall_forall in H, Hweak.
  destruct (negb (Z.of_nat i =? Z.of_nat k)%Z); [apply Hweak; exact Hsp|].
  apply rescaleDot_within; [exact Hc | apply H; exact Hin | apply H; exact Hsp].
Qed.

Lemma adjustDotSubpath_shape :
  forall s char,
    with_points s ->
    with_points (adjustDotSubpath s char)
    /\ List.length (adjustDotSubpath s char) = List.length s.
Proof.
  intros s char H.
  destruct (adjustDotSubpath_cases s char) as [E | (k & dot & _ & _ & E)];
    rewrite E; [auto|].
  split; [|apply map_index_length].
  unfold with_points in *. apply map_index_Forall.
  intros sp i Hsp. rewrite Forall_forall in H.
  destruct (negb (Z.of_nat i =? Z.of_nat k)%Z); [apply H; exact Hsp|].
  unfold rescaleDot. cbn [points]. specialize (H sp Hsp). cbv beta in H.
  destruct (points sp); [contradiction | discriminate].
Qed.

(** Subpaths with points and coordinates below 10^21 in magnitude are
    written in serialized form, with six decimals. *)
Lemma rnd_decimal6 : forall q, Qabs q < E21 -> decimal 6 (rnd q).
Proof.
  intros q H. rewrite rnd_small; [apply round6_decimal|].
  apply Qle_bool_false. exact H.
Qed.

Lemma canonical_small :
  forall bx by_ s,
    bx < E21 -> by_ < E21 ->
    with_points s -> subpaths_within bx by_ s ->
    canonical 6 (serializeSubpaths s)
    /\ parsePathData (serializeSubpaths s) = map round_subpath s.
Proof.
  intros bx by_ s Hbx Hby Hp H.
  assert (Hok : Forall ok_subpath s).
  { unfold subpaths_within in H. eapply Forall_impl; [|exact H].
    intros sp Hsp. unfold ok_subpath. eapply Forall_impl; [|exact Hsp].
    intros p [(x & Ex & Hx) (y & Ey & Hy)]. unfold ok_point.
    rewrite Ex, Ey. split; left; lra. }
  pose proof (parse_serialize s Hp Hok) as E.
  split; [|exact E]. unfold canonical. rewrite E.
  split; [apply serialize_round; exact Hok|].
  unfold decimal_subpaths. apply Forall_map.
  unfold subpaths_within in H. eapply Forall_impl; [|exact H].
  intros sp Hsp. cbn [round_subpath points]. apply Forall_map.
  eapply Forall_impl; [|exact Hsp].
  intros p [(x & Ex & Hx) (y & Ey & Hy)].
  unfold decimal_point, round_point. cbn [px py]. rewrite Ex, Ey.
  cbn [round_number decimal_number].
  split; apply rnd_decimal6; lra.
Qed.

(** Bounds for which Pass 1 is followed: coordinates, scales and the top
    of the reference glyph within a million. *)
Definition BOUND : Q := inject_Z (10 ^ 6).

Lemma BOUND_nonneg : 0 <= BOUND.
Proof. closed_Qle. Qed.

Lemma xShift_within :
  forall a u v, within a u -> within a v -> within (1 + 3 * a) (xShift u v).
Proof.
  intros a u v Hu Hv. pose proof (within_nonneg _ _ Hu) as H0.
  apply (within_weaken a); [lra|]. unfold xShift. apply within_neg. exact Hu.
Qed.

Lemma xShift000_within :
  forall a u v,
    within a u -> within a v -> within (1 + 3 * a) (Part000.xShift u v).
Proof.
  intros a u v Hu Hv. pose proof (within_nonneg _ _ Hu) as H0.
  unfold Part000.xShift. cbv zeta.
  destruct (le (sub v u) one).
  - apply (within_weaken (1 + (a + a) + a)); [lra|].
    apply within_sub; [|exact Hu]. apply within_half.
    apply within_sub; [exact one_within|]. apply within_sub; assumption.
  - apply (within_weaken a); [lra|]. apply within_neg. exact Hu.
Qed.

(** One glyph through Pass 1, for a horizontal shift within bounds. *)
Lemma pass1_glyph_form :
  forall referenceFont shiftOf svgAlphabet char pathData,
    (forall a u v, within a u -> within a v ->
                   within (1 + 3 * a) (shiftOf u v)) ->
    within BOUND (baseScaleX referenceFont svgAlphabet) ->
    within BOUND (baseScaleY referenceFont svgAlphabet) ->
    (forall m, getReferenceGlyphMetrics referenceFont char = Some m ->
               within BOUND (div (yMax m) DESIGN_HEIGHT)) ->
    subpaths_within BOUND BOUND (parsePathData pathData) ->
    parsePathData pathData <> [] ->
    canonical 6 (pass1_glyph referenceFont shiftOf svgAlphabet char pathData)
    /\ List.length
         (parsePathData
            (pass1_glyph referenceFont shiftOf svgAlphabet char pathData))
       = List.length (parsePathData pathData).
Proof.
  intros referenceFont shiftOf svgAlphabet char pathData
         Hshift Hsx Hsy Hym Hs Hne.
  pose proof BOUND_nonneg as HB.
  pose proof (parse_with_points pathData) as Hp.
  assert (Hpts : all_points (parsePathData pathData) <> []).
  { destruct (parsePathData pathData) as [|sp s]; [contradiction|].
    inversion Hp; subst. unfold all_points. cbn [flat_map].
    destruct (points sp); [contradiction | discriminate]. }
  destruct (getBoundingBox_within BOUND BOUND _ Hpts Hs)
    as (Wx0 & Wx1 & Wy1).
  unfold pass1_glyph. cbv zeta.
  destruct (is_nil (parsePathData pathData)) eqn:En.
  { destruct (parsePathData pathData); [contradiction | discriminate]. }
  rewrite pad_zero.
  assert (W0 : within 0 (Fin 0)) by (apply within_Fin; apply Qle_refl).
  set (bm := (BOUND + 0) * BOUND).
  assert (Wmin : within bm
                   (mul (sub (minX (getBoundingBox (parsePathData pathData)))
                             (Fin 0))
                        (baseScaleX referenceFont svgAlphabet)))
    by (apply within_mul; [apply within_sub|]; assumption).
  assert (Wmax : within bm
                   (mul (add (maxX (getBoundingBox (parsePathData pathData)))
                             (Fin 0))
                        (baseScaleX referenceFont svgAlphabet)))
    by (apply within_mul; [apply within_add|]; assumption).
  pose proof (Hshift bm _ _ Wmin Wmax) as Wsh.
  set (bys := BOUND + (1 + BOUND + 0) * BOUND).
  match goal with
  | |- context [transformSubpaths _ _ _ _ ?ys] =>
      assert (Wys : within bys ys)
  end.
  { unfold useReferenceSpacing.
    destruct (getReferenceGlyphMetrics referenceFont char) as [m|] eqn:Em.
    - apply within_sub; [apply Hym; reflexivity|].
      apply within_mul; [apply within_add|]; assumption.
    - apply within_Fin. unfold bys. change (Qabs 0) with 0.
      apply Qle_bool_iff. vm_compute. reflexivity. }
  match goal with
  | |- context [adjustDotSubpath ?t char] => set (transformed := t) in *
  end.
  assert (Wt : subpaths_within (BOUND * BOUND + (1 + 3 * bm))
                               (1 + ((1 + BOUND) * BOUND + bys)) transformed)
    by (apply transform_within; assumption).
  assert (Hpt : with_points transformed)
    by (apply with_points_map; exact Hp).
  destruct (adjustDotSubpath_shape transformed char Hpt) as [Hpa Hla].
  assert (Wa : subpaths_within (5 * (BOUND * BOUND + (1 + 3 * bm)))
                               (1 + ((1 + BOUND) * BOUND + bys))
                               (adjustDotSubpath transformed char)).
  { apply adjustDotSubpath_within; [|exact Wt].
    apply Qle_bool_iff. vm_compute. reflexivity. }
  assert (Hb1 : 5 * (BOUND * BOUND + (1 + 3 * bm)) < E21) by closed_Qlt.
  assert (Hb2 : 1 + ((1 + BOUND) * BOUND + bys) < E21) by closed_Qlt.
  destruct (canonical_small _ _ _ Hb1 Hb2 Hpa Wa) as [Hcan Hparse].
  split; [exact Hcan|].
  rewrite Hparse, length_map, Hla. unfold transformed, transformSubpaths,
    map_points. apply length_map.
Qed.

(** X15.  Pass 1 writes every glyph with geometry in serialized form, in
    both scripts: when the coordinates of the glyph, the two base scales
    and the top of the reference glyph in em are finite numbers of
    magnitude at most a million, serializing what the new path parses to
    gives the new path back, its coordinates have at most six decimals, and
    it has as many subpaths as the old path.  A text in which the parser
    finds no subpath is kept as it is. *)
Theorem pass1_glyph_serialized :
  forall referenceFont svgAlphabet char pathData,
    within BOUND (baseScaleX referenceFont svgAlphabet) ->
    within BOUND (baseScaleY referenceFont svgAlphabet) ->
    (forall m, getReferenceGlyphMetrics referenceFont char = Some m ->
               within BOUND (div (yMax m) DESIGN_HEIGHT)) ->
    subpaths_within BOUND BOUND (parsePathData pathData) ->
    (parsePathData pathData = [] ->
     pass1_glyph referenceFont xShift svgAlphabet char pathData = pathData
     /\ pass1_glyph referenceFont Part000.xShift svgAlphabet char pathData
        = pathData)
    /\ (parsePathData pathData <> [] ->
        let new := pass1_glyph referenceFont xShift svgAlphabet char pathData in
        let new000 :=
          pass1_glyph referenceFont Part000.xShift svgAlphabet char pathData in
        canonical 6 new
        /\ List.length (parsePathData new)
           = List.length (parsePathData pathData)
        /\ canonical 6 new000
        /\ List.length (parsePathData new000)
           = List.length (parsePathData pathData)).
Proof.
  intros referenceFont svgAlphabet char pathData Hsx Hsy Hym Hs. split.
  - intros E. unfold pass1_glyph. cbv zeta. rewrite E. cbn [is_nil].
    split; reflexivity.
  - intros Hne. cbv zeta.
    destruct (pass1_glyph_form referenceFont xShift svgAlphabet char pathData
                xShift_within Hsx Hsy Hym Hs Hne) as [H1 H2].
    destruct (pass1_glyph_form referenceFont Part000.xShift svgAlphabet char
                pathData xShift000_within Hsx Hsy Hym Hs Hne) as [H3 H4].
    auto.
Qed.

(** Deciding the bounds on a table. *)
Definition withinb (b : Q) (v : number) : bool :=
  match v with
  | Fin q => Qle_bool (Qabs q) b
  | _ => false
  end.

Lemma withinb_sound : forall b v, withinb b v = true -> within b v.
Proof.
  intros b [| | |q] H; try discriminate. apply within_Fin.
  apply Qle_bool_iff. exact H.
Qed.

Definition subpaths_withinb (bx by_ : Q) (s : list Subpath) : bool :=
  forallb (fun sp =>
             forallb (fun p => withinb bx (px p) && withinb by_ (py p))
                     (points sp)) s.

Lemma subpaths_withinb_sound :
  forall bx by_ s, subpaths_withinb bx by_ s = true -> subpaths_within bx by_ s.
Proof.
  intros bx by_ s H. unfold subpaths_withinb in H.
  rewrite forallb_forall in H. unfold subpaths_within.
  apply Forall_forall. intros sp Hsp. specialize (H sp Hsp).
  rewrite forallb_forall in H. apply Forall_forall. intros p Hp.
  specialize (H p Hp). apply andb_prop in H as [Hx Hy].
  split; apply withinb_sound; assumption.
Qed.

Lemma pass1_glyph_serialized_witness :
  let new :=
    pass1_glyph sample_font xShift sample_alphabet "i"
                "M0.2 0.1 L0.4 0.1 M0.3 0.3 L0.3 1" in
  canonical 6 new /\ List.length (parsePathData new) = 2%nat.
Proof.
  cbv zeta.
  assert (H1 : within BOUND (baseScaleX sample_font sample_alphabet))
    by (apply withinb_sound; vm_compute; reflexivity).
  assert (H2 : within BOUND (baseScaleY sample_font sample_alphabet))
    by (apply withinb_sound; vm_compute; reflexivity).
  assert (H3 : forall m,
             getReferenceGlyphMetrics sample_font "i" = Some m ->
             within BOUND (div (yMax m) DESIGN_HEIGHT)).
  { intros m Hm. vm_compute in Hm. inversion Hm; subst m.
    apply withinb_sound. vm_compute. reflexivity. }
  assert (H4 : subpaths_within BOUND BOUND
                 (parsePathData "M0.2 0.1 L0.4 0.1 M0.3 0.3 L0.3 1"))
    by (apply subpaths_withinb_sound; vm_compute; reflexivity).
  destruct (pass1_glyph_serialized sample_font sample_alphabet "i"
              "M0.2 0.1 L0.4 0.1 M0.3 0.3 L0.3 1" H1 H2 H3 H4) as [_ H].
  assert (Hne : parsePathData "M0.2 0.1 L0.4 0.1 M0.3 0.3 L0.3 1" <> [])
    by (vm_compute; discriminate).
  destruct (H Hne) as (Hc & Hl & _).
  split; [exact Hc|]. rewrite Hl. vm_compute. reflexivity.
Defined.

(* ================================================================== *)
(** ** The pipeline from end to end *)
(* ================================================================== *)











